(** * Wedding invitation site: the DOM interaction scripts

  A shallow embedding of [js/main.js] (accordion, itinerary tabs,
  background audio), [js/animations.js] (the [ScrollAnimations] class) and
  [js/forms.js] (the [ContactForm] class), and the properties of the
  exclusive disclosure controller and of the viewport reveal controller.

  The scripts only read and write presentational state of a fixed tree of
  elements: class lists, attributes and inline styles.  The document is a
  store of elements in tree order; an element reference is its position in
  the store.  Code that can throw runs in a state monad whose completion is
  either normal or a thrown exception; the state reached when the exception
  was thrown is kept, as in JavaScript. *)

From Stdlib Require Import ZArith Lia Ascii String QArith Qcanon.
From stdpp Require Import base decidable option numbers list strings gmap pretty.

Set Default Proof Using "Type".

(** ** Completions and the state monad of a script *)

Module Js.

Inductive exn : Type :=
| TypeError (msg : string)
| DOMException (name : string)
| Error (msg : string).

Inductive completion (A : Type) : Type :=
| Normal (a : A)
| Throw (e : exn).
Arguments Normal {A} a.
Arguments Throw {A} e.

Definition M (S A : Type) : Type := S → S * completion A.

Definition ret {S A} (a : A) : M S A := λ s, (s, Normal a).

Definition throw {S A} (e : exn) : M S A := λ s, (s, Throw e).

Definition bind {S A B} (m : M S A) (k : A → M S B) : M S B :=
  λ s, match m s with
       | (s', Normal a) => k a s'
       | (s', Throw e) => (s', Throw e)
       end.

Definition get {S} : M S S := λ s, (s, Normal s).

Definition modify {S} (f : S → S) : M S unit := λ s, (f s, Normal tt).

(** [list.forEach(f)]: the callback runs on every entry in order; an
    exception thrown by the callback ends the loop. *)
Fixpoint forEach {S A} (l : list A) (f : A → M S unit) : M S unit :=
  match l with
  | [] => ret tt
  | x :: l' => bind (f x) (λ _, forEach l' f)
  end.

(** The state a computation leaves behind, whatever its completion. *)
Definition exec {S A} (m : M S A) (s : S) : S := fst (m s).

Definition completes {S A} (m : M S A) (s : S) : Prop :=
  ∃ a, snd (m s) = Normal a.

End Js.

Import Js.

Declare Scope js_scope.
Delimit Scope js_scope with js.
Notation "'let*' x ':=' m 'in' k" := (bind m (λ x, k))
  (at level 10, x name, m at level 100, k at level 200) : js_scope.
Notation "m '>>' k" := (bind m (λ _, k))
  (at level 100, k at level 200, right associativity) : js_scope.
Open Scope js_scope.

(** ** The document *)

Module Dom.

(** An element: its parent element (none for the root element), its
    [classList], its attributes and its inline [style]. *)
Record element : Type := Element {
  parentElement : option nat;
  classList : list string;
  attributes : gmap string string;
  style : gmap string string;
}.

(** The elements of the document in tree order. *)
Abbreviation document := (list element).

(** A value that holds an element or [null]. *)
Abbreviation ref := (option nat).

Inductive simple_selector : Type :=
| SelClass (c : string)       (* .c *)
| SelAttr (a : string).       (* [a] *)

(** A selector list [s1, s2, ...]. *)
Abbreviation selector := (list simple_selector).

Definition hasClass (e : element) (c : string) : bool :=
  bool_decide (c ∈ classList e).

Definition matches1 (e : element) (s : simple_selector) : bool :=
  match s with
  | SelClass c => hasClass e c
  | SelAttr a => bool_decide (is_Some (attributes e !! a))
  end.

Definition matches (e : element) (sel : selector) : bool :=
  existsb (matches1 e) sel.

Definition matchesAt (d : document) (sel : selector) (i : nat) : bool :=
  match d !! i with
  | Some e => matches e sel
  | None => false
  end.

(** [document.querySelectorAll(sel)]: a static list, in tree order. *)
Definition querySelectorAll (d : document) (sel : selector) : list nat :=
  filter (λ i, matchesAt d sel i = true) (seq 0 (length d)).

(** The chain [i], parent of [i], ... up to the root.  In the store of a
    document a chain has at most as many elements as the store, which is
    the [fuel] the callers pass. *)
Fixpoint inclusiveAncestors (fuel : nat) (d : document) (i : nat) : list nat :=
  match fuel with
  | 0 => []
  | S fuel' =>
      match d !! i with
      | None => []
      | Some e =>
          i :: match parentElement e with
               | None => []
               | Some p => inclusiveAncestors fuel' d p
               end
      end
  end.

Definition ancestors (d : document) (i : nat) : list nat :=
  match d !! i with
  | Some e =>
      match parentElement e with
      | Some p => inclusiveAncestors (length d) d p
      | None => []
      end
  | None => []
  end.

Definition isDescendantOf (d : document) (root i : nat) : bool :=
  bool_decide (root ∈ ancestors d i).

(** [element.querySelector(sel)]: the first descendant that matches. *)
Definition querySelectorIn (d : document) (root : nat) (sel : selector) : ref :=
  head (filter (λ i, isDescendantOf d root i = true)
          (querySelectorAll d sel)).

(** [element.closest(sel)]: the nearest inclusive ancestor that matches. *)
Definition closest (d : document) (i : nat) (sel : selector) : ref :=
  head (filter (λ j, matchesAt d sel j = true)
          (inclusiveAncestors (length d) d i)).

(** An element's ID is its [id] attribute when that is not empty. *)
Definition hasId (d : document) (name : string) (i : nat) : bool :=
  match d !! i with
  | Some e => bool_decide (name ≠ "" ∧ attributes e !! "id" = Some name)
  | None => false
  end.

(** [document.getElementById(name)]. *)
Definition getElementById (d : document) (name : string) : ref :=
  head (filter (λ i, hasId d name i = true) (seq 0 (length d))).

(** *** Pure updates of one element of the store *)

Definition addToken (c : string) (l : list string) : list string :=
  if bool_decide (c ∈ l) then l else l ++ [c].

Definition removeToken (c : string) (l : list string) : list string :=
  filter (λ x, x ≠ c) l.

Definition withClassList (f : list string → list string) (e : element) : element :=
  {| parentElement := parentElement e; classList := f (classList e);
     attributes := attributes e; style := style e |}.

Definition withAttribute (a v : string) (e : element) : element :=
  {| parentElement := parentElement e; classList := classList e;
     attributes := <[a:=v]> (attributes e); style := style e |}.

Definition withStyle (p v : string) (e : element) : element :=
  {| parentElement := parentElement e; classList := classList e;
     attributes := attributes e; style := <[p:=v]> (style e) |}.

(** *** Operations on a reference

    A member access on [null] throws a [TypeError]; a reference outside
    the store holds no element and behaves like [null]. *)

Definition nullError : exn := TypeError "Cannot read properties of null".

Definition deref (r : ref) : M document (nat * element) :=
  λ d, match r with
       | Some i =>
           match d !! i with
           | Some e => (d, Normal (i, e))
           | None => (d, Throw nullError)
           end
       | None => (d, Throw nullError)
       end.

Definition update (r : ref) (f : element → element) : M document unit :=
  let* ie := deref r in
  modify (alter f (fst ie)).

Definition classList_contains (r : ref) (c : string) : M document bool :=
  let* ie := deref r in ret (hasClass (snd ie) c).

(** [classList.add] and [classList.remove] reject a token that is empty
    or contains ASCII whitespace. *)
Definition isAsciiWhitespace (a : ascii) : bool :=
  match a with
  | "009" | "010" | "012" | "013" | " " => true
  | _ => false
  end%char.

Fixpoint hasAsciiWhitespace (s : string) : bool :=
  match s with
  | EmptyString => false
  | String a s' => isAsciiWhitespace a || hasAsciiWhitespace s'
  end.

Definition checkToken (c : string) : M document unit :=
  if bool_decide (c = "") then throw (DOMException "SyntaxError")
  else if hasAsciiWhitespace c then throw (DOMException "InvalidCharacterError")
  else ret tt.

Definition classList_add (r : ref) (c : string) : M document unit :=
  let* ie := deref r in
  checkToken c >>
  modify (alter (withClassList (addToken c)) (fst ie)).

Definition classList_remove (r : ref) (c : string) : M document unit :=
  let* ie := deref r in
  checkToken c >>
  modify (alter (withClassList (removeToken c)) (fst ie)).

Definition getAttribute (r : ref) (a : string) : M document (option string) :=
  let* ie := deref r in ret (attributes (snd ie) !! a).

Definition setAttribute (r : ref) (a v : string) : M document unit :=
  update r (withAttribute a v).

Definition style_set (r : ref) (p v : string) : M document unit :=
  update r (withStyle p v).

Definition get_parentElement (r : ref) : M document ref :=
  let* ie := deref r in ret (parentElement (snd ie)).

Definition querySelector (r : ref) (sel : selector) : M document ref :=
  let* ie := deref r in
  let* d := get in
  ret (querySelectorIn d (fst ie) sel).

(** *** Observations *)

(** The open/active presentational state: the [active] class. *)
Definition isOpen (d : document) (i : nat) : bool :=
  matchesAt d [SelClass "active"] i.

Definition attributeAt (d : document) (i : nat) (a : string) : option string :=
  e ← d !! i; attributes e !! a.

Definition styleAt (d : document) (i : nat) (p : string) : option string :=
  e ← d !! i; style e !! p.

(** An element written as in markup: parent, classes, attributes. *)
Definition el (parent : option nat) (classes : list string)
    (attrs : list (string * string)) : element :=
  {| parentElement := parent; classList := classes;
     attributes := list_to_map attrs; style := ∅ |}.

End Dom.

Import Dom.

(** ** [js/main.js]: accordion and itinerary tabs *)

Module Main.

Definition accordionHeaderSel : selector := [SelClass "accordion-header"].
Definition accordionItemSel : selector := [SelClass "accordion-item"].
Definition tabButtonSel : selector := [SelClass "tab-button"].
Definition tabPanelSel : selector := [SelClass "tab-panel"].

(** The callback of the loop under "Close all accordion items". *)
Definition closeAccordionItem (item : nat) : M document unit :=
  classList_remove (Some item) "active" >>
  let* itemHeader := querySelector (Some item) accordionHeaderSel in
  setAttribute itemHeader "aria-expanded" "false".

Definition closeAllAccordionItems : M document unit :=
  let* d := get in
  forEach (querySelectorAll d accordionItemSel) closeAccordionItem.

(** The click listener [initAccordion] puts on [header]. *)
Definition accordionClick (header : nat) : M document unit :=
  let* accordionItem := get_parentElement (Some header) in
  let* isActive := classList_contains accordionItem "active" in
  closeAllAccordionItems >>
  if negb isActive then
    classList_add accordionItem "active" >>
    setAttribute (Some header) "aria-expanded" "true"
  else ret tt.

(** [String(v)] of an attribute value passed where a string is expected. *)
Definition toDOMString (v : option string) : string :=
  match v with
  | Some s => s
  | None => "null"
  end.

(** The click listener [initItineraryTabs] puts on [button]; [tabButtons]
    and [tabPanels] are the node lists the function captured. *)
Definition tabClick (tabButtons tabPanels : list nat) (button : nat)
  : M document unit :=
  let* targetTab := getAttribute (Some button) "data-tab" in
  forEach tabButtons (λ btn, classList_remove (Some btn) "active") >>
  forEach tabPanels (λ panel, classList_remove (Some panel) "active") >>
  classList_add (Some button) "active" >>
  let* d := get in
  let targetPanel := getElementById d (toDOMString targetTab) in
  match targetPanel with
  | Some _ => classList_add targetPanel "active"
  | None => ret tt
  end.

(** *** Event wiring *)

Inductive clickHandler : Type :=
| AccordionClick (header : nat)
| TabClick (tabButtons tabPanels : list nat) (button : nat).

(** A keydown listener of the scripts: Enter or Space clicks [target]. *)
Inductive keydownHandler : Type :=
| ClickOnEnterOrSpace (target : nat).

Inductive listener : Type :=
| OnClick (target : nat) (h : clickHandler)
| OnKeydown (target : nat) (h : keydownHandler).

(** What an initialisation function acts on: the listeners it has added
    and the console. *)
Record page : Type := Page {
  listeners : list listener;
  console : list string;
}.

Definition addEventListener (l : listener) : M page unit :=
  modify (λ p, {| listeners := listeners p ++ [l]; console := console p |}).

Definition console_warn (msg : string) : M page unit :=
  modify (λ p, {| listeners := listeners p; console := console p ++ [msg] |}).

Definition initItineraryTabs (d : document) : M page unit :=
  let tabButtons := querySelectorAll d tabButtonSel in
  let tabPanels := querySelectorAll d tabPanelSel in
  if (length tabButtons =? 0) || (length tabPanels =? 0) then
    console_warn "Tab elements not found"
  else
    forEach tabButtons (λ button,
      addEventListener (OnClick button (TabClick tabButtons tabPanels button)) >>
      addEventListener (OnKeydown button (ClickOnEnterOrSpace button))).

Definition initAccordion (d : document) : M page unit :=
  let accordionHeaders := querySelectorAll d accordionHeaderSel in
  forEach accordionHeaders (λ header,
    addEventListener (OnClick header (AccordionClick header)) >>
    addEventListener (OnKeydown header (ClickOnEnterOrSpace header))).

(** *** Event dispatch *)

Definition runClickHandler (h : clickHandler) : M document unit :=
  match h with
  | AccordionClick header => accordionClick header
  | TabClick tabButtons tabPanels button => tabClick tabButtons tabPanels button
  end.

(** The click listeners on [node], in the order they were added. *)
Definition clickListenersOn (ls : list listener) (node : nat) : list clickHandler :=
  omap (λ l, match l with
             | OnClick t h => if bool_decide (t = node) then Some h else None
             | OnKeydown _ _ => None
             end) ls.

Definition keydownListenersOn (ls : list listener) (node : nat) : list keydownHandler :=
  omap (λ l, match l with
             | OnKeydown t h => if bool_decide (t = node) then Some h else None
             | OnClick _ _ => None
             end) ls.

(** A click on [target]: the event bubbles from [target] to the root; an
    exception of a listener is reported and the next listener runs. *)
Definition click (ls : list listener) (target : nat) (d : document) : document :=
  foldl (λ d' h, exec (runClickHandler h) d') d
    (inclusiveAncestors (length d) d target ≫= clickListenersOn ls).

Definition runKeydownHandler (ls : list listener) (key : string)
    (h : keydownHandler) (d : document) : document :=
  match h with
  | ClickOnEnterOrSpace target =>
      if bool_decide (key = "Enter") || bool_decide (key = " ")
      then click ls target d
      else d
  end.

Definition keydown (ls : list listener) (target : nat) (key : string)
    (d : document) : document :=
  foldl (λ d' h, runKeydownHandler ls key h d') d
    (inclusiveAncestors (length d) d target ≫= keydownListenersOn ls).

(** *** The disclosure controller seen as a state machine *)

(** One [activate] of the accordion: the listener of [header] runs. *)
Definition activate (header : nat) (d : document) : document :=
  exec (accordionClick header) d.

Definition activations (headers : list nat) (d : document) : document :=
  foldl (λ d' header, activate header d') d headers.

(** The accordion items of the document, and those inside [container]. *)
Definition accordionItems (d : document) : list nat :=
  querySelectorAll d accordionItemSel.

Definition groupItems (d : document) (container : nat) : list nat :=
  filter (λ i, isDescendantOf d container i = true) (accordionItems d).

Definition openItems (d : document) : list nat :=
  filter (λ i, isOpen d i = true) (accordionItems d).

Definition openItemsIn (d : document) (container : nat) : list nat :=
  filter (λ i, isOpen d i = true) (groupItems d container).

(** What the listeners of this file leave alone in an element: its place
    in the tree, every class but [active], every attribute but
    [aria-expanded], and its inline style. *)
Definition sameMarkup (e e' : element) : Prop :=
  parentElement e = parentElement e' ∧
  (∀ c, c ≠ "active" → hasClass e c = hasClass e' c) ∧
  (∀ a, a ≠ "aria-expanded" → attributes e !! a = attributes e' !! a) ∧
  style e = style e'.

(** Accordion markup on which the closing loop cannot throw: every
    accordion item contains an accordion header. *)
Definition wellFormedAccordion (d : document) : Prop :=
  Forall (λ item, is_Some (querySelectorIn d item accordionHeaderSel))
    (accordionItems d).

(** The parent element of [i], when both are elements of the document. *)
Definition parentOf (d : document) (i : nat) : option nat :=
  e ← d !! i; p ← parentElement e; _ ← d !! p; Some p.

(** The store after [active] was removed from each element of [l]. *)
Definition removeActiveAll (l : list nat) (d : document) : document :=
  foldl (λ d' i, alter (withClassList (removeToken "active")) i d') d l.

(** Toggle-or-replace in a group [items] whose target item is [target]:
    an open target ends with no item open, a closed target ends with
    exactly the target open. *)
Definition toggleOrReplace (items : list nat) (target : nat)
    (d d' : document) : Prop :=
  (isOpen d target = true → ∀ j, j ∈ items → isOpen d' j = false)
  ∧ (isOpen d target = false →
     ∀ j, j ∈ items → isOpen d' j = bool_decide (j = target)).

Definition emptyPage : page := {| listeners := []; console := [] |}.

(** The page after [initAccordion] and [initItineraryTabs] have run on
    [d], in the order in which the file calls them. *)
Definition wire (d : document) : page :=
  exec (initItineraryTabs d) (exec (initAccordion d) emptyPage).

(** A click on [button] on the page as the two functions have wired it:
    the listeners they added run, none when they added none.  The click
    listener that the audio set-up puts on the document does not touch the
    elements. *)
Definition selectTab (button : nat) (d : document) : document :=
  click (listeners (wire d)) button d.

(** [button] is the only element with a click listener on the path of a
    click on it: neither it nor an ancestor is an accordion header, and no
    ancestor is a tab button. *)
Definition soleListener (d : document) (button : nat) : Prop :=
  Forall (λ a, a ∉ querySelectorAll d accordionHeaderSel)
    (inclusiveAncestors (length d) d button)
  ∧ Forall (λ a, a ∉ querySelectorAll d tabButtonSel)
      (tail (inclusiveAncestors (length d) d button)).

(** The last header of a sequence of clicks has a parent element. *)
Definition lastHasParent (d : document) (headers : list nat) : Prop :=
match last headers with
| Some header => is_Some (parentOf d header)
| None => False
end.

(** An initialisation function rejects document [d]: it throws and leaves
    the page as it was. *)
Definition rejects (init : document → M page unit) (d : document) : Prop :=
∃ e, ∀ pg, init d pg = (pg, Throw e).

(** A listener that is a no-op on [d]: no element changes its open state. *)
Definition noVisibleEffect (d d' : document) : Prop :=
∀ j, isOpen d' j = isOpen d j.

Definition stableSimple (s : simple_selector) : Prop :=
  match s with
  | SelClass c => c ≠ "active"
  | SelAttr a => a ≠ "aria-expanded"
  end.

End Main.


(** ** [js/main.js]: the background audio

  The repository holds two versions of the file.  They share the audio
  functions and differ in the [visibilitychange] listener that
  [setupAutoplayAudio] adds: the version with the welcome popup consults
  the popup overlay before it resumes. *)

Module Audio.

(** The fields of the [Audio] element the scripts touch. *)
Record audioElement : Type := AudioElement {
  src : string;
  loop : bool;
  volumePercent : Z;       (* [volume] 0.3 is 30 *)
  preload : string;
  paused : bool;
}.

Inductive mediaCall : Type := Play | Pause.

(** The module-level variables, the console and the calls made on the
    audio element. *)
Record state : Type := State {
  backgroundAudio : option audioElement;
  audioInitialized : bool;
  console : list string;
  calls : list mediaCall;
}.

(** What the platform decides: whether [new Audio] succeeds and whether
    the autoplay policy lets [play()] start playback. *)
Record platform : Type := Platform {
  audioConstructible : bool;
  playAllowed : bool;
}.

Definition log (msg : string) (s : state) : state :=
  {| backgroundAudio := backgroundAudio s; audioInitialized := audioInitialized s;
     console := console s ++ [msg]; calls := calls s |}.

Definition initBackgroundAudio (pf : platform) (s : state) : state :=
  if audioInitialized s then s
  else if audioConstructible pf then
    log "Background audio initialized"
      {| backgroundAudio :=
           Some {| src := "assets/audio/home-page-audio.mp3"; loop := true;
                   volumePercent := 30; preload := "auto"; paused := true |};
         audioInitialized := true;
         console := console s; calls := calls s |}
  else log "Failed to initialize background audio:" s.

(** [backgroundAudio.play()]: playback starts when the platform allows
    it; the promise callbacks write the console. *)
Definition play (pf : platform) (a : audioElement) (s : state) : state :=
  if playAllowed pf then
    log "Background audio started playing"
      {| backgroundAudio :=
           Some {| src := src a; loop := loop a; volumePercent := volumePercent a;
                   preload := preload a; paused := false |};
         audioInitialized := audioInitialized s;
         console := console s; calls := calls s ++ [Play] |}
  else
    log "Could not play background audio:"
      {| backgroundAudio := backgroundAudio s;
         audioInitialized := audioInitialized s;
         console := console s; calls := calls s ++ [Play] |}.

Definition playBackgroundAudio (pf : platform) (s : state) : state :=
  let s1 :=
    if negb (bool_decide (is_Some (backgroundAudio s))) || negb (audioInitialized s)
    then initBackgroundAudio pf s else s in
  match backgroundAudio s1 with
  | Some a => play pf a s1
  | None => s1
  end.

Definition pauseBackgroundAudio (s : state) : state :=
  match backgroundAudio s with
  | Some a =>
      if negb (paused a) then
        log "Background audio paused"
          {| backgroundAudio :=
               Some {| src := src a; loop := loop a;
                       volumePercent := volumePercent a;
                       preload := preload a; paused := true |};
             audioInitialized := audioInitialized s;
             console := console s; calls := calls s ++ [Pause] |}
      else s
  | None => s
  end.

(** The [visibilitychange] listener of [js/main.js]; [hidden] is
    [document.hidden] when the event is handled. *)
Definition onVisibilityChange (pf : platform) (hidden : bool) (s : state) : state :=
  if hidden then pauseBackgroundAudio s
  else if audioInitialized s && bool_decide (is_Some (backgroundAudio s))
  then playBackgroundAudio pf s
  else s.

(** Whether the welcome popup lets playback resume:
    [!popup || popup.style.display === 'none']. *)
Definition popupClosed (d : document) : bool :=
  match getElementById d "popup-overlay" with
  | None => true
  | Some popup => bool_decide (styleAt d popup "display" = Some "none")
  end.

(** The [visibilitychange] listener of the version with the welcome
    popup. *)
Definition onVisibilityChangePopup (pf : platform) (d : document)
    (hidden : bool) (s : state) : state :=
  if hidden then pauseBackgroundAudio s
  else if audioInitialized s && bool_decide (is_Some (backgroundAudio s))
  then (if popupClosed d then playBackgroundAudio pf s else s)
  else s.

(** The state when the script is loaded. *)
Definition initial : state :=
  {| backgroundAudio := None; audioInitialized := false;
     console := []; calls := [] |}.

(** Playback was resumed by a step from [s] to [s']: the step called
    [play()]. *)
Definition resumed (s s' : state) : Prop :=
  calls s' = calls s ++ [Play].

Definition audioPaused (s : state) : Prop :=
  ∀ a, backgroundAudio s = Some a → paused a = true.

End Audio.

(** ** [js/animations.js]: the [ScrollAnimations] class *)

Module Animations.

(** The argument of the constructor: a key that is absent is [None].
    Delays and durations are whole milliseconds. *)
Record options : Type := Options {
  opt_threshold : option Qc;
  opt_rootMargin : option string;
  opt_animationDelay : option Z;
  opt_animationDuration : option Z;
}.

Record config : Type := Config {
  threshold : Qc;
  rootMargin : string;
  animationDelay : Z;
  animationDuration : Z;
}.

Record intersectionObserver : Type := IntersectionObserver {
  observerThreshold : Qc;
  observerRootMargin : string;
  observed : list nat;
}.

(** The fields of an instance. *)
Record scrollAnimations : Type := ScrollAnimations {
  this_config : config;
  observer : option intersectionObserver;
  animatedElements : gset nat;
  prefersReducedMotion : bool;
}.

(** The instance, the document it acts on, and the listeners it has put
    on the document. *)
Record world : Type := World {
  this : scrollAnimations;
  dom : document;
  documentListeners : list string;
}.

Record intersectionObserverEntry : Type := Entry {
  target : nat;
  isIntersecting : bool;
}.

Definition liftDom {A} (m : M document A) : M world A :=
  λ w, let (d', c) := m (dom w) in
       ({| this := this w; dom := d'; documentListeners := documentListeners w |}, c).

Definition setThis (f : scrollAnimations → scrollAnimations) : M world unit :=
  modify (λ w, {| this := f (this w); dom := dom w;
                  documentListeners := documentListeners w |}).

(** [this.animatedElements.add(element)] *)
Definition withRevealed (element : nat) (t : scrollAnimations) : scrollAnimations :=
  {| this_config := this_config t; observer := observer t;
     animatedElements := animatedElements t ∪ {[element]};
     prefersReducedMotion := prefersReducedMotion t |}.

(** [this.observer = o], also used for the changes of the observer itself. *)
Definition withObserver (o : option intersectionObserver) (t : scrollAnimations)
  : scrollAnimations :=
  {| this_config := this_config t; observer := o;
     animatedElements := animatedElements t;
     prefersReducedMotion := prefersReducedMotion t |}.

(** [v || dflt], then the spread [...config] that writes every key
    present in the argument over it. *)
Definition orDefault {A} (truthy : A → bool) (v : option A) (dflt : A) : A :=
  let fromOr := match v with
                | Some x => if truthy x then x else dflt
                | None => dflt
                end in
  match v with
  | Some x => x
  | None => fromOr
  end.

Definition constructor (o : options) (matchesReducedMotion : bool)
  : scrollAnimations :=
  {| this_config :=
       {| threshold := orDefault (λ q, negb (bool_decide (q = 0%Qc)))
                         (opt_threshold o) (Q2Qc (15 # 100));
          rootMargin := orDefault (λ m, negb (bool_decide (m = "")))
                          (opt_rootMargin o) "0px";
          animationDelay := orDefault (λ z, negb (z =? 0)%Z)
                              (opt_animationDelay o) 100%Z;
          animationDuration := orDefault (λ z, negb (z =? 0)%Z)
                                 (opt_animationDuration o) 1000%Z |};
     observer := None;
     animatedElements := ∅;
     prefersReducedMotion := matchesReducedMotion |}.

Definition animatedSel : selector :=
  [SelClass "animate-fade-in-up"; SelClass "animate-fade-in"; SelAttr "data-animate"].

Definition heroSel : selector := [SelClass "hero-section"].

(** A string is truthy when it is not empty. *)
Definition truthy (v : option string) : option string :=
  match v with
  | Some "" => None
  | other => other
  end.

Definition triggerAnimation (element : nat) : M document unit :=
  let* up := classList_contains (Some element) "animate-fade-in-up" in
  (if up then classList_add (Some element) "visible" else ret tt) >>
  let* animationType := getAttribute (Some element) "data-animate" in
  match truthy animationType with
  | Some t =>
      classList_add (Some element) ("animate-" +:+ t) >>
      classList_add (Some element) "visible"
  | None => ret tt
  end.

Definition handleIntersection (entries : list intersectionObserverEntry)
  : M world unit :=
  forEach entries (λ entry,
    let* w := get in
    if isIntersecting entry
       && negb (bool_decide (target entry ∈ animatedElements (this w)))
    then
      liftDom (triggerAnimation (target entry)) >>
      setThis (withRevealed (target entry))
    else ret tt).

(** [observer.observe(element)] on the observer itself. *)
Definition observing (element : nat) (o : intersectionObserver) : intersectionObserver :=
  {| observerThreshold := observerThreshold o;
     observerRootMargin := observerRootMargin o;
     observed := if bool_decide (element ∈ observed o) then observed o
                 else observed o ++ [element] |}.

(** [observer.disconnect()] on the observer itself. *)
Definition disconnected (o : intersectionObserver) : intersectionObserver :=
  {| observerThreshold := observerThreshold o;
     observerRootMargin := observerRootMargin o;
     observed := [] |}.

(** [this.observer.observe(element)]. *)
Definition observe (element : nat) : M world unit :=
  let* w := get in
  match observer (this w) with
  | None => throw nullError
  | Some o => setThis (withObserver (Some (observing element o)))
  end.

Definition observeElements : M world unit :=
  let* w := get in
  forEach (querySelectorAll (dom w) animatedSel) (λ element,
    let* w' := get in
    match closest (dom w') element heroSel with
    | Some _ => ret tt
    | None => observe element
    end).

(** The callback of the loop of [disableAnimations]. *)
Definition showImmediately (element : nat) : M document unit :=
  style_set (Some element) "opacity" "1" >>
  style_set (Some element) "transform" "none" >>
  classList_add (Some element) "visible".

Definition disableAnimations : M world unit :=
  let* w := get in
  forEach (querySelectorAll (dom w) animatedSel) (λ element,
    liftDom (showImmediately element)).

(** The model follows the one observer the instance holds, created by a
    constructor call the platform accepts; the properties of the observer
    assume such a call and a page on which [init] runs once. *)
Definition init : M world unit :=
  let* w := get in
  if prefersReducedMotion (this w) then disableAnimations
  else
    setThis (λ t, withObserver
                    (Some {| observerThreshold := threshold (this_config t);
                             observerRootMargin := rootMargin (this_config t);
                             observed := [] |}) t) >>
    observeElements >>
    modify (λ w', {| this := this w'; dom := dom w';
                     documentListeners := documentListeners w' ++ ["animationend"] |}).

Definition handleAnimationEnd (element : nat) : M document unit :=
  let* up := classList_contains (Some element) "animate-fade-in-up" in
  (if up then
     style_set (Some element) "opacity" "1" >>
     style_set (Some element) "transform" "translateY(0)" >>
     classList_remove (Some element) "animate-fade-in-up" >>
     classList_add (Some element) "animation-complete"
   else ret tt) >>
  let* fade := classList_contains (Some element) "animate-fade-in" in
  (if fade then
     style_set (Some element) "opacity" "1" >>
     style_set (Some element) "transform" "translateY(0)" >>
     classList_remove (Some element) "animate-fade-in" >>
     classList_add (Some element) "animation-complete"
   else ret tt) >>
  let* animationType := getAttribute (Some element) "data-animate" in
  match truthy animationType with
  | Some t =>
      classList_remove (Some element) ("animate-" +:+ t) >>
      classList_add (Some element) "animation-complete"
  | None => ret tt
  end.

(** [elements.forEach((element, index) => ...)]. *)
Fixpoint forEachIndexed {St A} (l : list A) (index : nat)
    (f : A → nat → M St unit) : M St unit :=
  match l with
  | [] => ret tt
  | x :: l' => f x index >> forEachIndexed l' (S index) f
  end.

(** The text of a whole number in a template literal.  Delays are whole
    milliseconds; for the integers below [2 ^ 53] in magnitude, which the
    number type holds exactly, the text is the decimal numeral and sums and
    products are the exact ones.  The properties of the delays assume that
    range. *)
Definition numberToString (z : Z) : string := pretty z.

(** The text written for the element at [index]. *)
Definition delayText (base step : Z) (index : nat) : string :=
  numberToString (base + Z.of_nat index * step) +:+ "ms".

(** The callback of the loop of [applyStaggeredDelays]. *)
Definition setAnimationDelay (baseDelay : Z) (element index : nat) : M world unit :=
  let* w := get in
  let delay := (baseDelay + Z.of_nat index * animationDelay (this_config (this w)))%Z in
  liftDom (style_set (Some element) "animationDelay"
             (numberToString delay +:+ "ms")).

(** [baseDelay] is [None] when the argument is left out. *)
Definition applyStaggeredDelays (elements : list nat) (baseDelay : option Z)
  : M world unit :=
  let baseDelay := default 0%Z baseDelay in
  forEachIndexed elements 0 (setAnimationDelay baseDelay).

(** [observer.disconnect()], then a [removeEventListener] with a function
    that was never added, which removes nothing. *)
Definition destroy : M world unit :=
  setThis (λ t, withObserver (disconnected <$> observer t) t).

(** The platform delivers intersection entries to the callback of an
    observer, for targets the observer observes. *)
Definition deliver (entries : list intersectionObserverEntry) : M world unit :=
  let* w := get in
  match observer (this w) with
  | None => ret tt
  | Some o =>
      handleIntersection
        (filter (λ entry, target entry ∈ observed o) entries)
  end.

(** The operations of the controller. *)
Inductive operation : Type :=
| Init
| ObserveElements
| HandleIntersection (entries : list intersectionObserverEntry)
| TriggerAnimation (element : nat)
| HandleAnimationEnd (element : nat)
| DisableAnimations
| ApplyStaggeredDelays (elements : list nat) (baseDelay : option Z)
| Destroy
| Deliver (entries : list intersectionObserverEntry).

Definition run (op : operation) : M world unit :=
  match op with
  | Init => init
  | ObserveElements => observeElements
  | HandleIntersection entries => handleIntersection entries
  | TriggerAnimation element => liftDom (triggerAnimation element)
  | HandleAnimationEnd element => liftDom (handleAnimationEnd element)
  | DisableAnimations => disableAnimations
  | ApplyStaggeredDelays elements baseDelay => applyStaggeredDelays elements baseDelay
  | Destroy => destroy
  | Deliver entries => deliver entries
  end.

Definition runAll (ops : list operation) (w : world) : world :=
  foldl (λ w' op, exec (run op) w') w ops.

(** A computation that keeps a property of the instance. *)
Definition preservesThis {A} (P : scrollAnimations → Prop) (m : M world A) : Prop :=
  ∀ w, P (this w) → P (this (fst (m w))).

(** After a reduced-motion [init]: the preference is set and there is no
    observer. *)
Definition reducedMotionState (t : scrollAnimations) : Prop :=
  prefersReducedMotion t = true ∧ observer t = None.

(** The revealed state of an element: membership of the instance's set. *)
Definition revealed (w : world) (element : nat) : bool :=
  bool_decide (element ∈ animatedElements (this w)).

(** The elements [init] puts under observation. *)
Definition trackedElements (d : document) : list nat :=
  filter (λ i, closest d i heroSel = None) (querySelectorAll d animatedSel).

(** An element shown at once: the [visible] class and full opacity. *)
Definition shownImmediately (d : document) (i : nat) : Prop :=
  matchesAt d [SelClass "visible"] i = true
  ∧ styleAt d i "opacity" = Some "1"
  ∧ styleAt d i "transform" = Some "none".

(** The targets for which the platform can deliver an entry. *)
Definition observedTargets (w : world) : list nat :=
  match observer (this w) with
  | Some o => observed o
  | None => []
  end.

(** A fresh instance on document [d]. *)
Definition construct (o : options) (matchesReducedMotion : bool) (d : document)
  : world :=
  {| this := constructor o matchesReducedMotion; dom := d; documentListeners := [] |}.

Definition isInit (op : operation) : bool :=
  match op with
  | Init => true
  | _ => false
  end.

(** *** What [new IntersectionObserver] accepts

    The constructor throws a [RangeError] for a threshold outside [0, 1]
    and a [SyntaxError] for a root margin it cannot parse.  [simpleMargin]
    recognises one to four components separated by single spaces, each an
    integer, possibly negative, followed by [px] or [%]; the platform
    accepts every such string. *)

Definition isDigit (c : ascii) : bool :=
  (48 <=? nat_of_ascii c) && (nat_of_ascii c <=? 57).

(** One or more digits followed by [px] or [%]. *)
Fixpoint digitsThenUnit (seen : bool) (s : string) : bool :=
  match s with
  | EmptyString => false
  | String c s' =>
      if isDigit c then digitsThenUnit true s'
      else seen && (bool_decide (s = "px") || bool_decide (s = "%"))
  end.

Definition marginComponent (s : string) : bool :=
  match s with
  | EmptyString => false
  | String c s' =>
      if bool_decide (c = "-"%char) then digitsThenUnit false s'
      else digitsThenUnit false s
  end.

(** The components of a string, separated by single spaces. *)
Fixpoint splitOnSpace (s : string) : list string :=
  match s with
  | EmptyString => [EmptyString]
  | String c s' =>
      if bool_decide (c = " "%char) then EmptyString :: splitOnSpace s'
      else match splitOnSpace s' with
           | [] => [String c EmptyString]
           | x :: l => String c x :: l
           end
  end.

Definition simpleMargin (s : string) : bool :=
  let components := splitOnSpace s in
  (length components <=? 4) && forallb marginComponent components.

Definition observerAccepts (c : config) : Prop :=
  (0 <= threshold c)%Qc ∧ (threshold c <= 1)%Qc ∧ simpleMargin (rootMargin c) = true.

End Animations.

(** ** [js/forms.js]: the [ContactForm] class *)

Module Forms.

(** A JavaScript string: its UTF-16 code units. *)
Abbreviation jsstring := (list N).

Definition codeUnits (s : string) : jsstring :=
  N_of_ascii <$> list_ascii_of_string s.

(** White space and line terminators: what [trim] strips and what [\s]
    matches. *)
Definition isWhiteSpace (c : N) : bool :=
  bool_decide (c ∈ [9; 10; 11; 12; 13; 32; 160; 5760; 8232; 8233; 8239;
                    8287; 12288; 65279]%N)
  || ((8192 <=? c)%N && (c <=? 8202)%N).

Fixpoint trimStart (s : jsstring) : jsstring :=
  match s with
  | c :: s' => if isWhiteSpace c then trimStart s' else s
  | [] => []
  end.

Definition trim (s : jsstring) : jsstring :=
  rev (trimStart (rev (trimStart s))).

(** *** Regular expressions, matched against the whole string *)

Inductive regex : Type :=
| Never
| Empty
| Class (p : N → bool)
| Seq (r1 r2 : regex)
| Alt (r1 r2 : regex)
| Star (r : regex).

Fixpoint nullable (r : regex) : bool :=
  match r with
  | Never => false
  | Empty => true
  | Class _ => false
  | Seq r1 r2 => nullable r1 && nullable r2
  | Alt r1 r2 => nullable r1 || nullable r2
  | Star _ => true
  end.

Fixpoint derive (c : N) (r : regex) : regex :=
  match r with
  | Never => Never
  | Empty => Never
  | Class p => if p c then Empty else Never
  | Seq r1 r2 =>
      if nullable r1 then Alt (Seq (derive c r1) r2) (derive c r2)
      else Seq (derive c r1) r2
  | Alt r1 r2 => Alt (derive c r1) (derive c r2)
  | Star r' => Seq (derive c r') (Star r')
  end.

Definition test (r : regex) (s : jsstring) : bool :=
  nullable (foldl (λ r' c, derive c r') r s).

Definition Plus (r : regex) : regex := Seq r (Star r).

Definition Char (a : ascii) : regex := Class (λ c, (c =? N_of_ascii a)%N).

(** [[^\s@]] *)
Definition notSpaceNorAt : regex :=
  Class (λ c, negb (isWhiteSpace c || (c =? N_of_ascii "@")%N)).

(** [/^[^\s@]+@[^\s@]+\.[^\s@]+$/] *)
Definition emailRegex : regex :=
  Seq (Plus notSpaceNorAt)
    (Seq (Char "@")
       (Seq (Plus notSpaceNorAt)
          (Seq (Char ".") (Plus notSpaceNorAt)))).

Definition validateEmail (email : jsstring) : bool := test emailRegex email.

(** *** The form *)

Inductive fieldName : Type := name | email | message.

#[export] Instance fieldName_eq_dec : EqDecision fieldName.
Proof. solve_decision. Defined.

(** [Object.keys(this.fields)] *)
Definition fieldNames : list fieldName := [name; email; message].

Record field : Type := Field {
  value : jsstring;
  defaultValue : jsstring;
  fieldClassList : list string;
  ariaInvalid : option string;
}.

Record button : Type := Button {
  buttonClassList : list string;
  disabled : bool;
}.

Record status : Type := Status {
  textContent : string;
  className : string;
  role : option string;
}.

Record formData : Type := FormData {
  data_name : jsstring;
  data_email : jsstring;
  data_message : jsstring;
}.

(** The instance with the elements it holds.  An error element, the
    submit button or the status element that the form does not contain is
    [None]; [submissions] are the calls of [submitForm]. *)
Record contactForm : Type := ContactForm {
  fields : fieldName → field;
  errorText : fieldName → option string;
  submitButton : option button;
  statusElement : option status;
  submissions : list formData;
  defaultPrevented : bool;
}.

Definition setField (k : fieldName) (g : field → field) : M contactForm unit :=
  modify (λ f, {| fields := λ k', if decide (k' = k) then g (fields f k') else fields f k';
                  errorText := errorText f; submitButton := submitButton f;
                  statusElement := statusElement f; submissions := submissions f;
                  defaultPrevented := defaultPrevented f |}).

(** [errorElement.textContent = text] *)
Definition setErrorText (k : fieldName) (text : string) : M contactForm unit :=
  let* f := get in
  match errorText f k with
  | None => throw nullError
  | Some _ =>
      modify (λ f, {| fields := fields f;
                      errorText := λ k', if decide (k' = k) then Some text
                                         else errorText f k';
                      submitButton := submitButton f;
                      statusElement := statusElement f; submissions := submissions f;
                      defaultPrevented := defaultPrevented f |})
  end.

Definition setButton (g : button → button) : M contactForm unit :=
  let* f := get in
  match submitButton f with
  | None => throw nullError
  | Some b =>
      modify (λ f, {| fields := fields f; errorText := errorText f;
                      submitButton := Some (g b);
                      statusElement := statusElement f; submissions := submissions f;
                      defaultPrevented := defaultPrevented f |})
  end.

Definition setStatus (g : status → status) : M contactForm unit :=
  let* f := get in
  match statusElement f with
  | None => throw nullError
  | Some st =>
      modify (λ f, {| fields := fields f; errorText := errorText f;
                      submitButton := submitButton f;
                      statusElement := Some (g st); submissions := submissions f;
                      defaultPrevented := defaultPrevented f |})
  end.

Definition showFieldError (k : fieldName) (msg : string) : M contactForm unit :=
  setField k (λ fd, {| value := value fd; defaultValue := defaultValue fd;
                       fieldClassList := addToken "error" (fieldClassList fd);
                       ariaInvalid := Some "true" |}) >>
  setErrorText k msg.

Definition clearFieldError (k : fieldName) : M contactForm unit :=
  setField k (λ fd, {| value := value fd; defaultValue := defaultValue fd;
                       fieldClassList := removeToken "error" (fieldClassList fd);
                       ariaInvalid := None |}) >>
  setErrorText k "".

Definition validateField (k : fieldName) : M contactForm bool :=
  let* f := get in
  let value := trim (value (fields f k)) in
  if bool_decide (value = []) then
    showFieldError k "This field is required" >> ret false
  else if bool_decide (k = email) && negb (validateEmail value) then
    showFieldError k "Please enter a valid email address" >> ret false
  else if bool_decide (k = message) && (length value <? 10) then
    showFieldError k "Message must be at least 10 characters" >> ret false
  else
    clearFieldError k >> ret true.

(** The loop of [validateAllFields] with its local [isValid]. *)
Fixpoint validateEach (ks : list fieldName) (isValid : bool) : M contactForm bool :=
  match ks with
  | [] => ret isValid
  | k :: ks' =>
      let* ok := validateField k in
      validateEach ks' (if negb ok then false else isValid)
  end.

Definition validateAllFields : M contactForm bool :=
  validateEach fieldNames true.

Definition setLoadingState (isLoading : bool) : M contactForm unit :=
  if isLoading then
    setButton (λ b, {| buttonClassList := addToken "loading" (buttonClassList b);
                       disabled := disabled b |}) >>
    setButton (λ b, {| buttonClassList := buttonClassList b; disabled := true |})
  else
    setButton (λ b, {| buttonClassList := removeToken "loading" (buttonClassList b);
                       disabled := disabled b |}) >>
    setButton (λ b, {| buttonClassList := buttonClassList b; disabled := false |}).

Definition showSuccess (msg : string) : M contactForm unit :=
  setStatus (λ _, {| textContent := msg; className := "form-status success";
                     role := Some "status" |}).

Definition showError (msg : string) : M contactForm unit :=
  setStatus (λ _, {| textContent := msg; className := "form-status error";
                     role := Some "alert" |}).

Definition clearStatus : M contactForm unit :=
  setStatus (λ st, {| textContent := ""; className := "form-status";
                      role := role st |}).

(** [this.form.reset()], then the errors of every field are cleared. *)
Definition reset : M contactForm unit :=
  forEach fieldNames (λ k,
    setField k (λ fd, {| value := defaultValue fd; defaultValue := defaultValue fd;
                         fieldClassList := fieldClassList fd;
                         ariaInvalid := ariaInvalid fd |})) >>
  forEach fieldNames clearFieldError.

(** The simulated call: [resolves] is the outcome of the random draw. *)
Definition submitForm (resolves : bool) (data : formData) : M contactForm unit :=
  modify (λ f, {| fields := fields f; errorText := errorText f;
                  submitButton := submitButton f; statusElement := statusElement f;
                  submissions := submissions f ++ [data];
                  defaultPrevented := defaultPrevented f |}) >>
  if resolves then ret tt else throw (Error "Network error").

Definition catch {St A} (m : M St A) (h : exn → M St A) : M St A :=
  λ s, match m s with
       | (s', Throw e) => h e s'
       | r => r
       end.

Definition finally {St A} (m : M St A) (fin : M St unit) : M St A :=
  λ s, match m s with
       | (s', c) =>
           match fin s' with
           | (s'', Normal _) => (s'', c)
           | (s'', Throw e) => (s'', Throw e)
           end
       end.

Definition preventDefault : M contactForm unit :=
  modify (λ f, {| fields := fields f; errorText := errorText f;
                  submitButton := submitButton f; statusElement := statusElement f;
                  submissions := submissions f; defaultPrevented := true |}).

Definition handleSubmit (resolves : bool) : M contactForm unit :=
  preventDefault >>
  let* ok := validateAllFields in
  if negb ok then ret tt
  else
    setLoadingState true >>
    clearStatus >>
    let* f := get in
    let data := {| data_name := trim (value (fields f name));
                   data_email := trim (value (fields f email));
                   data_message := trim (value (fields f message)) |} in
    finally
      (catch
         (submitForm resolves data >>
          showSuccess "Thank you! Your message has been sent successfully." >>
          reset)
         (λ _, showError "Unable to send message. Please try again later."))
      (setLoadingState false).

(** The three checks of [validateField] on the value of field [k]. *)
Definition fieldValid (f : contactForm) (k : fieldName) : bool :=
  let v := trim (value (fields f k)) in
  negb (bool_decide (v = []))
  && negb (bool_decide (k = email) && negb (validateEmail v))
  && negb (bool_decide (k = message) && (length v <? 10)).

(** What validation leaves alone: the submit button, the status element,
    the recorded submissions and the value of every field. *)
Definition sameSubmission (f f' : contactForm) : Prop :=
  submitButton f' = submitButton f
  ∧ statusElement f' = statusElement f
  ∧ submissions f' = submissions f
  ∧ ∀ k, value (fields f' k) = value (fields f k).

(** A form as the constructor finds it in well-formed markup, with the
    given field values. *)
Definition formWith (n e m : string) : contactForm :=
  {| fields := λ k, {| value := codeUnits match k with
                                          | name => n | email => e | message => m
                                          end;
                       defaultValue := []; fieldClassList := []; ariaInvalid := None |};
     errorText := λ _, Some "";
     submitButton := Some {| buttonClassList := ["submit-button"]; disabled := false |};
     statusElement := Some {| textContent := ""; className := "form-status";
                              role := None |};
     submissions := [];
     defaultPrevented := false |}.

End Forms.

(** ** Sample documents *)

Module Samples.

(** One accordion with three items, all closed. *)
Definition threeItems : document :=
  [ el None ["accordion"] [];
    el (Some 0) ["accordion-item"] [];
    el (Some 1) ["accordion-header"] [("aria-expanded", "false")];
    el (Some 1) ["accordion-content"] [];
    el (Some 0) ["accordion-item"] [];
    el (Some 4) ["accordion-header"] [("aria-expanded", "false")];
    el (Some 4) ["accordion-content"] [];
    el (Some 0) ["accordion-item"] [];
    el (Some 7) ["accordion-header"] [("aria-expanded", "false")];
    el (Some 7) ["accordion-content"] [] ].

(** Two accordion containers under one body; an item of each is open. *)
Definition twoAccordions : document :=
  [ el None ["page"] [];
    el (Some 0) ["accordion"] [];
    el (Some 1) ["accordion-item"; "active"] [];
    el (Some 2) ["accordion-header"] [("aria-expanded", "true")];
    el (Some 2) ["accordion-content"] [];
    el (Some 0) ["accordion"] [];
    el (Some 5) ["accordion-item"; "active"] [];
    el (Some 6) ["accordion-header"] [("aria-expanded", "true")];
    el (Some 6) ["accordion-content"] [] ].

(** An accordion whose second item has no header. *)
Definition headerlessItem : document :=
  [ el None ["accordion"] [];
    el (Some 0) ["accordion-item"; "active"] [];
    el (Some 1) ["accordion-header"] [("aria-expanded", "true")];
    el (Some 0) ["accordion-item"] [];
    el (Some 0) ["accordion-item"] [];
    el (Some 4) ["accordion-header"] [("aria-expanded", "false")] ].

(** Three tab buttons and two panels; the third button names no panel. *)
Definition tabsPage : document :=
  [ el None ["itinerary"] [];
    el (Some 0) ["tab-button"; "active"] [("data-tab", "day1")];
    el (Some 0) ["tab-button"] [("data-tab", "day2")];
    el (Some 0) ["tab-button"] [("data-tab", "day9")];
    el (Some 0) ["tab-panel"; "active"] [("id", "day1")];
    el (Some 0) ["tab-panel"] [("id", "day2")] ].

(** A page with a hero section and five cards that fade in, one element
    with a custom animation and one that only has [animate-fade-in]. *)
Definition revealPage : document :=
  [ el None ["page"] [];
    el (Some 0) ["hero-section"] [];
    el (Some 1) ["hero-title"; "animate-fade-in-up"] [];
    el (Some 0) ["service-card"; "animate-fade-in-up"] [];
    el (Some 0) ["service-card"; "animate-fade-in-up"] [];
    el (Some 0) ["service-card"; "animate-fade-in-up"] [];
    el (Some 0) ["service-card"; "animate-fade-in-up"] [];
    el (Some 0) ["service-card"; "animate-fade-in-up"] [];
    el (Some 0) ["map"] [("data-animate", "zoom")];
    el (Some 0) ["footer"; "animate-fade-in"] [] ].

(** The options [initAnimations] passes to the constructor. *)
Definition siteOptions : Animations.options :=
  {| Animations.opt_threshold := Some (Q2Qc (15 # 100));
     Animations.opt_rootMargin := None;
     Animations.opt_animationDelay := Some 100%Z;
     Animations.opt_animationDuration := None |}.

(** A page whose welcome popup is still displayed. *)
Definition popupShown : document :=
  [ el None ["page"] [];
    {| parentElement := Some 0; classList := ["popup-overlay"];
       attributes := {["id" := "popup-overlay"]};
       style := {["display" := "flex"]} |};
    el (Some 1) ["popup-enter"] [("id", "popup-enter")] ].

(** The same page after the popup was closed. *)
Definition popupDismissed : document :=
  [ el None ["page"] [];
    {| parentElement := Some 0; classList := ["popup-overlay"];
       attributes := {["id" := "popup-overlay"]};
       style := {["display" := "none"]} |};
    el (Some 1) ["popup-enter"] [("id", "popup-enter")] ].

(** A platform on which audio can be created and played, and the audio
    state after [setupAutoplayAudio] initialised the audio there. *)
Definition permissive : Audio.platform :=
  {| Audio.audioConstructible := true; Audio.playAllowed := true |}.

Definition audioReady : Audio.state :=
  Audio.initBackgroundAudio permissive Audio.initial.

End Samples.

(** ** Properties of documents kept by the scripts *)

Module Frames.

Import Animations.

(** A computation on the document, or on the controller and its document,
    that keeps a property of the document whatever its completion. *)
Definition preservesDoc {A} (P : document → Prop) (m : M document A) : Prop :=
  ∀ d, P d → P (fst (m d)).

Definition preservesDom {A} (P : document → Prop) (m : M world A) : Prop :=
  ∀ w, P (dom w) → P (dom (fst (m w))).

(** Element [j] has the class [visible]. *)
Definition isVisible (d : document) (j : nat) : Prop :=
  matchesAt d [SelClass "visible"] j = true.

(** The tree and the attributes of a document. *)
Definition markupOf (d : document) : list (option nat * gmap string string) :=
  (λ e, (parentElement e, attributes e)) <$> d.

End Frames.

(** ** More of [js/forms.js] *)

Module FormsMore.

Import Forms.

(** The text [validateField] leaves in the error element of field [k]. *)
Definition validationMessage (f : contactForm) (k : fieldName) : string :=
  let v := trim (value (fields f k)) in
  if bool_decide (v = []) then "This field is required"
  else if bool_decide (k = email) && negb (validateEmail v)
  then "Please enter a valid email address"
  else if bool_decide (k = message) && (length v <? 10)
  then "Message must be at least 10 characters"
  else "".

(** What [handleSubmit] does once validation has passed. *)
Definition submitValidated (resolves : bool) : M contactForm unit :=
  setLoadingState true >>
  clearStatus >>
  let* f := get in
  let data := {| data_name := trim (value (fields f name));
                 data_email := trim (value (fields f email));
                 data_message := trim (value (fields f message)) |} in
  finally
    (catch
       (submitForm resolves data >>
        showSuccess "Thank you! Your message has been sent successfully." >>
        reset)
       (λ _, showError "Unable to send message. Please try again later."))
    (setLoadingState false).

(** The [blur] and [input] listeners that [init] puts on field [k]. *)
Definition onBlur (k : fieldName) : M contactForm bool := validateField k.

Definition onInput (k : fieldName) : M contactForm unit :=
  let* f := get in
  if bool_decide ("error" ∈ fieldClassList (fields f k))
  then clearFieldError k else ret tt.

(** Field [k] is flagged as invalid: class, ARIA state and message. *)
Definition flagged (f : contactForm) (k : fieldName) (msg : string) : Prop :=
  "error" ∈ fieldClassList (fields f k)
  ∧ ariaInvalid (fields f k) = Some "true"
  ∧ errorText f k = Some msg.

(** Field [k] carries no error state. *)
Definition unflagged (f : contactForm) (k : fieldName) : Prop :=
  ("error" ∉ fieldClassList (fields f k))
  ∧ ariaInvalid (fields f k) = None
  ∧ errorText f k = Some "".

(** The form has an error element for every field. *)
Definition hasErrorElements (f : contactForm) : Prop :=
  ∀ k, is_Some (errorText f k).

(** The submit button is usable: not disabled and not marked loading. *)
Definition buttonReady (f : contactForm) : Prop :=
  ∃ b, submitButton f = Some b ∧ disabled b = false
       ∧ "loading" ∉ buttonClassList b.

(** *** The language of a regular expression *)

Inductive matchesRegex : regex → jsstring → Prop :=
| MatchEmpty : matchesRegex Empty []
| MatchClass p c : p c = true → matchesRegex (Class p) [c]
| MatchSeq r1 r2 s1 s2 :
    matchesRegex r1 s1 → matchesRegex r2 s2 → matchesRegex (Seq r1 r2) (s1 ++ s2)
| MatchAltL r1 r2 s : matchesRegex r1 s → matchesRegex (Alt r1 r2) s
| MatchAltR r1 r2 s : matchesRegex r2 s → matchesRegex (Alt r1 r2) s
| MatchStarNil r : matchesRegex (Star r) []
| MatchStarCons r s1 s2 :
    matchesRegex r s1 → matchesRegex (Star r) s2 → matchesRegex (Star r) (s1 ++ s2).

(** A part of an address: not empty, no white space and no [@]. *)
Definition addressPart (s : jsstring) : Prop :=
  s ≠ [] ∧ Forall (λ c, isWhiteSpace c = false ∧ c ≠ N_of_ascii "@") s.

(** A string of white space only. *)
Definition blank (s : jsstring) : Prop := Forall (λ c, isWhiteSpace c = true) s.

(** A string that neither starts nor ends with white space. *)
Definition trimmed (s : jsstring) : Prop :=
  (∀ c, head s = Some c → isWhiteSpace c = false)
  ∧ (∀ c, last s = Some c → isWhiteSpace c = false).

End FormsMore.

(** ** [js/main.js]: [setupAutoplayAudio] and its listeners *)

Module Autoplay.

Import Audio.

(** The audio state, whether the 1000 ms timer of [setupAutoplayAudio] is
    pending, and whether the [click] and [touchstart] listeners of
    [enableAudioOnInteraction] are still on the document. *)
Record page : Type := Page {
  audio : state;
  playTimer : bool;
  interactionListener : bool;
}.

Definition setupAutoplayAudio (pf : platform) (s : state) : page :=
  {| audio := initBackgroundAudio pf s; playTimer := true;
     interactionListener := true |}.

(** The listener that both [click] and [touchstart] run. *)
Definition enableAudioOnInteraction (pf : platform) (pg : page) : page :=
  {| audio := match backgroundAudio (audio pg) with
              | Some a => if paused a then playBackgroundAudio pf (audio pg)
                          else audio pg
              | None => audio pg
              end;
     playTimer := playTimer pg;
     interactionListener := false |}.

Inductive event : Type :=
| TimerFires
| VisibilityChange (hidden : bool)
| Interaction.

(** One event, on the platform as it is when the event is handled. *)
Definition step (pg : page) (e : platform * event) : page :=
  match snd e with
  | TimerFires =>
      if playTimer pg then
        {| audio := playBackgroundAudio (fst e) (audio pg); playTimer := false;
           interactionListener := interactionListener pg |}
      else pg
  | VisibilityChange hidden =>
      {| audio := onVisibilityChange (fst e) hidden (audio pg);
         playTimer := playTimer pg;
         interactionListener := interactionListener pg |}
  | Interaction =>
      if interactionListener pg then enableAudioOnInteraction (fst e) pg else pg
  end.

Definition run (events : list (platform * event)) (pg : page) : page :=
  foldl step pg events.

(** The audio element, when there is one, is the one [initBackgroundAudio]
    creates, and the flag tells whether there is one. *)
Definition consistent (s : state) : Prop :=
  (audioInitialized s = true ↔ is_Some (backgroundAudio s))
  ∧ ∀ a, backgroundAudio s = Some a →
         src a = "assets/audio/home-page-audio.mp3" ∧ loop a = true
         ∧ volumePercent a = 30%Z ∧ preload a = "auto".

Definition playing (s : state) : Prop :=
  ∃ a, backgroundAudio s = Some a ∧ paused a = false.

End Autoplay.

(** ** The version with the welcome popup: [initWelcomePopup] *)

Module Popup.

Import Audio.

(** The document, the audio state, the overlay and button for which
    [initWelcomePopup] added listeners, the number of pending 500 ms
    timers, and the warnings of [initWelcomePopup]. *)
Record page : Type := Page {
  dom : document;
  audio : state;
  wired : option (nat * nat);
  closeTimers : nat;
  console : list string;
}.

Definition withDom (d : document) (pg : page) : page :=
  {| dom := d; audio := audio pg; wired := wired pg;
     closeTimers := closeTimers pg; console := console pg |}.

Definition initWelcomePopup (pg : page) : page :=
  match getElementById (dom pg) "popup-overlay",
        getElementById (dom pg) "popup-enter" with
  | Some popupOverlay, Some enterButton =>
      {| dom := exec (style_set (Some popupOverlay) "display" "flex") (dom pg);
         audio := audio pg;
         wired := Some (popupOverlay, enterButton);
         closeTimers := closeTimers pg; console := console pg |}
  | _, _ =>
      {| dom := dom pg; audio := audio pg; wired := wired pg;
         closeTimers := closeTimers pg;
         console := console pg ++ ["Popup elements not found"] |}
  end.

(** [initApp]: the popup first, then [setupAutoplayAudio], which only
    initialises the audio and adds the visibility listener. *)
Definition initApp (pf : platform) (d : document) : page :=
  let pg := initWelcomePopup
              {| dom := d; audio := initial; wired := None; closeTimers := 0;
                 console := [] |} in
  {| dom := dom pg; audio := initBackgroundAudio pf (audio pg); wired := wired pg;
     closeTimers := closeTimers pg; console := console pg |}.

(** The click listener of the enter button. *)
Definition enterClick (popupOverlay : nat) (pg : page) : page :=
  {| dom := exec (style_set (Some popupOverlay) "transition" "opacity 0.5s ease-out" >>
                  style_set (Some popupOverlay) "opacity" "0") (dom pg);
     audio := audio pg; wired := wired pg;
     closeTimers := S (closeTimers pg); console := console pg |}.

(** The callback of the 500 ms timer. *)
Definition closePopup (pf : platform) (popupOverlay : nat) (pg : page) : page :=
  {| dom := exec (style_set (Some popupOverlay) "display" "none") (dom pg);
     audio := playBackgroundAudio pf (audio pg); wired := wired pg;
     closeTimers := pred (closeTimers pg); console := console pg |}.

Inductive event : Type :=
| EnterClick
| Keydown (key : string)
| CloseTimerFires
| VisibilityChange (hidden : bool)
| MouseEnter
| MouseLeave.

Definition step (pg : page) (e : platform * event) : page :=
  match snd e with
  | VisibilityChange hidden =>
      {| dom := dom pg;
         audio := onVisibilityChangePopup (fst e) (dom pg) hidden (audio pg);
         wired := wired pg; closeTimers := closeTimers pg; console := console pg |}
  | other =>
      match wired pg with
      | None => pg
      | Some (popupOverlay, enterButton) =>
          match other with
          | EnterClick => enterClick popupOverlay pg
          | Keydown key =>
              if bool_decide (key = "Escape")
                 && bool_decide (styleAt (dom pg) popupOverlay "display" = Some "flex")
              then enterClick popupOverlay pg
              else pg
          | CloseTimerFires =>
              if bool_decide (0 < closeTimers pg) then closePopup (fst e) popupOverlay pg
              else pg
          | MouseEnter =>
              withDom (exec (style_set (Some enterButton) "transform" "translateY(-2px)" >>
                             style_set (Some enterButton) "boxShadow"
                               "0 4px 12px rgba(60, 68, 53, 0.3)") (dom pg)) pg
          | MouseLeave =>
              withDom (exec (style_set (Some enterButton) "transform" "translateY(0)" >>
                             style_set (Some enterButton) "boxShadow" "none") (dom pg)) pg
          | VisibilityChange _ => pg
          end
      end
  end.

Definition run (events : list (platform * event)) (pg : page) : page :=
  foldl step pg events.

(** No call of [play()] has been made. *)
Definition silent (pg : page) : Prop := Play ∉ calls (audio pg).

(** The listeners are in place and the overlay is displayed. *)
Definition showing (pg : page) : Prop :=
  ∃ popupOverlay enterButton,
    wired pg = Some (popupOverlay, enterButton)
    ∧ getElementById (dom pg) "popup-overlay" = Some popupOverlay
    ∧ styleAt (dom pg) popupOverlay "display" = Some "flex".

End Popup.

(** ** [js/main.js]: the scroll indicator *)

Module ScrollIndicator.

(** The document, the indicator element, the local [hasScrolled], whether
    [handleScroll] is a scroll listener of the window, whether the one-shot
    [touchstart] listener is still there, and the pending 100 ms timers. *)
Record page : Type := Page {
  dom : document;
  indicator : option nat;
  hasScrolled : bool;
  scrollListener : bool;
  touchListener : bool;
  timers : nat;
}.

Definition handleScroll (pageYOffset : Qc) (pg : page) : page :=
  match indicator pg with
  | Some scrollIndicator =>
      if negb (hasScrolled pg) && bool_decide (Q2Qc (50 # 1) < pageYOffset)%Qc then
        {| dom := exec (classList_add (Some scrollIndicator) "hidden") (dom pg);
           indicator := indicator pg; hasScrolled := true;
           scrollListener := false;
           touchListener := touchListener pg; timers := timers pg |}
      else pg
  | None => pg
  end.

Definition checkMobile (innerWidth : Z) (pg : page) : page :=
  match indicator pg with
  | Some scrollIndicator =>
      let isMobile := (innerWidth <=? 767)%Z in
      if isMobile && negb (hasScrolled pg) then
        {| dom := exec (style_set (Some scrollIndicator) "display" "block") (dom pg);
           indicator := indicator pg; hasScrolled := hasScrolled pg;
           scrollListener := true;
           touchListener := touchListener pg; timers := timers pg |}
      else
        {| dom := exec (style_set (Some scrollIndicator) "display" "none") (dom pg);
           indicator := indicator pg; hasScrolled := hasScrolled pg;
           scrollListener := false;
           touchListener := touchListener pg; timers := timers pg |}
  | None => pg
  end.

Definition initScrollIndicator (innerWidth : Z) (d : document) : page :=
  match getElementById d "scroll-indicator" with
  | None =>
      {| dom := d; indicator := None; hasScrolled := false; scrollListener := false;
         touchListener := false; timers := 0 |}
  | Some scrollIndicator =>
      checkMobile innerWidth
        {| dom := d; indicator := Some scrollIndicator; hasScrolled := false;
           scrollListener := false; touchListener := true; timers := 0 |}
  end.

Inductive event : Type :=
| Scroll (pageYOffset : Qc)
| Resize (innerWidth : Z)
| TouchStart
| TimerFires (pageYOffset : Qc).

Definition step (pg : page) (e : event) : page :=
  match indicator pg with
  | None => pg
  | Some _ =>
      match e with
      | Scroll y => if scrollListener pg then handleScroll y pg else pg
      | Resize w => checkMobile w pg
      | TouchStart =>
          if touchListener pg then
            {| dom := dom pg; indicator := indicator pg; hasScrolled := hasScrolled pg;
               scrollListener := scrollListener pg; touchListener := false;
               timers := if negb (hasScrolled pg) then S (timers pg) else timers pg |}
          else pg
      | TimerFires y =>
          if bool_decide (0 < timers pg) then
            handleScroll y
              {| dom := dom pg; indicator := indicator pg;
                 hasScrolled := hasScrolled pg; scrollListener := scrollListener pg;
                 touchListener := touchListener pg; timers := pred (timers pg) |}
          else pg
      end
  end.

Definition run (events : list event) (pg : page) : page := foldl step pg events.

(** The indicator is offered to the user: displayed as a block and not
    hidden by the class [hidden]. *)
Definition offered (pg : page) : Prop :=
  ∃ i, indicator pg = Some i
       ∧ styleAt (dom pg) i "display" = Some "block"
       ∧ matchesAt (dom pg) [SelClass "hidden"] i = false.

Definition hiddenForGood (pg : page) : Prop :=
  ∃ i, indicator pg = Some i ∧ matchesAt (dom pg) [SelClass "hidden"] i = true.

(** How the listener, the flag and the element go together. *)
Definition coherent (pg : page) : Prop :=
  (scrollListener pg = true →
   hasScrolled pg = false
   ∧ ∃ i, indicator pg = Some i ∧ styleAt (dom pg) i "display" = Some "block")
  ∧ (hasScrolled pg = true → scrollListener pg = false ∧ hiddenForGood pg)
  ∧ (∀ i, indicator pg = Some i → i < length (dom pg)).

End ScrollIndicator.
(** * Properties *)

(** ** Generic facts about the monad and the store *)

Section StoreFacts.

Lemma bind_Normal {St A B} (m : M St A) (k : A → M St B) (s s' : St) (a : A) :
m s = (s', Normal a) → bind m k s = k a s'.
Proof. intros H. unfold bind. by rewrite H. Qed.

Lemma bind_Throw {St A B} (m : M St A) (k : A → M St B) (s s' : St) (e : exn) :
m s = (s', Throw e) → bind m k s = (s', Throw e).
Proof. intros H. unfold bind. by rewrite H. Qed.

Lemma update_Some (d : document) (i : nat) (e : element) (f : element → element) :
  d !! i = Some e → update (Some i) f d = (alter f i d, Normal tt).
Proof. intros H. unfold update, bind, deref, modify. by rewrite H. Qed.

Lemma update_invalid (d : document) (i : nat) (f : element → element) :
  d !! i = None →
  update (Some i) f d = (d, Throw nullError).
Proof. intros H. unfold update, bind, deref. by rewrite H. Qed.

Lemma update_null (d : document) (f : element → element) :
  update None f d = (d, Throw nullError).
Proof. reflexivity. Qed.

Lemma classList_add_token (r : ref) (c : string) :
  c ≠ "" → hasAsciiWhitespace c = false →
  classList_add r c = update r (withClassList (addToken c)).
Proof.
  intros Hne Hws. unfold classList_add, update, checkToken.
  by rewrite bool_decide_eq_false_2, Hws.
Qed.

Lemma classList_remove_token (r : ref) (c : string) :
  c ≠ "" → hasAsciiWhitespace c = false →
  classList_remove r c = update r (withClassList (removeToken c)).
Proof.
  intros Hne Hws. unfold classList_remove, update, checkToken.
  by rewrite bool_decide_eq_false_2, Hws.
Qed.

Lemma classList_add_active (r : ref) :
  classList_add r "active" = update r (withClassList (addToken "active")).
Proof. by apply classList_add_token. Qed.

Lemma classList_remove_active (r : ref) :
  classList_remove r "active" = update r (withClassList (removeToken "active")).
Proof. by apply classList_remove_token. Qed.

Lemma isOpen_lookup (d : document) (i : nat) (e : element) :
  d !! i = Some e → isOpen d i = hasClass e "active".
Proof.
  intros H. unfold isOpen, matchesAt. rewrite H. simpl. apply orb_false_r.
Qed.

Lemma isOpen_valid (d : document) (i : nat) :
  isOpen d i = true → i < length d.
Proof.
  unfold isOpen, matchesAt. destruct (d !! i) eqn:E; [|done].
  intros _. by eapply lookup_lt_Some.
Qed.

Lemma isOpen_alter_ne (d : document) (f : element → element) (i j : nat) :
  i ≠ j → isOpen (alter f i d) j = isOpen d j.
Proof.
  intros Hne. unfold isOpen, matchesAt. by rewrite list_lookup_alter_ne.
Qed.

Lemma isOpen_alter_eq (d : document) (f : element → element) (i : nat) (e : element) :
  d !! i = Some e → isOpen (alter f i d) i = hasClass (f e) "active".
Proof.
  intros H. unfold isOpen, matchesAt.
  rewrite list_lookup_alter_eq, H. simpl. apply orb_false_r.
Qed.

Lemma hasClass_addToken (e : element) (c c' : string) :
  hasClass (withClassList (addToken c) e) c' = bool_decide (c' = c) || hasClass e c'.
Proof.
  unfold hasClass, withClassList, addToken. simpl.
  destruct (decide (c ∈ classList e)) as [Hin|Hin].
  - rewrite (bool_decide_eq_true_2 _ Hin).
    destruct (decide (c' = c)) as [->|Hne].
    + by rewrite !bool_decide_eq_true_2.
    + by rewrite (bool_decide_eq_false_2 (c' = c)).
  - rewrite (bool_decide_eq_false_2 _ Hin).
    destruct (decide (c' = c)) as [->|Hne].
    + rewrite (bool_decide_eq_true_2 (c ∈ _ ++ _)).
      * by rewrite (bool_decide_eq_true_2 (c = c)).
      * apply elem_of_app. right. by apply list_elem_of_singleton.
    + rewrite (bool_decide_eq_false_2 (c' = c)) by done. simpl.
      apply bool_decide_ext. set_solver.
Qed.

Lemma hasClass_removeToken (e : element) (c c' : string) :
  hasClass (withClassList (removeToken c) e) c' = bool_decide (c' ≠ c) && hasClass e c'.
Proof.
  unfold hasClass, withClassList, removeToken. simpl.
  destruct (decide (c' = c)) as [->|Hne].
  - rewrite (bool_decide_eq_false_2 (c ≠ c)) by naive_solver. simpl.
    apply bool_decide_eq_false_2. rewrite list_elem_of_filter. naive_solver.
  - rewrite (bool_decide_eq_true_2 (c' ≠ c)) by done. simpl.
    apply bool_decide_ext. rewrite list_elem_of_filter. naive_solver.
Qed.

Lemma attributeAt_alter_classList (d : document) (f : list string → list string)
    (i j : nat) (a : string) :
  attributeAt (alter (withClassList f) i d) j a = attributeAt d j a.
Proof.
  unfold attributeAt. destruct (decide (i = j)) as [->|Hne].
  - rewrite list_lookup_alter_eq. by destruct (d !! j).
  - by rewrite list_lookup_alter_ne.
Qed.

Lemma attributeAt_alter_attribute (d : document) (i j : nat) (a b v : string) :
  attributeAt (alter (withAttribute a v) i d) j b =
  if bool_decide (i = j ∧ a = b ∧ i < length d) then Some v else attributeAt d j b.
Proof.
  unfold attributeAt. case_bool_decide as H.
  - destruct H as (->&->&Hlt). rewrite list_lookup_alter_eq.
    apply lookup_lt_is_Some_2 in Hlt as [e ->]. simpl. by rewrite lookup_insert_eq.
  - destruct (decide (i = j)) as [->|Hne]; [|by rewrite list_lookup_alter_ne].
    rewrite list_lookup_alter_eq. destruct (d !! j) as [e|] eqn:E; [|done]. simpl.
    apply lookup_lt_Some in E. rewrite lookup_insert_ne; [done|]. naive_solver.
Qed.

Lemma isOpen_alter_attribute (d : document) (i j : nat) (a v : string) :
  isOpen (alter (withAttribute a v) i d) j = isOpen d j.
Proof.
  unfold isOpen, matchesAt. destruct (decide (i = j)) as [->|Hne].
  - rewrite list_lookup_alter_eq. by destruct (d !! j).
  - by rewrite list_lookup_alter_ne.
Qed.

Lemma isOpen_removeActive (d : document) (i j : nat) :
  isOpen (alter (withClassList (removeToken "active")) i d) j =
  bool_decide (i ≠ j) && isOpen d j.
Proof.
  destruct (decide (i = j)) as [->|Hne].
  - rewrite (bool_decide_eq_false_2 (j ≠ j)) by naive_solver. simpl.
    destruct (d !! j) as [e|] eqn:E.
    + rewrite (isOpen_alter_eq _ _ _ _ E), hasClass_removeToken.
      by rewrite (bool_decide_eq_false_2 (_ ≠ _)) by naive_solver.
    + unfold isOpen, matchesAt. by rewrite list_lookup_alter_eq, E.
  - rewrite (bool_decide_eq_true_2 (i ≠ j)) by done. by apply isOpen_alter_ne.
Qed.

Lemma isOpen_addActive (d : document) (i j : nat) :
  isOpen (alter (withClassList (addToken "active")) i d) j =
  bool_decide (i = j ∧ i < length d) || isOpen d j.
Proof.
  destruct (decide (i = j)) as [->|Hne].
  - destruct (d !! j) as [e|] eqn:E.
    + rewrite (isOpen_alter_eq _ _ _ _ E), hasClass_addToken.
      rewrite (isOpen_lookup _ _ _ E). apply lookup_lt_Some in E.
      by rewrite (bool_decide_eq_true_2 (j = j ∧ _)).
    + unfold isOpen, matchesAt. rewrite list_lookup_alter_eq, E. simpl.
      apply lookup_ge_None in E.
      rewrite (bool_decide_eq_false_2 (j = j ∧ _)); [done|lia].
  - rewrite (bool_decide_eq_false_2 (i = j ∧ _)) by naive_solver.
    by apply isOpen_alter_ne.
Qed.

End StoreFacts.

(** ** The markup the listeners of [js/main.js] never change *)

Section MarkupFacts.
Import Main.

#[export] Instance sameMarkup_equiv : Equivalence sameMarkup.
Proof.
  split.
  - intros e. by repeat split.
  - intros e e' (?&H1&H2&?). repeat split; try done; intros.
    + symmetry. by apply H1.
    + symmetry. by apply H2.
  - intros e1 e2 e3 (?&H1&H2&?) (?&H1'&H2'&?).
    repeat split; try congruence; intros.
    + rewrite H1 by done. by apply H1'.
    + rewrite H2 by done. by apply H2'.
Qed.

Lemma sameMarkup_refl (d : document) : Forall2 sameMarkup d d.
Proof. reflexivity. Qed.

Lemma sameMarkup_alter (d0 d : document) (f : element → element) (i : nat) :
  (∀ e, sameMarkup e (f e)) →
  Forall2 sameMarkup d0 d → Forall2 sameMarkup d0 (alter f i d).
Proof.
  intros Hf H. apply Forall2_alter_r; [done|].
  intros x y _ _ Hxy. etrans; [exact Hxy|apply Hf].
Qed.

Lemma sameMarkup_removeActive (e : element) :
  sameMarkup e (withClassList (removeToken "active") e).
Proof.
  repeat split; try done. intros c Hc. unfold hasClass, withClassList, removeToken.
  simpl. apply bool_decide_ext. rewrite list_elem_of_filter. naive_solver.
Qed.

Lemma sameMarkup_addActive (e : element) :
  sameMarkup e (withClassList (addToken "active") e).
Proof.
  repeat split; try done. intros c Hc. rewrite hasClass_addToken.
  by rewrite bool_decide_eq_false_2.
Qed.

Lemma sameMarkup_ariaExpanded (e : element) (v : string) :
  sameMarkup e (withAttribute "aria-expanded" v e).
Proof.
  repeat split; try done. intros a Ha. simpl. by rewrite lookup_insert_ne.
Qed.

Context (d d' : document) (Hsame : Forall2 sameMarkup d d').

Lemma sameMarkup_length : length d = length d'.
Proof using Hsame. by eapply Forall2_length. Qed.

Lemma sameMarkup_lookup (i : nat) (e : element) :
  d !! i = Some e → ∃ e', d' !! i = Some e' ∧ sameMarkup e e'.
Proof using Hsame. intros H. by eapply Forall2_lookup_l. Qed.

Lemma sameMarkup_lookup_None (i : nat) : d !! i = None → d' !! i = None.
Proof using Hsame.
  rewrite !lookup_ge_None. by rewrite sameMarkup_length.
Qed.

Lemma sameMarkup_matchesAt (sel : selector) (i : nat) :
  Forall stableSimple sel → matchesAt d sel i = matchesAt d' sel i.
Proof using Hsame.
  intros Hsel. unfold matchesAt. destruct (d !! i) as [e|] eqn:E.
  - destruct (sameMarkup_lookup i e E) as (e'&->&_&Hc&Ha&_).
    unfold matches. induction Hsel as [|s sel Hs _ IH]; [done|].
    simpl. f_equal; [|exact IH].
    destruct s as [c|a]; simpl in *; [by apply Hc|].
    by rewrite Ha.
  - by rewrite (sameMarkup_lookup_None i E).
Qed.

Lemma sameMarkup_querySelectorAll (sel : selector) :
  Forall stableSimple sel → querySelectorAll d sel = querySelectorAll d' sel.
Proof using Hsame.
  intros Hsel. unfold querySelectorAll. rewrite <- sameMarkup_length.
  apply list_filter_iff. intros i. by rewrite sameMarkup_matchesAt.
Qed.

Lemma sameMarkup_inclusiveAncestors (fuel i : nat) :
  inclusiveAncestors fuel d i = inclusiveAncestors fuel d' i.
Proof using Hsame.
  revert i. induction fuel as [|fuel IH]; intros i; [done|]. simpl.
  destruct (d !! i) as [e|] eqn:E.
  - destruct (sameMarkup_lookup i e E) as (e'&->&<-&_).
    destruct (parentElement e); [by rewrite IH|done].
  - by rewrite (sameMarkup_lookup_None i E).
Qed.

Lemma sameMarkup_ancestors (i : nat) : ancestors d i = ancestors d' i.
Proof using Hsame.
  unfold ancestors. destruct (d !! i) as [e|] eqn:E.
  - destruct (sameMarkup_lookup i e E) as (e'&->&<-&_).
    destruct (parentElement e); [|done].
    by rewrite sameMarkup_inclusiveAncestors, sameMarkup_length.
  - by rewrite (sameMarkup_lookup_None i E).
Qed.

Lemma sameMarkup_isDescendantOf (root i : nat) :
  isDescendantOf d root i = isDescendantOf d' root i.
Proof using Hsame. unfold isDescendantOf. by rewrite sameMarkup_ancestors. Qed.

Lemma sameMarkup_querySelectorIn (root : nat) (sel : selector) :
  Forall stableSimple sel → querySelectorIn d root sel = querySelectorIn d' root sel.
Proof using Hsame.
  intros Hsel. unfold querySelectorIn. rewrite sameMarkup_querySelectorAll by done.
  f_equal. apply list_filter_iff. intros i. by rewrite sameMarkup_isDescendantOf.
Qed.

Lemma sameMarkup_getElementById (name : string) :
  getElementById d name = getElementById d' name.
Proof using Hsame.
  unfold getElementById. rewrite <- sameMarkup_length. f_equal.
  apply list_filter_iff. intros i. unfold hasId.
  destruct (d !! i) as [e|] eqn:E.
  - destruct (sameMarkup_lookup i e E) as (e'&->&_&_&Ha&_).
    by rewrite (Ha "id").
  - by rewrite (sameMarkup_lookup_None i E).
Qed.

End MarkupFacts.

(** ** The accordion *)

Section AccordionFacts.
Import Main.

Lemma stable_accordionHeaderSel : Forall stableSimple accordionHeaderSel.
Proof. repeat constructor; done. Qed.

Lemma stable_accordionItemSel : Forall stableSimple accordionItemSel.
Proof. repeat constructor; done. Qed.

Lemma querySelectorAll_lt (d : document) (sel : selector) (i : nat) :
  i ∈ querySelectorAll d sel → i < length d.
Proof.
  unfold querySelectorAll. rewrite list_elem_of_filter, elem_of_seq. lia.
Qed.

Lemma querySelectorAll_NoDup (d : document) (sel : selector) :
  NoDup (querySelectorAll d sel).
Proof. apply NoDup_filter, NoDup_seq. Qed.

Lemma querySelectorIn_lt (d : document) (root h : nat) (sel : selector) :
  querySelectorIn d root sel = Some h → h < length d.
Proof.
  unfold querySelectorIn. intros H%head_Some_elem_of.
  apply list_elem_of_filter in H as [_ H]. by eapply querySelectorAll_lt.
Qed.

Lemma closeAccordionItem_eq (d : document) (item : nat) :
  closeAccordionItem item d =
  match d !! item with
  | None => (d, Throw nullError)
  | Some _ =>
      let d1 := alter (withClassList (removeToken "active")) item d in
      match querySelectorIn d1 item accordionHeaderSel with
      | None => (d1, Throw nullError)
      | Some h => (alter (withAttribute "aria-expanded" "false") h d1, Normal tt)
      end
  end.
Proof.
  unfold closeAccordionItem. rewrite classList_remove_active. unfold bind at 1.
  destruct (d !! item) as [e|] eqn:E.
  - rewrite (update_Some _ _ _ _ E). cbv zeta.
    unfold querySelector, bind, deref, get, ret.
    rewrite list_lookup_alter_eq, E. simpl.
    destruct (querySelectorIn _ item accordionHeaderSel) as [h|] eqn:Eh; [|done].
    pose proof (querySelectorIn_lt _ _ _ _ Eh) as Hlt.
    apply lookup_lt_is_Some_2 in Hlt as [eh Heh].
    unfold setAttribute. by rewrite (update_Some _ _ _ _ Heh).
  - by rewrite (update_invalid _ _ _ E).
Qed.

(** One turn of the closing loop, started in a state [d] with the markup
    of [d0]. *)
Lemma closeAccordionItem_spec (d0 d : document) (item : nat) :
  Forall2 sameMarkup d0 d →
  let r := closeAccordionItem item d in
  Forall2 sameMarkup d0 (fst r)
  ∧ (∀ j, isOpen (fst r) j = true → isOpen d j = true)
  ∧ (∀ h, attributeAt d h "aria-expanded" = Some "false" →
          attributeAt (fst r) h "aria-expanded" = Some "false")
  ∧ (snd r = Normal tt →
       isOpen (fst r) item = false
       ∧ ∃ h, querySelectorIn d0 item accordionHeaderSel = Some h
              ∧ attributeAt (fst r) h "aria-expanded" = Some "false")
  ∧ (item < length d0 →
     is_Some (querySelectorIn d0 item accordionHeaderSel) →
     snd r = Normal tt).
Proof.
  intros Hsame. rewrite closeAccordionItem_eq.
  destruct (d !! item) as [e|] eqn:E; simpl.
  - set (d1 := alter (withClassList (removeToken "active")) item d).
    assert (Forall2 sameMarkup d0 d1) as Hsame1
      by (apply sameMarkup_alter; [apply sameMarkup_removeActive|done]).
    rewrite <- (sameMarkup_querySelectorIn _ _ Hsame1 _ _ stable_accordionHeaderSel).
    destruct (querySelectorIn d0 item accordionHeaderSel) as [h|] eqn:Eh; simpl.
    + pose proof (querySelectorIn_lt _ _ _ _ Eh) as Hlt.
      rewrite (sameMarkup_length _ _ Hsame1) in Hlt.
      split; [apply sameMarkup_alter; [intros ?; apply sameMarkup_ariaExpanded|done]|].
      split; [|split; [|split]].
      * intros j. rewrite isOpen_alter_attribute. unfold d1.
        rewrite isOpen_removeActive. by intros [_ ?]%andb_true_iff.
      * intros h'. rewrite attributeAt_alter_attribute.
        case_bool_decide; [done|]. unfold d1.
        by rewrite attributeAt_alter_classList.
      * intros _. split.
        -- rewrite isOpen_alter_attribute. unfold d1. rewrite isOpen_removeActive.
           by rewrite (bool_decide_eq_false_2 (item ≠ item)) by naive_solver.
        -- exists h. split; [done|]. rewrite attributeAt_alter_attribute.
           by rewrite bool_decide_eq_true_2.
      * done.
    + split; [done|]. split; [|split; [|split]].
      * intros j. unfold d1. rewrite isOpen_removeActive.
        by intros [_ ?]%andb_true_iff.
      * intros h'. unfold d1. by rewrite attributeAt_alter_classList.
      * done.
      * intros _ [? ?]. done.
  - split; [done|]. split; [done|]. split; [done|]. split; [done|].
    intros Hlt _. apply lookup_ge_None in E.
    rewrite <- (sameMarkup_length _ _ Hsame) in E. lia.
Qed.

(** The closing loop over any list of items. *)
Lemma closeLoop_spec (d0 : document) (items : list nat) (d : document) :
  Forall2 sameMarkup d0 d →
  let r := forEach items closeAccordionItem d in
  Forall2 sameMarkup d0 (fst r)
  ∧ (∀ j, isOpen (fst r) j = true → isOpen d j = true)
  ∧ (∀ h, attributeAt d h "aria-expanded" = Some "false" →
          attributeAt (fst r) h "aria-expanded" = Some "false")
  ∧ (snd r = Normal tt →
       ∀ item, item ∈ items →
         isOpen (fst r) item = false
         ∧ ∃ h, querySelectorIn d0 item accordionHeaderSel = Some h
                ∧ attributeAt (fst r) h "aria-expanded" = Some "false")
  ∧ ((∀ item, item ∈ items →
        item < length d0 ∧ is_Some (querySelectorIn d0 item accordionHeaderSel)) →
     snd r = Normal tt).
Proof.
  revert d. induction items as [|item items IH]; intros d Hsame; simpl.
  - split; [done|]. split; [done|]. split; [done|].
    split; [|done]. intros _ item Hin. by apply elem_of_nil in Hin.
  - destruct (closeAccordionItem_spec d0 d item Hsame)
      as (Hs1 & Hopen1 & Haria1 & Hnormal1 & Htotal1).
    unfold bind. destruct (closeAccordionItem item d) as [d1 [[]|e]]; simpl in *.
    + destruct (IH d1 Hs1) as (Hs2 & Hopen2 & Haria2 & Hnormal2 & Htotal2).
      split; [done|]. split; [by auto|]. split; [by auto|]. split.
      * intros Hn i [->|Hin]%elem_of_cons; [|by apply Hnormal2].
        destruct (Hnormal1 eq_refl) as (Hclosed & h & Hh & Hfalse).
        split; [|by eauto].
        destruct (isOpen (forEach items closeAccordionItem d1).1 item) eqn:Ei; [|done].
        apply Hopen2 in Ei. congruence.
      * intros Hall. apply Htotal2. intros i Hin. apply Hall. by right.
    + split; [done|]. split; [done|]. split; [done|]. split; [done|].
      intros Hall. destruct (Hall item) as [Hlt Hq]; [by left|].
      by specialize (Htotal1 Hlt Hq).
Qed.

Lemma closeAll_spec (d : document) :
  let r := closeAllAccordionItems d in
  Forall2 sameMarkup d (fst r)
  ∧ (∀ j, isOpen (fst r) j = true → isOpen d j = true)
  ∧ (snd r = Normal tt →
       ∀ item, item ∈ accordionItems d →
         isOpen (fst r) item = false
         ∧ ∃ h, querySelectorIn d item accordionHeaderSel = Some h
                ∧ attributeAt (fst r) h "aria-expanded" = Some "false")
  ∧ ((∀ item, item ∈ accordionItems d →
        is_Some (querySelectorIn d item accordionHeaderSel)) →
     snd r = Normal tt).
Proof.
  pose proof (closeLoop_spec d (querySelectorAll d accordionItemSel) d) as Hloop.
  destruct Hloop as (Hsame & Hopen & _ & Hclosed & Htotal);
    [apply sameMarkup_refl|].
  unfold closeAllAccordionItems, bind, get. simpl.
  split; [done|]. split; [done|]. split; [done|].
  intros Hwf. apply Htotal. intros item Hin.
  split; [by eapply querySelectorAll_lt|by apply Hwf].
Qed.

Lemma accordionClick_eq (header : nat) (d : document) :
  accordionClick header d =
  match d !! header with
  | None => (d, Throw nullError)
  | Some eh =>
      match parentElement eh ≫= (λ p, (λ ep, (p, ep)) <$> d !! p) with
      | None => (d, Throw nullError)
      | Some (p, ep) =>
          match closeAllAccordionItems d with
          | (d1, Throw e) => (d1, Throw e)
          | (d1, Normal _) =>
              if hasClass ep "active" then (d1, Normal tt)
              else (alter (withAttribute "aria-expanded" "true") header
                      (alter (withClassList (addToken "active")) p d1), Normal tt)
          end
      end
  end.
Proof.
  unfold accordionClick, get_parentElement, classList_contains, bind, deref, ret.
  destruct (d !! header) as [eh|] eqn:Eh; [|done]. simpl.
  destruct (parentElement eh) as [p|]; [|done]. simpl.
  destruct (d !! p) as [ep|] eqn:Ep; [|done]. simpl.
  destruct (closeAll_spec d) as (Hsame & _).
  destruct (closeAllAccordionItems d) as [d1 [[]|e]]; [|done].
  destruct (hasClass ep "active"); [done|]. simpl in *.
  pose proof (sameMarkup_length _ _ Hsame) as Hlen.
  assert (is_Some (d1 !! p)) as [ep1 Hep1].
  { apply lookup_lt_is_Some_2. rewrite <- Hlen. by eapply lookup_lt_Some. }
  rewrite classList_add_active. unfold setAttribute.
  rewrite (update_Some _ _ _ _ Hep1).
  assert (is_Some (alter (withClassList (addToken "active")) p d1 !! header))
    as [eh1 Heh1].
  { apply lookup_lt_is_Some_2. rewrite length_alter, <- Hlen.
    by eapply lookup_lt_Some. }
  by rewrite (update_Some _ _ _ _ Heh1).
Qed.

(** What one [activate] does to the document, whatever the markup. *)
Lemma activate_frame (header : nat) (d : document) :
  Forall2 sameMarkup d (activate header d)
  ∧ ((∀ j, isOpen (activate header d) j = true → isOpen d j = true)
     ∨ (∃ p, ∀ j, j ∈ accordionItems d →
                  isOpen (activate header d) j = true → j = p)).
Proof.
  unfold activate, exec. rewrite accordionClick_eq.
  destruct (d !! header) as [eh|]; [|by split; [|left]].
  destruct (parentElement eh ≫= _) as [[p ep]|]; [|by split; [|left]].
  destruct (closeAll_spec d) as (Hsame & Hopen & Hclosed & _).
  destruct (closeAllAccordionItems d) as [d1 [[]|e]]; simpl in *.
  - destruct (hasClass ep "active"); simpl; [by split; [|left]|].
    split.
    + apply sameMarkup_alter; [intros ?; apply sameMarkup_ariaExpanded|].
      apply sameMarkup_alter; [apply sameMarkup_addActive|done].
    + right. exists p. intros j Hj.
      rewrite isOpen_alter_attribute, isOpen_addActive.
      destruct (Hclosed eq_refl j Hj) as [-> _]. rewrite orb_false_r.
      intros H%bool_decide_eq_true. naive_solver.
  - by split; [|left].
Qed.

(** The markup on which no listener of the accordion throws: every
    accordion item contains a header. *)
Lemma activate_normal (header p : nat) (eh : element) (d : document) :
  d !! header = Some eh → parentElement eh = Some p → p < length d →
  (∀ item, item ∈ accordionItems d →
           is_Some (querySelectorIn d item accordionHeaderSel)) →
  snd (accordionClick header d) = Normal tt
  ∧ ∀ j, j ∈ accordionItems d →
         isOpen (activate header d) j = bool_decide (j = p) && negb (isOpen d p).
Proof.
  intros Hh Hp Hlt Hwf. unfold activate, exec. rewrite accordionClick_eq, Hh, Hp.
  apply lookup_lt_is_Some_2 in Hlt as Hep. destruct Hep as [ep Hep].
  simpl. rewrite Hep. simpl.
  destruct (closeAll_spec d) as (Hsame & Hopen & Hclosed & Htotal).
  destruct (closeAllAccordionItems d) as [d1 c]; simpl in *.
  rewrite (Htotal Hwf) in *.
  rewrite (isOpen_lookup _ _ _ Hep).
  destruct (hasClass ep "active"); simpl; (split; [done|]); intros j Hj.
  - rewrite andb_false_r. by destruct (Hclosed eq_refl j Hj).
  - rewrite isOpen_alter_attribute, isOpen_addActive, andb_true_r.
    destruct (Hclosed eq_refl j Hj) as [-> _]. rewrite orb_false_r.
    apply bool_decide_ext. rewrite <- (sameMarkup_length _ _ Hsame). naive_solver.
Qed.

End AccordionFacts.

(** ** Exclusivity of the accordion *)

Section Exclusivity.
Import Main.

Lemma filter_length_le {A} (P Q : A → Prop) `{∀ x, Decision (P x)}
    `{∀ x, Decision (Q x)} (l : list A) :
  (∀ x, x ∈ l → P x → Q x) → length (filter P l) ≤ length (filter Q l).
Proof.
  induction l as [|a l IH]; intros HPQ; [done|].
  rewrite !filter_cons.
  assert (length (filter P l) ≤ length (filter Q l)) as IH'
    by (apply IH; intros x Hx; apply HPQ; by right).
  destruct (decide (P a)) as [HP|HP].
  - rewrite decide_True by (apply HPQ; [by left|done]). simpl. lia.
  - destruct (decide (Q a)); simpl; lia.
Qed.

Lemma filter_length_unique {A} (P : A → Prop) `{∀ x, Decision (P x)}
    (l : list A) (p : A) :
  NoDup l → (∀ x, x ∈ l → P x → x = p) → length (filter P l) ≤ 1.
Proof.
  intros Hnd Hp. pose proof (NoDup_filter P l Hnd) as Hnd'.
  assert (∀ x, x ∈ filter P l → x = p) as Hall.
  { intros x [? ?]%list_elem_of_filter. by apply Hp. }
  destruct (filter P l) as [|a [|b l']]; simpl; [lia|lia|].
  rewrite (Hall a), (Hall b) in Hnd' by (repeat constructor).
  apply NoDup_cons in Hnd' as [Hnot _]. exfalso. apply Hnot. by left.
Qed.

(** A click never raises the number of open items in a list of accordion
    items above one. *)
Lemma activate_at_most_one (header : nat) (d : document) (l : list nat) :
  NoDup l → l ⊆ accordionItems d →
  length (filter (λ i, isOpen d i = true) l) ≤ 1 →
  length (filter (λ i, isOpen (activate header d) i = true) l) ≤ 1.
Proof.
  intros Hnd Hsub Hle.
  destruct (activate_frame header d) as [_ [Hshrink|[p Hp]]].
  - etrans; [|exact Hle]. apply filter_length_le. intros x _. apply Hshrink.
  - apply (filter_length_unique _ _ p Hnd). intros x Hx. apply Hp. by apply Hsub.
Qed.

Lemma activations_sameMarkup (headers : list nat) (d : document) :
  Forall2 sameMarkup d (activations headers d).
Proof.
  revert d. induction headers as [|h headers IH]; intros d; simpl; [done|].
  etrans; [|apply IH]. apply activate_frame.
Qed.

Lemma sameMarkup_accordionItems (d d' : document) :
  Forall2 sameMarkup d d' → accordionItems d = accordionItems d'.
Proof.
  intros H. apply sameMarkup_querySelectorAll; [done|apply stable_accordionItemSel].
Qed.

Lemma sameMarkup_groupItems (d d' : document) (container : nat) :
  Forall2 sameMarkup d d' → groupItems d container = groupItems d' container.
Proof.
  intros H. unfold groupItems. rewrite (sameMarkup_accordionItems _ _ H).
  apply list_filter_iff. intros i. by rewrite (sameMarkup_isDescendantOf _ _ H).
Qed.

Lemma sameMarkup_wellFormed (d d' : document) :
  Forall2 sameMarkup d d' → wellFormedAccordion d → wellFormedAccordion d'.
Proof.
  intros H. unfold wellFormedAccordion.
  rewrite <- (sameMarkup_accordionItems _ _ H). intros Hwf.
  eapply Forall_impl; [exact Hwf|]. intros item. simpl.
  by rewrite (sameMarkup_querySelectorIn _ _ H _ _ stable_accordionHeaderSel).
Qed.

Lemma sameMarkup_parentOf (d d' : document) (i : nat) :
  Forall2 sameMarkup d d' → parentOf d i = parentOf d' i.
Proof.
  intros H. unfold parentOf. destruct (d !! i) as [e|] eqn:E; simpl.
  - destruct (sameMarkup_lookup _ _ H i e E) as (e'&->&Hpar&_). simpl.
    rewrite <- Hpar.
    destruct (parentElement e) as [p|]; simpl; [|done].
    destruct (d !! p) as [ep|] eqn:Ep; simpl.
    + by destruct (sameMarkup_lookup _ _ H p ep Ep) as (ep'&->&_).
    + by rewrite (sameMarkup_lookup_None _ _ H p Ep).
  - by rewrite (sameMarkup_lookup_None _ _ H i E).
Qed.

Lemma activations_at_most_one (headers : list nat) (d : document) (l : list nat) :
  NoDup l → l ⊆ accordionItems d →
  length (filter (λ i, isOpen d i = true) l) ≤ 1 →
  length (filter (λ i, isOpen (activations headers d) i = true) l) ≤ 1.
Proof.
  revert d. induction headers as [|h headers IH]; intros d Hnd Hsub Hle; [done|].
  simpl. apply IH; [done| |by apply activate_at_most_one].
  by rewrite <- (sameMarkup_accordionItems d) by apply activate_frame.
Qed.

(** On well-formed markup a click that has a parent element to toggle
    completes and leaves exactly the toggled state. *)
Lemma activate_wellFormed (header p : nat) (d : document) :
  wellFormedAccordion d → parentOf d header = Some p →
  snd (accordionClick header d) = Normal tt
  ∧ ∀ j, j ∈ accordionItems d →
         isOpen (activate header d) j = bool_decide (j = p) && negb (isOpen d p).
Proof.
  intros Hwf Hp. unfold parentOf in Hp.
  destruct (d !! header) as [eh|] eqn:Eh; [|done]. simpl in Hp.
  destruct (parentElement eh) as [p'|] eqn:Ep; [|done]. simpl in Hp.
  destruct (d !! p') as [ep|] eqn:Epp; [|done]. simpl in Hp.
  injection Hp as ->. apply (activate_normal header p eh); try done.
  - by eapply lookup_lt_Some.
  - intros item Hin. unfold wellFormedAccordion in Hwf.
    rewrite Forall_forall in Hwf. by apply Hwf.
Qed.

Lemma activations_last_at_most_one (headers : list nat) (header p : nat)
    (d : document) (l : list nat) :
  wellFormedAccordion d → parentOf d header = Some p →
  NoDup l → l ⊆ accordionItems d →
  length (filter (λ i, isOpen (activations (headers ++ [header]) d) i = true) l) ≤ 1.
Proof.
  intros Hwf Hp Hnd Hsub. unfold activations. rewrite foldl_app. simpl.
  fold (activations headers d).
  pose proof (activations_sameMarkup headers d) as Hsame.
  destruct (activate_wellFormed header p (activations headers d)) as [_ Hopen].
  - by eapply sameMarkup_wellFormed.
  - by rewrite <- (sameMarkup_parentOf _ _ _ Hsame).
  - apply (filter_length_unique _ _ p Hnd). intros x Hx.
    rewrite Hopen by (rewrite <- (sameMarkup_accordionItems _ _ Hsame); by apply Hsub).
    intros [H _]%andb_true_iff. by apply bool_decide_eq_true in H.
Qed.

Lemma groupItems_NoDup (d : document) (container : nat) :
  NoDup (groupItems d container).
Proof. apply NoDup_filter, querySelectorAll_NoDup. Qed.

Lemma groupItems_subseteq (d : document) (container : nat) :
  groupItems d container ⊆ accordionItems d.
Proof. intros x [_ ?]%list_elem_of_filter. done. Qed.

End Exclusivity.

(** ** The itinerary tabs *)

Section TabFacts.
Import Main.

Lemma removeActiveAll_cons (i : nat) (l : list nat) (d : document) :
  removeActiveAll (i :: l) d
  = removeActiveAll l (alter (withClassList (removeToken "active")) i d).
Proof. reflexivity. Qed.

Lemma removeActiveAll_length (l : list nat) (d : document) :
  length (removeActiveAll l d) = length d.
Proof.
  revert d. induction l as [|i l IH]; intros d; [done|].
  by rewrite removeActiveAll_cons, IH, length_alter.
Qed.

Lemma removeActiveAll_sameMarkup (l : list nat) (d : document) :
  Forall2 sameMarkup d (removeActiveAll l d).
Proof.
  revert d. induction l as [|i l IH]; intros d; [done|].
  rewrite removeActiveAll_cons. etrans; [|apply IH].
  apply sameMarkup_alter; [apply sameMarkup_removeActive|done].
Qed.

Lemma removeActiveAll_isOpen (l : list nat) (d : document) (j : nat) :
  isOpen (removeActiveAll l d) j = bool_decide (j ∉ l) && isOpen d j.
Proof.
  revert d. induction l as [|i l IH]; intros d.
  - by rewrite bool_decide_eq_true_2 by apply not_elem_of_nil.
  - rewrite removeActiveAll_cons, IH, isOpen_removeActive.
    rewrite andb_assoc. f_equal.
    rewrite <- bool_decide_and. apply bool_decide_ext.
    rewrite not_elem_of_cons. naive_solver.
Qed.

Lemma forEach_removeActive (l : list nat) (d : document) :
  Forall (λ i, i < length d) l →
  forEach l (λ i, classList_remove (Some i) "active") d
  = (removeActiveAll l d, Normal tt).
Proof.
  revert d. induction l as [|i l IH]; intros d Hl; [done|].
  apply Forall_cons in Hl as [Hi Hl]. rewrite removeActiveAll_cons.
  cbn [forEach]. rewrite classList_remove_active. unfold bind at 1.
  apply lookup_lt_is_Some_2 in Hi as [e He].
  rewrite (update_Some _ _ _ _ He).
  apply IH. by rewrite length_alter.
Qed.

Lemma getElementById_lt (d : document) (name : string) (i : nat) :
  getElementById d name = Some i → i < length d.
Proof.
  unfold getElementById. intros H%head_Some_elem_of.
  apply list_elem_of_filter in H as [_ H]. apply elem_of_seq in H. lia.
Qed.

Lemma tabClick_eq (tabButtons tabPanels : list nat) (button : nat)
    (eb : element) (d : document) :
  Forall (λ i, i < length d) tabButtons →
  Forall (λ i, i < length d) tabPanels →
  d !! button = Some eb →
  tabClick tabButtons tabPanels button d =
  (let d3 := alter (withClassList (addToken "active")) button
               (removeActiveAll tabPanels (removeActiveAll tabButtons d)) in
   match getElementById d (toDOMString (attributes eb !! "data-tab")) with
   | Some t => alter (withClassList (addToken "active")) t d3
   | None => d3
   end, Normal tt).
Proof.
  intros Hb Hp Heb. assert (button < length d) as Hlt by by eapply lookup_lt_Some.
  unfold tabClick, getAttribute, bind, deref, ret, get. rewrite Heb. simpl.
  rewrite (forEach_removeActive _ _ Hb).
  rewrite forEach_removeActive by by rewrite removeActiveAll_length.
  set (d2 := removeActiveAll tabPanels (removeActiveAll tabButtons d)).
  assert (Forall2 sameMarkup d d2) as Hsame2.
  { etrans; apply removeActiveAll_sameMarkup. }
  assert (is_Some (d2 !! button)) as [eb2 Heb2].
  { apply lookup_lt_is_Some_2. by rewrite <- (sameMarkup_length _ _ Hsame2). }
  rewrite classList_add_active, (update_Some _ _ _ _ Heb2).
  set (d3 := alter _ button d2).
  assert (Forall2 sameMarkup d d3) as Hsame3
    by (apply sameMarkup_alter; [apply sameMarkup_addActive|done]).
  rewrite <- (sameMarkup_getElementById _ _ Hsame3).
  destruct (getElementById d _) as [t|] eqn:Et; [|done].
  assert (is_Some (d3 !! t)) as [et Het].
  { apply lookup_lt_is_Some_2. rewrite <- (sameMarkup_length _ _ Hsame3).
    by eapply getElementById_lt. }
  by rewrite classList_add_active, (update_Some _ _ _ _ Het).
Qed.

(** The listener of a tab button never throws, and leaves active exactly
    the button, the element its [data-tab] names, and what was active
    outside the two captured lists. *)
Lemma tabClick_spec (tabButtons tabPanels : list nat) (button : nat)
    (eb : element) (d : document) :
  Forall (λ i, i < length d) tabButtons →
  Forall (λ i, i < length d) tabPanels →
  d !! button = Some eb →
  let target := getElementById d (toDOMString (attributes eb !! "data-tab")) in
  snd (tabClick tabButtons tabPanels button d) = Normal tt
  ∧ Forall2 sameMarkup d (exec (tabClick tabButtons tabPanels button) d)
  ∧ ∀ j, isOpen (exec (tabClick tabButtons tabPanels button) d) j =
         bool_decide (j = button) || bool_decide (target = Some j)
         || (bool_decide (j ∉ tabButtons ++ tabPanels) && isOpen d j).
Proof.
  intros Hb Hp Heb target. assert (button < length d) as Hlt by by eapply lookup_lt_Some.
  unfold exec. rewrite (tabClick_eq _ _ _ _ _ Hb Hp Heb). fold target. simpl.
  set (d2 := removeActiveAll tabPanels (removeActiveAll tabButtons d)).
  assert (Forall2 sameMarkup d d2) as Hsame2.
  { etrans; apply removeActiveAll_sameMarkup. }
  assert (∀ j, isOpen d2 j = bool_decide (j ∉ tabButtons ++ tabPanels) && isOpen d j)
    as Hopen2.
  { intros j. unfold d2. rewrite !removeActiveAll_isOpen, andb_assoc. f_equal.
    rewrite <- bool_decide_and. apply bool_decide_ext.
    rewrite not_elem_of_app. naive_solver. }
  set (d3 := alter _ button d2).
  assert (Forall2 sameMarkup d d3) as Hsame3
    by (apply sameMarkup_alter; [apply sameMarkup_addActive|done]).
  assert (∀ j, isOpen d3 j = bool_decide (j = button)
               || (bool_decide (j ∉ tabButtons ++ tabPanels) && isOpen d j)) as Hopen3.
  { intros j. unfold d3. rewrite isOpen_addActive, Hopen2. f_equal.
    apply bool_decide_ext. rewrite <- (sameMarkup_length _ _ Hsame2). naive_solver. }
  split; [done|]. destruct target as [t|] eqn:Et.
  - split.
    + apply sameMarkup_alter; [apply sameMarkup_addActive|done].
    + intros j. rewrite isOpen_addActive, Hopen3.
      rewrite orb_assoc, (orb_comm (bool_decide (t = j ∧ _))). f_equal. f_equal.
      apply bool_decide_ext. apply getElementById_lt in Et.
      rewrite <- (sameMarkup_length _ _ Hsame3). naive_solver.
  - split; [done|]. intros j. rewrite Hopen3.
    by rewrite (bool_decide_eq_false_2 (None = Some j)), orb_false_r.
Qed.

End TabFacts.

(** ** Wiring and keyboard activation *)

Section Wiring.
Import Main.

(** [initAccordion] adds to every accordion header its click listener and
    the keydown listener that clicks it. *)
Lemma initAccordion_listeners (d : document) (pg : page) :
initAccordion d pg
= ({| listeners := listeners pg
         ++ (querySelectorAll d accordionHeaderSel ≫= λ header,
               [OnClick header (AccordionClick header);
                OnKeydown header (ClickOnEnterOrSpace header)]);
      console := console pg |}, Normal tt).
Proof.
unfold initAccordion.
induction (querySelectorAll d accordionHeaderSel) as [|h l IH] in pg |- *.
- simpl. rewrite app_nil_r. by destruct pg.
- cbn [forEach]. unfold bind at 1. unfold bind at 1, addEventListener at 1 2, modify.
  rewrite IH. simpl. by rewrite <- !app_assoc.
Qed.

Lemma addTabListeners (tabButtons tabPanels l : list nat) (pg : page) :
forEach l (λ button,
  addEventListener (OnClick button (TabClick tabButtons tabPanels button)) >>
  addEventListener (OnKeydown button (ClickOnEnterOrSpace button))) pg
= ({| listeners := listeners pg
         ++ (l ≫= λ button,
               [OnClick button (TabClick tabButtons tabPanels button);
                OnKeydown button (ClickOnEnterOrSpace button)]);
      console := console pg |}, Normal tt).
Proof.
induction l as [|b l IH] in pg |- *.
- simpl. rewrite app_nil_r. by destruct pg.
- cbn [forEach]. unfold bind at 1. unfold bind at 1, addEventListener at 1 2, modify.
  rewrite IH. simpl. by rewrite <- !app_assoc.
Qed.

(** [initItineraryTabs] adds listeners only when the document has a tab
    button and a tab panel; then every tab button gets its click listener,
    which holds the two lists, and the keydown listener that clicks it. *)
Lemma initItineraryTabs_listeners (d : document) (pg : page) :
querySelectorAll d tabButtonSel ≠ [] → querySelectorAll d tabPanelSel ≠ [] →
initItineraryTabs d pg
= ({| listeners := listeners pg
         ++ (querySelectorAll d tabButtonSel ≫= λ button,
               [OnClick button (TabClick (querySelectorAll d tabButtonSel)
                                  (querySelectorAll d tabPanelSel) button);
                OnKeydown button (ClickOnEnterOrSpace button)]);
      console := console pg |}, Normal tt).
Proof.
intros Hb Hp. unfold initItineraryTabs. cbv zeta.
destruct (querySelectorAll d tabButtonSel) as [|b bs] eqn:Eb; [done|].
destruct (querySelectorAll d tabPanelSel) as [|q qs] eqn:Ep; [done|].
cbn [length Nat.eqb orb]. apply addTabListeners.
Qed.

Lemma initItineraryTabs_no_listener (d : document) (pg : page) :
querySelectorAll d tabButtonSel = [] ∨ querySelectorAll d tabPanelSel = [] →
listeners (exec (initItineraryTabs d) pg) = listeners pg.
Proof.
intros H. unfold exec, initItineraryTabs. cbv zeta.
destruct H as [-> | ->]; simpl; [done|]. by rewrite orb_true_r.
Qed.

(** The click listeners a loop of the two functions has put on a node. *)
Lemma clickListenersOn_added (l : list nat) (h : nat → clickHandler)
  (k : nat → keydownHandler) (a : nat) :
NoDup l →
clickListenersOn (l ≫= λ b, [OnClick b (h b); OnKeydown b (k b)]) a
= if bool_decide (a ∈ l) then [h a] else [].
Proof.
unfold clickListenersOn. induction l as [|b l IH]; intros Hnd; [done|].
apply NoDup_cons in Hnd as [Hb Hnd]. rewrite bind_cons, omap_app, (IH Hnd).
simpl. destruct (decide (b = a)) as [->|Hne].
- rewrite (bool_decide_eq_true_2 (a = a)) by done.
  rewrite (bool_decide_eq_false_2 (a ∈ l)) by done.
  rewrite (bool_decide_eq_true_2 (a ∈ a :: l)) by (by left). done.
- rewrite (bool_decide_eq_false_2 (b = a)) by done. simpl.
  apply (f_equal (λ c : bool, if c then [h a] else [])).
  apply bool_decide_ext. rewrite elem_of_cons. naive_solver.
Qed.

Lemma clickListenersOn_app (l1 l2 : list listener) (a : nat) :
clickListenersOn (l1 ++ l2) a = clickListenersOn l1 a ++ clickListenersOn l2 a.
Proof. apply omap_app. Qed.

(** The accordion listeners on a node that is no accordion header. *)
Lemma clickListenersOn_accordion (d : document) (a : nat) :
a ∉ querySelectorAll d accordionHeaderSel →
clickListenersOn
  (querySelectorAll d accordionHeaderSel ≫= λ header,
     [OnClick header (AccordionClick header);
      OnKeydown header (ClickOnEnterOrSpace header)]) a = [].
Proof.
intros Ha. rewrite (clickListenersOn_added _ AccordionClick ClickOnEnterOrSpace)
  by apply querySelectorAll_NoDup.
by rewrite bool_decide_eq_false_2.
Qed.

Lemma listeners_wire (d : document) :
querySelectorAll d tabButtonSel ≠ [] → querySelectorAll d tabPanelSel ≠ [] →
listeners (wire d)
= (querySelectorAll d accordionHeaderSel ≫= λ header,
     [OnClick header (AccordionClick header);
      OnKeydown header (ClickOnEnterOrSpace header)])
  ++ (querySelectorAll d tabButtonSel ≫= λ button,
        [OnClick button (TabClick (querySelectorAll d tabButtonSel)
                           (querySelectorAll d tabPanelSel) button);
         OnKeydown button (ClickOnEnterOrSpace button)]).
Proof.
intros Hb Hp. unfold wire, exec.
by rewrite initAccordion_listeners, (initItineraryTabs_listeners d _ Hb Hp).
Qed.

Lemma listeners_wire_none (d : document) :
querySelectorAll d tabButtonSel = [] ∨ querySelectorAll d tabPanelSel = [] →
listeners (wire d)
= querySelectorAll d accordionHeaderSel ≫= λ header,
    [OnClick header (AccordionClick header);
     OnKeydown header (ClickOnEnterOrSpace header)].
Proof.
intros Hnone. unfold wire. rewrite (initItineraryTabs_no_listener d _ Hnone).
unfold exec. by rewrite initAccordion_listeners.
Qed.

(** A click on a wired tab button that is the only listener on its path
    runs the listener of the button, once. *)
Lemma selectTab_wired (d : document) (button : nat) :
button ∈ querySelectorAll d tabButtonSel →
querySelectorAll d tabPanelSel ≠ [] →
soleListener d button →
selectTab button d
= exec (tabClick (querySelectorAll d tabButtonSel)
          (querySelectorAll d tabPanelSel) button) d.
Proof.
intros Hin Hp [Hacc Htab]. unfold selectTab, click.
assert (querySelectorAll d tabButtonSel ≠ []) as Hb by (by intros E; rewrite E in Hin;
  apply elem_of_nil in Hin).
rewrite (listeners_wire d Hb Hp).
set (accs := querySelectorAll d accordionHeaderSel ≫= _).
set (tabs := querySelectorAll d tabButtonSel ≫= _).
assert (∀ a, a ∉ querySelectorAll d accordionHeaderSel →
  clickListenersOn (accs ++ tabs) a
  = if bool_decide (a ∈ querySelectorAll d tabButtonSel)
    then [TabClick (querySelectorAll d tabButtonSel)
            (querySelectorAll d tabPanelSel) a] else []) as Hon.
{ intros a Ha. rewrite clickListenersOn_app. unfold accs.
  rewrite (clickListenersOn_accordion d a Ha). simpl. unfold tabs.
  by rewrite (clickListenersOn_added _
    (TabClick (querySelectorAll d tabButtonSel) (querySelectorAll d tabPanelSel))
    ClickOnEnterOrSpace) by apply querySelectorAll_NoDup. }
pose proof (querySelectorAll_lt _ _ _ Hin) as Hlt.
apply lookup_lt_is_Some_2 in Hlt as Hlook. destruct Hlook as [eb Heb].
destruct (length d) as [|n] eqn:En; [lia|]. rewrite <- En in *.
assert (∃ rest, inclusiveAncestors (length d) d button = button :: rest)
  as [rest Hanc].
{ rewrite En. simpl. rewrite Heb. by eexists. }
rewrite Hanc in *. simpl in Htab.
apply Forall_cons in Hacc as [Hacc0 Hacc].
rewrite bind_cons, (Hon button Hacc0), bool_decide_eq_true_2 by done.
assert (rest ≫= clickListenersOn (accs ++ tabs) = []) as ->.
{ clear Hanc. induction rest as [|a rest IH]; [done|].
  apply Forall_cons in Hacc as [Ha Hacc]. apply Forall_cons in Htab as [Ht Htab].
  rewrite bind_cons, (Hon a Ha), bool_decide_eq_false_2 by done. by apply IH. }
done.
Qed.

(** A click on a node without listener on its path changes nothing; this
    is every node outside the accordion headers when the document has no
    tab button or no tab panel. *)
Lemma selectTab_unwired (d : document) (target : nat) :
querySelectorAll d tabButtonSel = [] ∨ querySelectorAll d tabPanelSel = [] →
Forall (λ a, a ∉ querySelectorAll d accordionHeaderSel)
  (inclusiveAncestors (length d) d target) →
selectTab target d = d.
Proof.
intros Hnone Hacc. unfold selectTab, click.
rewrite (listeners_wire_none d Hnone).
assert (inclusiveAncestors (length d) d target ≫= clickListenersOn
          (querySelectorAll d accordionHeaderSel ≫= λ header,
             [OnClick header (AccordionClick header);
              OnKeydown header (ClickOnEnterOrSpace header)]) = []) as ->; [|done].
induction (inclusiveAncestors (length d) d target) as [|a rest IH]; [done|].
apply Forall_cons in Hacc as [Ha Hacc].
rewrite bind_cons, (clickListenersOn_accordion d a Ha). by apply IH.
Qed.

(** Enter and Space on a header or a tab button are a click on it. *)
Lemma keydown_enter_or_space (ls : list listener) (target : nat) (d : document) :
runKeydownHandler ls "Enter" (ClickOnEnterOrSpace target) d = click ls target d
∧ runKeydownHandler ls " " (ClickOnEnterOrSpace target) d = click ls target d
∧ runKeydownHandler ls "Tab" (ClickOnEnterOrSpace target) d = d.
Proof. by repeat split. Qed.

End Wiring.

(** ** Scenarios *)

Section Scenarios.
Import Main Samples.

(** The scenario of three closed items: activating the second opens it
    alone, activating it again closes all, activating the first opens the
    first alone. *)
Example scenario_three_items :
  openItems (activations [5] threeItems) = [4]
  ∧ openItems (activations [5; 5] threeItems) = []
  ∧ openItems (activations [5; 5; 2] threeItems) = [1]
  ∧ attributeAt (activations [5] threeItems) 5 "aria-expanded" = Some "true"
  ∧ attributeAt (activations [5; 2] threeItems) 5 "aria-expanded" = Some "false".
Proof. by vm_compute. Qed.

Example scenario_two_accordions :
  openItems twoAccordions = [2; 6]
  ∧ openItems (activate 3 twoAccordions) = []
  ∧ openItems (activate 7 (activate 3 twoAccordions)) = [6].
Proof. by vm_compute. Qed.

Example scenario_headerless_item :
  snd (accordionClick 5 headerlessItem) = Throw nullError
  ∧ openItems headerlessItem = [1]
  ∧ openItems (activate 5 headerlessItem) = [].
Proof. by vm_compute. Qed.

Example scenario_tabs :
  filter (λ i, isOpen (selectTab 2 tabsPage) i = true) (seq 0 6) = [2; 5]
  ∧ filter (λ i, isOpen (selectTab 1 tabsPage) i = true) (seq 0 6) = [1; 4]
  ∧ filter (λ i, isOpen (selectTab 3 tabsPage) i = true) (seq 0 6) = [3].
Proof. by vm_compute. Qed.

End Scenarios.

(** ** The exclusive disclosure controller: main results *)

Section DisclosureController.
Import Main Samples.

Lemma openItemsIn_activations (d : document) (container : nat) (headers : list nat) :
openItemsIn (activations headers d) container
= filter (λ i, isOpen (activations headers d) i = true) (groupItems d container).
Proof.
unfold openItemsIn.
by rewrite <- (sameMarkup_groupItems d) by apply activations_sameMarkup.
Qed.

Lemma openItems_activations (d : document) (headers : list nat) :
openItems (activations headers d)
= filter (λ i, isOpen (activations headers d) i = true) (accordionItems d).
Proof.
unfold openItems.
by rewrite <- (sameMarkup_accordionItems d) by apply activations_sameMarkup.
Qed.

Lemma lastHasParent_snoc (d : document) (headers : list nat) :
lastHasParent d headers →
∃ hs header p, headers = hs ++ [header] ∧ parentOf d header = Some p.
Proof.
unfold lastHasParent. destruct (last headers) as [header|] eqn:E; [|done].
intros [p Hp]. apply last_Some in E as [hs ->]. by exists hs, header, p.
Qed.

(** C1. In every group of accordion items (the items inside any container
    element), after any finite sequence of header clicks at most one item
    has the [active] class: the bound is kept when the group starts with at
    most one open item, and it is established by the last click on markup
    where every item has a header. *)
Theorem accordion_at_most_one_open (d : document) (container : nat)
  (headers : list nat) :
length (openItemsIn d container) ≤ 1
∨ (wellFormedAccordion d ∧ lastHasParent d headers) →
length (openItemsIn (activations headers d) container) ≤ 1.
Proof.
intros Hinit. rewrite openItemsIn_activations.
destruct Hinit as [Hle|[Hwf Hlast]].
- apply activations_at_most_one;
    [apply groupItems_NoDup|apply groupItems_subseteq|exact Hle].
- destruct (lastHasParent_snoc _ _ Hlast) as (hs & header & p & -> & Hp).
  eapply activations_last_at_most_one;
    [exact Hwf|exact Hp|apply groupItems_NoDup|apply groupItems_subseteq].
Qed.

Lemma accordion_at_most_one_open_witness :
length (openItemsIn twoAccordions 0) = 2
∧ length (openItemsIn (activations [3; 7; 7; 3] twoAccordions) 0) ≤ 1.
Proof.
split; [reflexivity|].
apply (accordion_at_most_one_open twoAccordions 0 [3; 7; 7; 3]).
right. split.
- apply (bool_decide_unpack _). vm_compute. exact I.
- vm_compute. eexists. reflexivity.
Defined.

(** C9. Exclusivity is document-wide.  On markup where every accordion
    item has a header, a click on a header first removes [active] from
    every accordion item of the whole document and sets
    [aria-expanded="false"] on the header of each; the clicked item is then
    opened if it was closed.  After any sequence of clicks at most one
    accordion item of the whole document is open, whatever containers the
    items are in. *)
Theorem accordion_exclusive_document_wide (d : document) (header p : nat)
  (headers : list nat) :
wellFormedAccordion d → parentOf d header = Some p →
let d1 := exec closeAllAccordionItems d in
Forall (λ item,
    isOpen d1 item = false
    ∧ ∃ h, querySelectorIn d item accordionHeaderSel = Some h
           ∧ attributeAt d1 h "aria-expanded" = Some "false")
  (accordionItems d)
∧ activate header d =
  (if isOpen d p then d1
   else alter (withAttribute "aria-expanded" "true") header
          (alter (withClassList (addToken "active")) p d1))
∧ length (openItems (activations (headers ++ [header]) d)) ≤ 1
∧ (length (openItems d) ≤ 1 → length (openItems (activations headers d)) ≤ 1).
Proof.
intros Hwf Hp d1.
destruct (closeAll_spec d) as (Hsame & Hopen & Hclosed & Htotal).
assert (snd (closeAllAccordionItems d) = Normal tt) as Hnormal.
{ apply Htotal. intros item Hin. unfold wellFormedAccordion in Hwf.
  rewrite Forall_forall in Hwf. by apply Hwf. }
split; [|split; [|split]].
- apply Forall_forall. intros item Hin. by apply Hclosed.
- unfold activate, exec. rewrite accordionClick_eq.
  unfold parentOf in Hp. destruct (d !! header) as [eh|] eqn:Eh; [|done].
  simpl in *. destruct (parentElement eh) as [p'|]; [|done]. simpl in *.
  destruct (d !! p') as [ep|] eqn:Ep; [|done]. simpl in *. injection Hp as ->.
  rewrite (isOpen_lookup _ _ _ Ep). subst d1. unfold exec.
  destruct (closeAllAccordionItems d) as [d1 c]. simpl in *. subst c.
  by destruct (hasClass ep "active").
- rewrite openItems_activations.
  eapply activations_last_at_most_one;
    [exact Hwf|exact Hp|apply querySelectorAll_NoDup|done].
- intros Hle. rewrite openItems_activations.
  apply activations_at_most_one; [apply querySelectorAll_NoDup|done|exact Hle].
Qed.

Lemma accordion_exclusive_document_wide_witness :
openItems twoAccordions = [2; 6]
∧ openItems (exec closeAllAccordionItems twoAccordions) = []
∧ length (openItems (activations ([7; 3] ++ [7]) twoAccordions)) ≤ 1.
Proof.
split; [reflexivity|]. split; [reflexivity|].
assert (wellFormedAccordion twoAccordions) as Hwf
  by (apply (bool_decide_unpack _); vm_compute; exact I).
assert (parentOf twoAccordions 7 = Some 6) as Hp by reflexivity.
exact (proj1 (proj2 (proj2
  (accordion_exclusive_document_wide twoAccordions 7 6 [7; 3] Hwf Hp)))).
Defined.

End DisclosureController.

Section ToggleAndErrors.
Import Main Samples.

Lemma querySelectorAll_Forall_lt (d : document) (sel : selector) :
Forall (λ i, i < length d) (querySelectorAll d sel).
Proof. apply Forall_forall. intros i. apply querySelectorAll_lt. Qed.

(** A click on a wired tab button, on a page with tab panels. *)
Lemma selectTab_spec (d : document) (button : nat) (eb : element) :
button ∈ querySelectorAll d tabButtonSel →
querySelectorAll d tabPanelSel ≠ [] →
soleListener d button →
d !! button = Some eb →
let buttons := querySelectorAll d tabButtonSel in
let panels := querySelectorAll d tabPanelSel in
let target := getElementById d (toDOMString (attributes eb !! "data-tab")) in
snd (tabClick buttons panels button d) = Normal tt
∧ selectTab button d = exec (tabClick buttons panels button) d
∧ ∀ j, isOpen (selectTab button d) j =
       bool_decide (j = button) || bool_decide (target = Some j)
       || (bool_decide (j ∉ buttons ++ panels) && isOpen d j).
Proof.
intros Hin Hp Hsole Heb buttons panels target.
destruct (tabClick_spec buttons panels button eb d) as (Hn & _ & Hopen);
  [apply querySelectorAll_Forall_lt|apply querySelectorAll_Forall_lt|done|].
rewrite (selectTab_wired d button Hin Hp Hsole). by split.
Qed.

(** The closing loop throws nothing but the [TypeError] of a member access
    on [null]. *)
Lemma closeLoop_throws_null (items : list nat) (d : document) (e : exn) :
snd (forEach items closeAccordionItem d) = Throw e → e = nullError.
Proof.
revert d. induction items as [|item items IH]; intros d; [done|].
cbn [forEach]. unfold bind. rewrite closeAccordionItem_eq.
destruct (d !! item) as [ei|]; simpl; [|by intros [= <-]].
destruct (querySelectorIn _ item accordionHeaderSel) as [h|]; simpl;
  [apply IH|by intros [= <-]].
Qed.

(** In an accordion in which an item has no header every click throws
    that [TypeError]. *)
Lemma accordionClick_throws_null (header : nat) (d : document) :
¬ wellFormedAccordion d → snd (accordionClick header d) = Throw nullError.
Proof.
intros Hnwf. rewrite accordionClick_eq.
destruct (d !! header) as [eh|]; [|done].
destruct (parentElement eh ≫= _) as [[p ep]|]; [|done].
destruct (closeAll_spec d) as (_ & _ & Hclosed & _).
pose proof (closeLoop_throws_null (querySelectorAll d accordionItemSel) d) as Hnull.
unfold closeAllAccordionItems, bind, get in *. simpl in *.
destruct (forEach (querySelectorAll d accordionItemSel) closeAccordionItem d)
  as [d1 [[]|e]]; simpl in *.
- exfalso. apply Hnwf. apply Forall_forall. intros item Hitem.
  destruct (Hclosed eq_refl item Hitem) as (_ & h & Hh & _). by exists h.
- by rewrite (Hnull e eq_refl).
Qed.

(** A click of the accordion that throws opens nothing. *)
Lemma accordionClick_throw (header : nat) (d : document) (e : exn) :
snd (accordionClick header d) = Throw e →
∀ j, isOpen (activate header d) j = true → isOpen d j = true.
Proof.
unfold activate, exec. rewrite accordionClick_eq.
destruct (d !! header) as [eh|]; [|done].
destruct (parentElement eh ≫= _) as [[p ep]|]; [|done].
destruct (closeAll_spec d) as (_ & Hopen & _).
destruct (closeAllAccordionItems d) as [d1 [[]|e']]; simpl in *.
- by destruct (hasClass ep "active").
- intros _. exact Hopen.
Qed.

(** C2, as the code has it.  The accordion toggles or replaces: on markup
    where every item has a header, a click on the header of an open item
    leaves no item open and a click on the header of a closed item leaves
    exactly that item open.  The itinerary tabs only replace: on a page
    with at least one tab panel, a click on a tab button (the only element
    with a listener on the click path) runs the listener of that button,
    which never throws and leaves the button active whether or not it was
    active before; of the other tab buttons and tab panels only the element
    named by the button's [data-tab] is active afterwards.  On a page
    without tab button or tab panel [initItineraryTabs] has added no
    listener, and a click outside the accordion headers changes nothing. *)
Theorem accordion_toggles_tabs_replace (d : document) :
(∀ header item,
    wellFormedAccordion d → parentOf d header = Some item →
    item ∈ accordionItems d →
    toggleOrReplace (accordionItems d) item d (activate header d))
∧ (∀ button eb,
    button ∈ querySelectorAll d tabButtonSel → d !! button = Some eb →
    querySelectorAll d tabPanelSel ≠ [] → soleListener d button →
    let buttons := querySelectorAll d tabButtonSel in
    let panels := querySelectorAll d tabPanelSel in
    let target := getElementById d (toDOMString (attributes eb !! "data-tab")) in
    snd (tabClick buttons panels button d) = Normal tt
    ∧ selectTab button d = exec (tabClick buttons panels button) d
    ∧ isOpen (selectTab button d) button = true
    ∧ ∀ j, j ∈ buttons ++ panels → j ≠ button →
           isOpen (selectTab button d) j = bool_decide (target = Some j))
∧ (∀ target,
    querySelectorAll d tabButtonSel = [] ∨ querySelectorAll d tabPanelSel = [] →
    Forall (λ a, a ∉ querySelectorAll d accordionHeaderSel)
      (inclusiveAncestors (length d) d target) →
    selectTab target d = d).
Proof.
split; [|split].
- intros header item Hwf Hp Hitem.
  destruct (activate_wellFormed header item d Hwf Hp) as [_ Hopen].
  split; intros Hwas j Hj; rewrite (Hopen j Hj), Hwas; simpl.
  + apply andb_false_r.
  + apply andb_true_r.
- intros button eb Hin Heb Hp Hsole buttons panels target.
  destruct (selectTab_spec d button eb Hin Hp Hsole Heb) as (Hn & Hrun & Hopen).
  split; [done|]. split; [done|]. split.
  + rewrite Hopen. by rewrite (bool_decide_eq_true_2 (button = button)).
  + intros j Hj Hne. rewrite Hopen.
    rewrite (bool_decide_eq_false_2 (j = button)) by done.
    rewrite (bool_decide_eq_false_2 (j ∉ _)) by naive_solver.
    simpl. apply orb_false_r.
- intros target. apply selectTab_unwired.
Qed.

Lemma accordion_toggles_tabs_replace_witness :
toggleOrReplace (accordionItems threeItems) 4 threeItems (activate 5 threeItems)
∧ isOpen tabsPage 1 = true
∧ isOpen (selectTab 1 tabsPage) 1 = true
∧ selectTab 3 threeItems = threeItems.
Proof.
split; [|split; [reflexivity|split]].
- apply (proj1 (accordion_toggles_tabs_replace threeItems) 5 4).
  + apply (bool_decide_unpack _). vm_compute. exact I.
  + reflexivity.
  + apply (bool_decide_unpack _). vm_compute. exact I.
- refine (proj1 (proj2 (proj2 (proj1 (proj2 (accordion_toggles_tabs_replace tabsPage)) 1
    (el (Some 0) ["tab-button"; "active"] [("data-tab", "day1")]) _ _ _ _)))).
  + apply (bool_decide_unpack _). vm_compute. exact I.
  + reflexivity.
  + apply (bool_decide_unpack _). vm_compute. exact I.
  + split; apply (bool_decide_unpack _); vm_compute; exact I.
- apply (proj2 (proj2 (accordion_toggles_tabs_replace threeItems)) 3).
  + left. reflexivity.
  + apply (bool_decide_unpack _). vm_compute. exact I.
Defined.

(** C2 as stated fails for the itinerary tabs: the first tab button is
    active, it is clicked, and it is still active. *)
Lemma tabs_do_not_toggle :
isOpen tabsPage 1 = true
∧ ¬ toggleOrReplace (querySelectorAll tabsPage tabButtonSel) 1 tabsPage
      (selectTab 1 tabsPage).
Proof.
split; [reflexivity|]. intros [Htoggle _].
assert (1 ∈ querySelectorAll tabsPage tabButtonSel) as Hin
  by (apply (bool_decide_unpack _); vm_compute; exact I).
specialize (Htoggle eq_refl 1 Hin). vm_compute in Htoggle. discriminate.
Qed.

(** C5, as the code has it.  On a page with at least one tab panel, a
    click on a tab button whose [data-tab] names no element of the document
    completes without an exception, makes the clicked button active and
    removes [active] from every other tab button and from every tab panel;
    elements outside the two lists keep their state.  In an accordion in
    which some item has no header every click on a header throws a
    [TypeError] and opens no element: every element open afterwards was
    open before. *)
Theorem missing_panel_deactivates_all (d : document) (button : nat) (eb : element)
  (accordion : document) :
button ∈ querySelectorAll d tabButtonSel →
d !! button = Some eb →
querySelectorAll d tabPanelSel ≠ [] →
soleListener d button →
getElementById d (toDOMString (attributes eb !! "data-tab")) = None →
¬ wellFormedAccordion accordion →
let buttons := querySelectorAll d tabButtonSel in
let panels := querySelectorAll d tabPanelSel in
snd (tabClick buttons panels button d) = Normal tt
∧ selectTab button d = exec (tabClick buttons panels button) d
∧ (∀ j, isOpen (selectTab button d) j =
        bool_decide (j = button)
        || (bool_decide (j ∉ buttons ++ panels) && isOpen d j))
∧ (∀ header,
     snd (accordionClick header accordion) = Throw nullError
     ∧ ∀ j, isOpen (activate header accordion) j = true → isOpen accordion j = true).
Proof.
intros Hin Heb Hp Hsole Hnone Hnwf buttons panels.
destruct (selectTab_spec d button eb Hin Hp Hsole Heb) as (Hn & Hrun & Hopen).
split; [done|]. split; [done|]. split.
- intros j. rewrite Hopen, Hnone.
  by rewrite (bool_decide_eq_false_2 (None = Some j)), orb_false_r.
- intros header.
  pose proof (accordionClick_throws_null header accordion Hnwf) as Hthrow.
  split; [done|]. by apply (accordionClick_throw header accordion nullError).
Qed.

Lemma missing_panel_deactivates_all_witness :
filter (λ j, isOpen tabsPage j = true) (seq 0 6) = [1; 4]
∧ isOpen (selectTab 3 tabsPage) 3 = true
∧ isOpen (selectTab 3 tabsPage) 1 = false
∧ isOpen (selectTab 3 tabsPage) 4 = false
∧ snd (accordionClick 5 headerlessItem) = Throw nullError.
Proof.
split; [reflexivity|].
assert (3 ∈ querySelectorAll tabsPage tabButtonSel) as Hin
  by (apply (bool_decide_unpack _); vm_compute; exact I).
assert (querySelectorAll tabsPage tabPanelSel ≠ []) as Hp
  by (apply (bool_decide_unpack _); vm_compute; exact I).
assert (soleListener tabsPage 3) as Hsole
  by (split; apply (bool_decide_unpack _); vm_compute; exact I).
assert (¬ wellFormedAccordion headerlessItem) as Hnwf.
{ unfold wellFormedAccordion. intros H. apply (bool_decide_pack _) in H.
  vm_compute in H. exact H. }
pose proof (missing_panel_deactivates_all tabsPage 3
  (el (Some 0) ["tab-button"] [("data-tab", "day9")]) headerlessItem
  Hin eq_refl Hp Hsole eq_refl Hnwf) as (_ & _ & Hopen & Hacc).
rewrite !Hopen. split; [reflexivity|]. split; [reflexivity|].
split; [reflexivity|]. exact (proj1 (Hacc 5)).
Defined.

(** C5 as stated fails: the third tab button names no panel, and a click on
    it closes the open tab and its panel and activates the button; and a
    click in an accordion with a header-less item throws after it has
    closed the open item. *)
Lemma missing_panel_is_not_a_noop :
getElementById tabsPage "day9" = None
∧ ¬ noVisibleEffect tabsPage (selectTab 3 tabsPage)
∧ snd (accordionClick 5 headerlessItem) = Throw nullError
∧ ¬ noVisibleEffect headerlessItem (activate 5 headerlessItem).
Proof.
split; [reflexivity|]. split; [|split; [reflexivity|]].
- intros H. specialize (H 1). vm_compute in H. discriminate.
- intros H. specialize (H 1). vm_compute in H. discriminate.
Qed.

(** C6, as the code has it.  Nothing is rejected.  With no tab button or no
    tab panel [initItineraryTabs] writes the warning "Tab elements not
    found" to the console, adds no listener and returns normally; with no
    accordion header [initAccordion] adds no listener, writes nothing and
    returns normally. *)
Theorem empty_registration_is_ignored (d : document) (pg : page) :
(querySelectorAll d tabButtonSel = [] ∨ querySelectorAll d tabPanelSel = [] →
   initItineraryTabs d pg =
   ({| listeners := listeners pg;
       console := console pg ++ ["Tab elements not found"] |}, Normal tt))
∧ (querySelectorAll d accordionHeaderSel = [] →
   initAccordion d pg = (pg, Normal tt)).
Proof.
split.
- intros H. unfold initItineraryTabs.
  destruct H as [-> | ->]; simpl; [done|]. by rewrite orb_true_r.
- intros H. unfold initAccordion. by rewrite H.
Qed.

Lemma empty_registration_is_ignored_witness :
initItineraryTabs threeItems emptyPage =
  ({| listeners := []; console := ["Tab elements not found"] |}, Normal tt)
∧ initAccordion tabsPage emptyPage = (emptyPage, Normal tt).
Proof.
split.
- apply (proj1 (empty_registration_is_ignored threeItems emptyPage)).
  left. reflexivity.
- apply (proj2 (empty_registration_is_ignored tabsPage emptyPage)).
  reflexivity.
Defined.

(** C6 as stated fails: on a document with no element at all neither
    function throws. *)
Lemma empty_registration_not_rejected :
¬ rejects initItineraryTabs [] ∧ ¬ rejects initAccordion [].
Proof.
split; intros [e He]; specialize (He emptyPage); vm_compute in He; discriminate.
Qed.

End ToggleAndErrors.

(** ** The background audio on a visibility change *)

Section AudioFacts.
Import Audio Samples.

Lemma pauseBackgroundAudio_paused (s : state) :
audioPaused (pauseBackgroundAudio s).
Proof.
unfold audioPaused, pauseBackgroundAudio.
destruct (backgroundAudio s) as [a|] eqn:Ea; [|by rewrite Ea].
destruct (paused a) eqn:Ep; simpl.
- rewrite Ea. by intros a' [= <-].
- by intros a' [= <-].
Qed.

Lemma play_calls (pf : platform) (a : audioElement) (s : state) :
calls (play pf a s) = calls s ++ [Play].
Proof. unfold play. by destruct (playAllowed pf). Qed.

Lemma playBackgroundAudio_ready (pf : platform) (s : state) :
audioInitialized s = true → is_Some (backgroundAudio s) →
calls (playBackgroundAudio pf s) = calls s ++ [Play].
Proof.
intros Hi [a Ha]. unfold playBackgroundAudio.
rewrite Hi, Ha, bool_decide_eq_true_2 by done. simpl. rewrite Ha.
apply play_calls.
Qed.

Lemma not_resumed_same (s : state) : ¬ resumed s s.
Proof.
unfold resumed. intros H. apply (f_equal length) in H.
rewrite length_app in H. simpl in H. lia.
Qed.

(** C8, as the code has it.  On a visibility change to hidden both
    versions of the listener leave the audio paused.  On a change to
    visible the version with the welcome popup calls [play()] exactly when
    the audio had been initialised and the popup overlay is absent or has
    [display: none]; the version of [js/main.js] has no popup and calls
    [play()] exactly when the audio had been initialised. *)
Theorem visibility_change_pauses_and_resumes (pf : platform) (d : document)
  (s : state) :
audioPaused (onVisibilityChange pf true s)
∧ audioPaused (onVisibilityChangePopup pf d true s)
∧ (resumed s (onVisibilityChangePopup pf d false s)
   ↔ audioInitialized s = true ∧ is_Some (backgroundAudio s)
     ∧ popupClosed d = true)
∧ (resumed s (onVisibilityChange pf false s)
   ↔ audioInitialized s = true ∧ is_Some (backgroundAudio s)).
Proof.
split; [apply pauseBackgroundAudio_paused|].
split; [apply pauseBackgroundAudio_paused|].
unfold onVisibilityChangePopup, onVisibilityChange, resumed.
destruct (audioInitialized s) eqn:Hi; simpl.
- case_bool_decide as Hb; simpl.
  + split.
    * destruct (popupClosed d).
      -- rewrite playBackgroundAudio_ready by done. naive_solver.
      -- split; [intros H; by apply not_resumed_same in H|naive_solver].
    * rewrite playBackgroundAudio_ready by done. naive_solver.
  + split; (split; [intros H; by apply not_resumed_same in H|naive_solver]).
- split; (split; [intros H; by apply not_resumed_same in H|naive_solver]).
Qed.

(** C8 as stated fails for [js/main.js]: while the popup overlay is
    displayed, a change to visible resumes playback; the version with the
    popup does not. *)
Lemma main_resumes_under_displayed_overlay :
popupClosed popupShown = false
∧ audioInitialized audioReady = true
∧ resumed audioReady (onVisibilityChange permissive false audioReady)
∧ ¬ resumed audioReady (onVisibilityChangePopup permissive popupShown false audioReady).
Proof.
split; [reflexivity|]. split; [reflexivity|]. split; [reflexivity|].
intros H. vm_compute in H. discriminate.
Qed.

Example popup_dismissed_resumes :
popupClosed popupDismissed = true
∧ resumed audioReady
    (onVisibilityChangePopup permissive popupDismissed false audioReady)
∧ audioPaused
    (onVisibilityChangePopup permissive popupDismissed true
       (onVisibilityChangePopup permissive popupDismissed false audioReady)).
Proof.
split; [reflexivity|]. split; [reflexivity|]. apply pauseBackgroundAudio_paused.
Qed.

End AudioFacts.

(** ** The viewport reveal controller *)

Section StaggerFacts.
Import Animations Samples.

Lemma liftDom_update (w : world) (i : nat) (f : element → element) (e : element) :
dom w !! i = Some e →
liftDom (update (Some i) f) w
= ({| this := this w; dom := alter f i (dom w);
      documentListeners := documentListeners w |}, Normal tt).
Proof. intros H. unfold liftDom. by rewrite (update_Some _ _ _ _ H). Qed.

Lemma styleAt_alter_style (d : document) (i j : nat) (p q v : string) :
styleAt (alter (withStyle p v) i d) j q =
if bool_decide (i = j ∧ p = q ∧ i < length d) then Some v else styleAt d j q.
Proof.
unfold styleAt. case_bool_decide as H.
- destruct H as (->&->&Hlt). rewrite list_lookup_alter_eq.
  apply lookup_lt_is_Some_2 in Hlt as [e ->]. simpl. by rewrite lookup_insert_eq.
- destruct (decide (i = j)) as [->|Hne]; [|by rewrite list_lookup_alter_ne].
  rewrite list_lookup_alter_eq. destruct (d !! j) as [e|] eqn:E; [|done]. simpl.
  apply lookup_lt_Some in E. rewrite lookup_insert_ne; [done|]. naive_solver.
Qed.

Lemma setAnimationDelay_eq (base : Z) (e k : nat) (w : world) (el0 : element) :
dom w !! e = Some el0 →
setAnimationDelay base e k w
= ({| this := this w;
      dom := alter (withStyle "animationDelay"
                      (delayText base (animationDelay (this_config (this w))) k))
               e (dom w);
      documentListeners := documentListeners w |}, Normal tt).
Proof.
intros H. unfold setAnimationDelay, bind, get, style_set.
by rewrite (liftDom_update _ _ _ _ H).
Qed.

Lemma staggerLoop_spec (base : Z) (elements : list nat) (k : nat) (w : world) :
NoDup elements → Forall (λ e, e < length (dom w)) elements →
let step := animationDelay (this_config (this w)) in
let r := forEachIndexed elements k (setAnimationDelay base) w in
snd r = Normal tt
∧ this (fst r) = this w
∧ length (dom (fst r)) = length (dom w)
∧ (∀ i e, elements !! i = Some e →
     styleAt (dom (fst r)) e "animationDelay" = Some (delayText base step (k + i)))
∧ (∀ e, e ∉ elements →
     styleAt (dom (fst r)) e "animationDelay" = styleAt (dom w) e "animationDelay").
Proof.
revert k w. induction elements as [|e elements IH]; intros k w Hnd Hvalid.
- repeat split; done.
- apply NoDup_cons in Hnd as [Hnotin Hnd].
  apply Forall_cons in Hvalid as [Hlt Hvalid].
  apply lookup_lt_is_Some_2 in Hlt as Hlook. destruct Hlook as [el0 Hel0].
  cbn [forEachIndexed]. unfold bind.
  rewrite (setAnimationDelay_eq _ _ _ _ _ Hel0).
  set (w1 := {| this := this w; dom := _; documentListeners := _ |}).
  assert (Forall (λ e0, e0 < length (dom w1)) elements) as Hvalid1.
  { unfold w1. simpl. by rewrite length_alter. }
  destruct (IH (S k) w1 Hnd Hvalid1) as (Hn & Hthis & Hlen & Hin & Hout).
  cbv zeta. split; [exact Hn|]. split; [exact Hthis|].
  split; [rewrite Hlen; apply length_alter|]. split.
  + intros [|i] e' He'; simpl in He'.
    * injection He' as <-. rewrite (Hout e Hnotin). unfold w1. simpl.
      rewrite styleAt_alter_style.
      rewrite bool_decide_eq_true_2 by done. by rewrite Nat.add_0_r.
    * rewrite (Hin i e' He'). by rewrite Nat.add_succ_r.
  + intros e' [Hne Hnot]%not_elem_of_cons. rewrite (Hout e' Hnot).
    unfold w1. simpl.
    rewrite styleAt_alter_style. rewrite bool_decide_eq_false_2; [done|naive_solver].
Qed.

(** The loop on any sequence: what counts for the style an element ends
    with is its last index. *)
Lemma staggerLoop_last (base : Z) (elements : list nat) (k : nat) (w : world) :
Forall (λ e, e < length (dom w)) elements →
let step := animationDelay (this_config (this w)) in
let r := forEachIndexed elements k (setAnimationDelay base) w in
snd r = Normal tt
∧ this (fst r) = this w
∧ length (dom (fst r)) = length (dom w)
∧ (∀ i e, elements !! i = Some e →
     (∀ j, i < j → elements !! j ≠ Some e) →
     styleAt (dom (fst r)) e "animationDelay" = Some (delayText base step (k + i)))
∧ (∀ e, e ∉ elements →
     styleAt (dom (fst r)) e "animationDelay" = styleAt (dom w) e "animationDelay").
Proof.
revert k w. induction elements as [|e elements IH]; intros k w Hvalid.
- repeat split; done.
- apply Forall_cons in Hvalid as [Hlt Hvalid].
  apply lookup_lt_is_Some_2 in Hlt as Hlook. destruct Hlook as [el0 Hel0].
  cbn [forEachIndexed]. unfold bind.
  rewrite (setAnimationDelay_eq _ _ _ _ _ Hel0).
  set (w1 := {| this := this w; dom := _; documentListeners := _ |}).
  assert (Forall (λ e0, e0 < length (dom w1)) elements) as Hvalid1.
  { unfold w1. simpl. by rewrite length_alter. }
  destruct (IH (S k) w1 Hvalid1) as (Hn & Hthis & Hlen & Hin & Hout).
  cbv zeta. split; [exact Hn|]. split; [exact Hthis|].
  split; [rewrite Hlen; apply length_alter|]. split.
  + intros [|i] e' He' Hlast; simpl in He'.
    * injection He' as <-.
      assert (e ∉ elements) as Hnotin.
      { intros [j Hj]%list_elem_of_lookup. by apply (Hlast (S j)); [lia|]. }
      rewrite (Hout e Hnotin). unfold w1. simpl.
      rewrite styleAt_alter_style.
      rewrite bool_decide_eq_true_2 by done. by rewrite Nat.add_0_r.
    * rewrite (Hin i e' He'); [by rewrite Nat.add_succ_r|].
      intros j Hj. apply (Hlast (S j)). lia.
  + intros e' [Hne Hnot]%not_elem_of_cons. rewrite (Hout e' Hnot).
    unfold w1. simpl.
    rewrite styleAt_alter_style. rewrite bool_decide_eq_false_2; [done|naive_solver].
Qed.

(** C7. For a non-negative base and a non-negative step, whole
    milliseconds that stay below [2 ^ 53], where the arithmetic of the
    number type is exact, [applyStaggeredDelays] completes on every
    sequence of elements of the document and assigns to the element at
    index [i] the inline style [animation-delay: (base + i * step)ms]:
    that is the style of the element once the callback has run for the
    indices up to [i], and the style it ends with when it does not occur
    again later in the sequence.  [step] is the configured
    [animationDelay] and [base] is 0 when the argument is left out. *)
Theorem stagger_delay_is_base_plus_index_times_step (w : world)
  (elements : list nat) (baseDelay : option Z) (i element : nat) :
(0 ≤ default 0 baseDelay)%Z →
(0 ≤ animationDelay (this_config (this w)))%Z →
(default 0 baseDelay
 + Z.of_nat (length elements) * animationDelay (this_config (this w)) < 2 ^ 53)%Z →
Forall (λ e, e < length (dom w)) elements →
elements !! i = Some element →
snd (applyStaggeredDelays elements baseDelay w) = Normal tt
∧ (0 ≤ default 0 baseDelay
        + Z.of_nat i * animationDelay (this_config (this w)) < 2 ^ 53)%Z
∧ styleAt (dom (exec (applyStaggeredDelays (take (S i) elements) baseDelay) w))
    element "animationDelay"
  = Some (numberToString
            (default 0%Z baseDelay
             + Z.of_nat i * animationDelay (this_config (this w))) +:+ "ms")
∧ ((∀ j, i < j → elements !! j ≠ Some element) →
   styleAt (dom (exec (applyStaggeredDelays elements baseDelay) w)) element
     "animationDelay"
   = Some (numberToString
             (default 0%Z baseDelay
              + Z.of_nat i * animationDelay (this_config (this w))) +:+ "ms")).
Proof.
intros Hbase Hstep Hbound Hvalid Hi. unfold exec, applyStaggeredDelays.
destruct (staggerLoop_last (default 0%Z baseDelay) elements 0 w Hvalid)
  as (Hn & _ & _ & Hin & _).
split; [exact Hn|]. split; [|split].
- apply lookup_lt_Some in Hi. nia.
- destruct (staggerLoop_last (default 0%Z baseDelay) (take (S i) elements) 0 w)
    as (_ & _ & _ & Hin' & _); [by apply Forall_take|].
  rewrite (Hin' i element); [done|by rewrite lookup_take_lt by lia|].
  intros j Hj. by rewrite lookup_take_ge by lia.
- intros Hlast. by rewrite (Hin i element Hi Hlast).
Qed.

Lemma stagger_delay_is_base_plus_index_times_step_witness :
styleAt (dom (exec (applyStaggeredDelays [3; 4; 6; 6; 7] None)
                (construct siteOptions false revealPage))) 6 "animationDelay"
= Some "300ms".
Proof.
refine (proj2 (proj2 (proj2 (stagger_delay_is_base_plus_index_times_step
  (construct siteOptions false revealPage) [3; 4; 6; 6; 7] None 3 6 _ _ _ _ _))) _).
- vm_compute. discriminate.
- vm_compute. discriminate.
- vm_compute. reflexivity.
- apply (bool_decide_unpack _). vm_compute. exact I.
- reflexivity.
- intros [|[|[|[|[|j]]]]] Hj; try lia; discriminate.
Defined.

(** The scenario of five elements and a step of 100 ms. *)
Example scenario_stagger :
(λ e, styleAt (dom (exec (applyStaggeredDelays [3; 4; 5; 6; 7] None)
                      (construct siteOptions false revealPage))) e
        "animationDelay") <$> [3; 4; 5; 6; 7]
= [Some "0ms"; Some "100ms"; Some "200ms"; Some "300ms"; Some "400ms"].
Proof. by vm_compute. Qed.

End StaggerFacts.

Section RevealFacts.
Import Animations Samples.

Lemma classList_add_valid (d : document) (i : nat) (e : element) (c : string) :
d !! i = Some e → c ≠ "" → hasAsciiWhitespace c = false →
classList_add (Some i) c d = (alter (withClassList (addToken c)) i d, Normal tt).
Proof.
intros H Hne Hws. rewrite classList_add_token by done. by eapply update_Some.
Qed.

Lemma classList_contains_valid (d : document) (i : nat) (e : element) (c : string) :
d !! i = Some e → classList_contains (Some i) c d = (d, Normal (hasClass e c)).
Proof. intros H. unfold classList_contains, bind, deref, ret. by rewrite H. Qed.

Lemma getAttribute_valid (d : document) (i : nat) (e : element) (a : string) :
d !! i = Some e → getAttribute (Some i) a d = (d, Normal (attributes e !! a)).
Proof. intros H. unfold getAttribute, bind, deref, ret. by rewrite H. Qed.

Lemma matchesAt_class_addToken (d : document) (c : string) (i j : nat) :
matchesAt (alter (withClassList (addToken c)) i d) [SelClass c] j =
bool_decide (i = j ∧ i < length d) || matchesAt d [SelClass c] j.
Proof.
unfold matchesAt. destruct (decide (i = j)) as [->|Hne].
- rewrite list_lookup_alter_eq. destruct (d !! j) as [e|] eqn:E; simpl.
  + rewrite hasClass_addToken. apply lookup_lt_Some in E.
    rewrite (bool_decide_eq_true_2 (c = c)) by done.
    by rewrite (bool_decide_eq_true_2 (j = j ∧ _)).
  + apply lookup_ge_None in E.
    rewrite (bool_decide_eq_false_2 (j = j ∧ _)); [done|lia].
- rewrite list_lookup_alter_ne by done.
  by rewrite (bool_decide_eq_false_2 (i = j ∧ _)) by naive_solver.
Qed.

Lemma matchesAt_alter_style (d : document) (sel : selector) (p v : string) (i j : nat) :
matchesAt (alter (withStyle p v) i d) sel j = matchesAt d sel j.
Proof.
unfold matchesAt. destruct (decide (i = j)) as [->|Hne].
- rewrite list_lookup_alter_eq. by destruct (d !! j).
- by rewrite list_lookup_alter_ne.
Qed.

Lemma styleAt_alter_classList (d : document) (f : list string → list string)
  (i j : nat) (p : string) :
styleAt (alter (withClassList f) i d) j p = styleAt d j p.
Proof.
unfold styleAt. destruct (decide (i = j)) as [->|Hne].
- rewrite list_lookup_alter_eq. by destruct (d !! j).
- by rewrite list_lookup_alter_ne.
Qed.

Lemma showImmediately_eq (d : document) (i : nat) (e : element) :
d !! i = Some e →
showImmediately i d
= (alter (withClassList (addToken "visible")) i
     (alter (withStyle "transform" "none") i
        (alter (withStyle "opacity" "1") i d)), Normal tt).
Proof.
intros H. unfold showImmediately, style_set, bind.
rewrite (update_Some _ _ _ _ H).
assert (alter (withStyle "opacity" "1") i d !! i = Some (withStyle "opacity" "1" e))
  as H1 by (by rewrite list_lookup_alter_eq, H).
rewrite (update_Some _ _ _ _ H1).
eapply classList_add_valid; [|done|done].
by rewrite list_lookup_alter_eq, H1.
Qed.

Lemma liftDom_showImmediately (w : world) (i : nat) (e : element) :
dom w !! i = Some e →
liftDom (showImmediately i) w
= ({| this := this w;
      dom := alter (withClassList (addToken "visible")) i
               (alter (withStyle "transform" "none") i
                  (alter (withStyle "opacity" "1") i (dom w)));
      documentListeners := documentListeners w |}, Normal tt).
Proof. intros H. unfold liftDom. by rewrite (showImmediately_eq _ _ _ H). Qed.

Lemma showImmediately_spec (d : document) (i : nat) (e : element) :
d !! i = Some e →
let d' := fst (showImmediately i d) in
length d' = length d
∧ shownImmediately d' i
∧ (∀ j, shownImmediately d j → shownImmediately d' j).
Proof.
intros H. rewrite (showImmediately_eq _ _ _ H). simpl.
pose proof (lookup_lt_Some _ _ _ H) as Hlt.
assert (∀ j, shownImmediately
               (alter (withClassList (addToken "visible")) i
                  (alter (withStyle "transform" "none") i
                     (alter (withStyle "opacity" "1") i d))) j
             ↔ (j = i ∨ shownImmediately d j)) as Hiff.
{ intros j. unfold shownImmediately.
  rewrite matchesAt_class_addToken, !matchesAt_alter_style, !length_alter.
  rewrite !styleAt_alter_classList, !styleAt_alter_style, !length_alter.
  repeat case_bool_decide; simpl; naive_solver. }
split; [by rewrite !length_alter|].
split; [apply Hiff; by left|]. intros j Hj. apply Hiff. by right.
Qed.

Lemma disableLoop_spec (l : list nat) (w : world) :
Forall (λ i, i < length (dom w)) l →
let r := forEach l (λ element, liftDom (showImmediately element)) w in
snd r = Normal tt
∧ this (fst r) = this w
∧ documentListeners (fst r) = documentListeners w
∧ length (dom (fst r)) = length (dom w)
∧ (∀ j, j ∈ l → shownImmediately (dom (fst r)) j)
∧ (∀ j, shownImmediately (dom w) j → shownImmediately (dom (fst r)) j).
Proof.
revert w. induction l as [|i l IH]; intros w Hvalid.
- simpl. split; [done|]. split; [done|]. split; [done|]. split; [done|].
  split; [|done]. intros j Hj. by apply elem_of_nil in Hj.
- apply Forall_cons in Hvalid as [Hlt Hvalid].
  apply lookup_lt_is_Some_2 in Hlt as [e He].
  destruct (showImmediately_spec _ _ _ He) as (Hlen1 & Hshown1 & Hkeep1).
  cbn [forEach]. unfold bind. rewrite (liftDom_showImmediately _ _ _ He).
  rewrite (showImmediately_eq _ _ _ He) in Hlen1, Hshown1, Hkeep1.
  simpl in Hlen1, Hshown1, Hkeep1.
  set (w1 := {| this := this w; dom := _; documentListeners := _ |}).
  assert (Forall (λ i0, i0 < length (dom w1)) l) as Hvalid1
    by (unfold w1; simpl; by rewrite Hlen1).
  destruct (IH w1 Hvalid1) as (Hn & Hthis & Hls & Hlen & Hin & Hkeep).
  cbv zeta. split; [exact Hn|]. split; [exact Hthis|]. split; [exact Hls|].
  split; [rewrite Hlen; exact Hlen1|]. split.
  + intros j [->|Hj]%elem_of_cons; [by apply Hkeep|by apply Hin].
  + intros j Hj. apply Hkeep. unfold w1. simpl. by apply Hkeep1.
Qed.

End RevealFacts.

(** ** Monotonicity of the revealed state *)

Section Monotonic.
Import Animations Samples.

(** Invariants of the instance: a property [P] of the fields that the
    field updates of the methods keep is kept by every operation. *)
Section Invariant.
Variable P : scrollAnimations → Prop.
Hypothesis P_reveal : ∀ t element, P t → P (withRevealed element t).
Hypothesis P_create : ∀ t o,
  P t → prefersReducedMotion t = false → P (withObserver (Some o) t).
Hypothesis P_update : ∀ t o o',
  P t → observer t = Some o → P (withObserver (Some o') t).
Hypothesis P_disconnect : ∀ t,
  P t → P (withObserver (disconnected <$> observer t) t).

Lemma preserves_ret {A} (a : A) : preservesThis P (ret a).
Proof using Type. by intros w. Qed.

Lemma preserves_throw {A} (e : exn) : preservesThis P (@throw world A e).
Proof using Type. by intros w. Qed.

Lemma preserves_bind {A B} (m : M world A) (k : A → M world B) :
preservesThis P m → (∀ a, preservesThis P (k a)) → preservesThis P (bind m k).
Proof using Type.
intros Hm Hk w HP. unfold bind. specialize (Hm w HP).
destruct (m w) as [w1 [a|e]]; simpl in *; [|done]. by apply Hk.
Qed.

(** After [get] the continuation runs in the state it was given. *)
Lemma preserves_get_bind {B} (k : world → M world B) :
(∀ w, P (this w) → P (this (fst (k w w)))) → preservesThis P (bind get k).
Proof using Type. intros Hk w HP. by apply Hk. Qed.

Lemma preserves_liftDom {A} (m : M document A) : preservesThis P (liftDom m).
Proof using Type. intros w HP. unfold liftDom. by destruct (m (dom w)). Qed.

Lemma preserves_forEach {A} (l : list A) (f : A → M world unit) :
(∀ a, preservesThis P (f a)) → preservesThis P (forEach l f).
Proof using Type.
intros Hf. induction l as [|a l IH]; [apply preserves_ret|].
apply preserves_bind; [apply Hf|]. intros _. exact IH.
Qed.

Lemma preserves_forEachIndexed {A} (l : list A) (k : nat)
  (f : A → nat → M world unit) :
(∀ a i, preservesThis P (f a i)) → preservesThis P (forEachIndexed l k f).
Proof using Type.
intros Hf. revert k. induction l as [|a l IH]; intros k; [apply preserves_ret|].
apply preserves_bind; [apply Hf|]. intros _. apply IH.
Qed.

Lemma preserves_handleIntersection (entries : list intersectionObserverEntry) :
preservesThis P (handleIntersection entries).
Proof using P_reveal.
apply preserves_forEach. intros entry. apply preserves_get_bind. intros w HP.
destruct (_ && _); [|done].
apply (preserves_bind (liftDom (triggerAnimation (target entry))));
  [apply preserves_liftDom| |exact HP].
intros _ w' HP'. by apply (P_reveal (this w') (target entry)).
Qed.

Lemma preserves_observe (element : nat) : preservesThis P (observe element).
Proof using P_update.
apply preserves_get_bind. intros w HP.
destruct (observer (this w)) as [o|] eqn:Eo; [|done].
by apply (P_update (this w) o).
Qed.

Lemma preserves_observeElements : preservesThis P observeElements.
Proof using P_update.
apply preserves_get_bind. intros w HP. revert HP.
apply (preserves_forEach _ _). intros element.
apply preserves_get_bind. intros w' HP'.
destruct (closest _ _ _); [done|]. by apply preserves_observe.
Qed.

Lemma preserves_disableAnimations : preservesThis P disableAnimations.
Proof using Type.
apply preserves_get_bind. intros w HP. revert HP.
apply (preserves_forEach _ _). intros element. apply preserves_liftDom.
Qed.

Lemma preserves_init : preservesThis P init.
Proof using P_create P_update.
apply preserves_get_bind. intros w HP.
destruct (prefersReducedMotion (this w)) eqn:Erm;
  [by apply preserves_disableAnimations|].
erewrite bind_Normal; [|reflexivity].
apply (preserves_bind observeElements); [apply preserves_observeElements| |].
- intros _ w' HP'. exact HP'.
- simpl. by apply P_create.
Qed.

Lemma preserves_run (op : operation) : preservesThis P (run op).
Proof using P_reveal P_create P_update P_disconnect.
destruct op; simpl.
- apply preserves_init.
- apply preserves_observeElements.
- apply preserves_handleIntersection.
- apply preserves_liftDom.
- apply preserves_liftDom.
- apply preserves_disableAnimations.
- apply preserves_forEachIndexed. intros element index.
  apply preserves_get_bind. intros w. apply preserves_liftDom.
- intros w HP. by apply P_disconnect.
- apply preserves_get_bind. intros w HP.
  destruct (observer (this w)); [by apply preserves_handleIntersection|done].
Qed.

Lemma preserves_runAll (ops : list operation) (w : world) :
P (this w) → P (this (runAll ops w)).
Proof using P_reveal P_create P_update P_disconnect.
revert w. induction ops as [|op ops IH]; intros w HP; [done|].
simpl. apply IH. by apply preserves_run.
Qed.

End Invariant.


(** No operation creates an observer once the instance was initialised
    under the reduced-motion preference. *)
Lemma runAll_reducedMotion (ops : list operation) (w : world) :
reducedMotionState (this w) → reducedMotionState (this (runAll ops w)).
Proof.
apply (preserves_runAll reducedMotionState).
- by intros t element [? ?].
- intros t o [Hrm _] Hno. congruence.
- intros t o o' [_ Hnone] Hsome. congruence.
- intros t [Hrm Hnone]. split; [done|]. simpl. by rewrite Hnone.
Qed.




Lemma handleIntersection_first (w : world) (element : nat) (d' : document) :
revealed w element = false →
triggerAnimation element (dom w) = (d', Normal tt) →
handleIntersection [{| target := element; isIntersecting := true |}] w
= ({| this := withRevealed element (this w);
      dom := d';
      documentListeners := documentListeners w |}, Normal tt).
Proof.
intros Hrev Htrig. unfold handleIntersection. cbn [forEach].
unfold bind, get, liftDom, setThis, modify, ret. simpl.
unfold revealed in Hrev. rewrite Hrev. simpl. by rewrite Htrig.
Qed.



End Monotonic.

(** ** The contact form *)

Section FormFacts.
Import Forms.

Lemma sameSubmission_refl (f : contactForm) : sameSubmission f f.
Proof. by repeat split. Qed.

Lemma sameSubmission_trans (f1 f2 f3 : contactForm) :
sameSubmission f1 f2 → sameSubmission f2 f3 → sameSubmission f1 f3.
Proof.
intros (Hb & Hs & Hsub & Hv) (Hb' & Hs' & Hsub' & Hv').
repeat split; congruence.
Qed.

Lemma setErrorText_frame (k : fieldName) (text : string) (f : contactForm) :
sameSubmission f (fst (setErrorText k text f)).
Proof.
unfold setErrorText, bind, get. simpl.
destruct (errorText f k); by repeat split.
Qed.

Lemma showFieldError_frame (k : fieldName) (msg : string) (f : contactForm) :
sameSubmission f (fst (showFieldError k msg f)).
Proof.
unfold showFieldError, bind, setField, modify. simpl.
eapply sameSubmission_trans; [|apply setErrorText_frame].
repeat split; try done. intros k'. simpl. by destruct (decide (k' = k)).
Qed.

Lemma clearFieldError_frame (k : fieldName) (f : contactForm) :
sameSubmission f (fst (clearFieldError k f)).
Proof.
unfold clearFieldError, bind, setField, modify. simpl.
eapply sameSubmission_trans; [|apply setErrorText_frame].
repeat split; try done. intros k'. simpl. by destruct (decide (k' = k)).
Qed.

Lemma then_ret_spec (m : M contactForm unit) (b : bool) (f : contactForm) :
fst ((m >> ret b) f) = fst (m f)
∧ ∀ b', snd ((m >> ret b) f) = Normal b' → b' = b.
Proof.
unfold bind, ret. destruct (m f) as [f' [[]|e]]; simpl; split; try done.
by intros b' [= <-].
Qed.

Lemma validateField_eq (k : fieldName) (f : contactForm) :
validateField k f =
(let v := trim (value (fields f k)) in
 if bool_decide (v = []) then
   showFieldError k "This field is required" >> ret false
 else if bool_decide (k = email) && negb (validateEmail v) then
   showFieldError k "Please enter a valid email address" >> ret false
 else if bool_decide (k = message) && (length v <? 10) then
   showFieldError k "Message must be at least 10 characters" >> ret false
 else
   clearFieldError k >> ret true) f.
Proof. reflexivity. Qed.

Lemma validateField_spec (k : fieldName) (f : contactForm) :
sameSubmission f (fst (validateField k f))
∧ ∀ b, snd (validateField k f) = Normal b → b = fieldValid f k.
Proof.
rewrite validateField_eq. unfold fieldValid. cbv zeta.
destruct (bool_decide (trim (value (fields f k)) = [])); simpl.
{ destruct (then_ret_spec (showFieldError k "This field is required") false f)
    as [-> Hb]. split; [apply showFieldError_frame|exact Hb]. }
destruct (bool_decide (k = email) && negb (validateEmail _)); simpl.
{ destruct (then_ret_spec
    (showFieldError k "Please enter a valid email address") false f) as [-> Hb].
  split; [apply showFieldError_frame|exact Hb]. }
destruct (bool_decide (k = message) && (length _ <? 10)); simpl.
{ destruct (then_ret_spec
    (showFieldError k "Message must be at least 10 characters") false f)
    as [-> Hb].
  split; [apply showFieldError_frame|exact Hb]. }
destruct (then_ret_spec (clearFieldError k) true f) as [-> Hb].
split; [apply clearFieldError_frame|exact Hb].
Qed.

Lemma fieldValid_sameSubmission (f f' : contactForm) (k : fieldName) :
sameSubmission f f' → fieldValid f' k = fieldValid f k.
Proof. intros (_ & _ & _ & Hv). unfold fieldValid. by rewrite Hv. Qed.

Lemma forallb_fieldValid_same (f f' : contactForm) (ks : list fieldName) :
sameSubmission f f' → forallb (fieldValid f') ks = forallb (fieldValid f) ks.
Proof.
intros H. induction ks as [|k ks IH]; [done|].
simpl. by rewrite IH, (fieldValid_sameSubmission _ _ _ H).
Qed.

Lemma validateEach_spec (ks : list fieldName) (isValid : bool) (f : contactForm) :
sameSubmission f (fst (validateEach ks isValid f))
∧ ∀ b, snd (validateEach ks isValid f) = Normal b →
       b = isValid && forallb (fieldValid f) ks.
Proof.
revert isValid f. induction ks as [|k ks IH]; intros isValid f.
- simpl. split; [apply sameSubmission_refl|].
  intros b [= <-]. by rewrite andb_true_r.
- cbn [validateEach forallb]. unfold bind.
  destruct (validateField_spec k f) as [Hframe Hok].
  destruct (validateField k f) as [f1 [ok|e]]; simpl in *; [|by split].
  destruct (IH (if negb ok then false else isValid) f1) as [Hframe' Hb].
  split; [by eapply sameSubmission_trans|].
  intros b Hn. rewrite (Hb b Hn), (Hok ok eq_refl).
  rewrite (forallb_fieldValid_same _ _ ks Hframe).
  by destruct (fieldValid f k), isValid.
Qed.

(** With a field that fails validation [handleSubmit] stops after
    [validateAllFields]. *)
Lemma handleSubmit_invalid (resolves : bool) (f : contactForm) :
forallb (fieldValid f) fieldNames = false →
sameSubmission f (exec (handleSubmit resolves) f).
Proof.
intros Hinvalid. unfold exec, handleSubmit. unfold bind at 1.
unfold preventDefault at 1, modify at 1.
set (f0 := {| fields := fields f; errorText := _; submitButton := _;
              statusElement := _; submissions := _; defaultPrevented := true |}).
assert (sameSubmission f f0) as H0 by by repeat split.
unfold bind at 1, validateAllFields.
destruct (validateEach_spec fieldNames true f0) as [Hframe Hb].
destruct (validateEach fieldNames true f0) as [f1 [ok|e]]; cbn [fst snd] in *.
- rewrite (Hb ok eq_refl), (forallb_fieldValid_same _ _ _ H0), Hinvalid.
  simpl. by eapply sameSubmission_trans.
- by eapply sameSubmission_trans.
Qed.

Lemma forallb_fieldNames (f : contactForm) :
forallb (fieldValid f) fieldNames = true ↔
(∀ k, trim (value (fields f k)) ≠ [])
∧ validateEmail (trim (value (fields f email))) = true
∧ 10 ≤ length (trim (value (fields f message))).
Proof.
unfold fieldNames, fieldValid. cbn [forallb].
rewrite !(bool_decide_eq_false_2 (name = _)) by done.
rewrite (bool_decide_eq_false_2 (email = message)) by done.
rewrite (bool_decide_eq_false_2 (message = email)) by done.
rewrite (bool_decide_eq_true_2 (email = email)) by done.
rewrite (bool_decide_eq_true_2 (message = message)) by done.
cbn [andb negb]. rewrite !andb_true_r.
destruct (Nat.ltb_spec (length (trim (value (fields f message)))) 10) as [Hlt|Hge];
  destruct (validateEmail (trim (value (fields f email)))) eqn:Ev;
  repeat case_bool_decide; cbn [andb negb];
  (split;
   [intros Htrue; try done; (split; [by intros []|split; [done|lia]])
   |intros (Hne & Hv & Hlen); try done; try lia; exfalso;
    first [by eapply (Hne name)|by eapply (Hne email)|by eapply (Hne message)]]).
Qed.

(** C10. When a field is empty once trimmed, or the trimmed e-mail does not
    match the regular expression, or the trimmed message has fewer than 10
    characters, [handleSubmit] returns without calling [submitForm]: no
    submission is recorded, and the submit button and the status element
    are as they were.  So a submission is made only when the three fields
    pass validation. *)
Theorem invalid_form_is_not_submitted (f : contactForm) (resolves : bool) :
(∃ k, trim (value (fields f k)) = [])
∨ validateEmail (trim (value (fields f email))) = false
∨ length (trim (value (fields f message))) < 10 →
submissions (exec (handleSubmit resolves) f) = submissions f
∧ submitButton (exec (handleSubmit resolves) f) = submitButton f
∧ statusElement (exec (handleSubmit resolves) f) = statusElement f.
Proof.
intros Hinvalid.
assert (forallb (fieldValid f) fieldNames = false) as Hfalse.
{ apply not_true_is_false. rewrite forallb_fieldNames.
  intros (Hne & Hv & Hlen). destruct Hinvalid as [[k Hk]|[He|Hm]].
  - by apply (Hne k).
  - congruence.
  - lia. }
destruct (handleSubmit_invalid resolves f Hfalse) as (Hb & Hs & Hsub & _).
by repeat split.
Qed.

Lemma invalid_form_is_not_submitted_witness :
validateEmail (trim (codeUnits " guest@example ")) = false
∧ submissions
    (exec (handleSubmit true)
       (formWith "Asha" " guest@example " "We will be there, see you soon")) = [].
Proof.
split; [reflexivity|].
refine (proj1 (invalid_form_is_not_submitted
  (formWith "Asha" " guest@example " "We will be there, see you soon") true _)).
right. left. reflexivity.
Defined.

Example scenario_valid_form_is_submitted :
let f := exec (handleSubmit true)
           (formWith "Asha" "guest@example.org" "We will be there, see you soon") in
length (submissions f) = 1
∧ (className <$> statusElement f) = Some "form-status success"
∧ (disabled <$> submitButton f) = Some false.
Proof. by vm_compute. Qed.

Example scenario_submission_fails :
let f := exec (handleSubmit false)
           (formWith "Asha" "guest@example.org" "We will be there, see you soon") in
length (submissions f) = 1
∧ (className <$> statusElement f) = Some "form-status error"
∧ (disabled <$> submitButton f) = Some false.
Proof. by vm_compute. Qed.

Example scenario_validateEmail :
validateEmail (codeUnits "a@b.c") = true
∧ validateEmail (codeUnits "first.last@mail.example.org") = true
∧ validateEmail (codeUnits "a@b") = false
∧ validateEmail (codeUnits "a b@c.d") = false
∧ validateEmail (codeUnits "a@@b.c") = false
∧ validateEmail (codeUnits "@b.c") = false
∧ validateEmail (codeUnits "a@b.") = false.
Proof. by vm_compute. Qed.

Example scenario_short_message :
let f := exec (handleSubmit true)
           (formWith "Asha" "guest@example.org" "    See you    ") in
submissions f = []
∧ errorText f message = Some "Message must be at least 10 characters"
∧ fieldClassList (fields f message) = ["error"]
∧ errorText f name = Some ""
∧ (disabled <$> submitButton f) = Some false.
Proof. by vm_compute. Qed.

End FormFacts.

Section ReducedMotion.
Import Animations Samples.

(** C4. When the platform reports the reduced-motion preference to the
    constructor, [init] completes by making every element that matches the
    animation selector visible at once (the [visible] class, opacity 1, no
    transform), the tracked elements among them; it creates no observer and
    adds no listener.  No later operation of the controller creates an
    observer either, so at no time is a target observed or an entry
    delivered to the instance. *)
Theorem reduced_motion_shows_all_and_observes_nothing (o : options) (d : document) :
let w := construct o true d in
let w' := exec init w in
snd (init w) = Normal tt
∧ Forall (shownImmediately (dom w')) (querySelectorAll d animatedSel)
∧ Forall (shownImmediately (dom w')) (trackedElements d)
∧ observer (this w') = None
∧ observedTargets w' = []
∧ documentListeners w' = []
∧ ∀ ops entries,
    observer (this (runAll ops w')) = None
    ∧ observedTargets (runAll ops w') = []
    ∧ deliver entries (runAll ops w') = (runAll ops w', Normal tt).
Proof.
intros w w'. subst w'. unfold exec, init, bind, get. simpl.
unfold disableAnimations, bind, get. simpl.
destruct (disableLoop_spec (querySelectorAll d animatedSel) w)
  as (Hn & Hthis & Hls & Hlen & Hin & _).
{ apply Forall_forall. intros i. apply querySelectorAll_lt. }
fold w. split; [exact Hn|].
assert (Forall
  (shownImmediately
     (dom (forEach (querySelectorAll d animatedSel)
             (λ element, liftDom (showImmediately element)) w).1))
  (querySelectorAll d animatedSel)) as Hall
  by (apply Forall_forall; exact Hin).
split; [exact Hall|]. split.
- unfold trackedElements. apply Forall_forall.
  intros i [_ Hi]%list_elem_of_filter. by apply Hin.
- assert (observer (this (forEach (querySelectorAll d animatedSel)
             (λ element, liftDom (showImmediately element)) w).1) = None) as Hobs
    by (by rewrite Hthis).
  split; [exact Hobs|]. split; [unfold observedTargets; by rewrite Hobs|].
  split; [by rewrite Hls|].
  intros ops entries.
  destruct (runAll_reducedMotion ops
    (forEach (querySelectorAll d animatedSel)
       (λ element, liftDom (showImmediately element)) w).1) as [_ Hnone].
  { split; [by rewrite Hthis|exact Hobs]. }
  split; [exact Hnone|]. split; [unfold observedTargets; by rewrite Hnone|].
  unfold deliver, bind, get. simpl. by rewrite Hnone.
Qed.

Example scenario_reduced_motion :
querySelectorAll revealPage animatedSel = [2; 3; 4; 5; 6; 7; 8; 9]
∧ trackedElements revealPage = [3; 4; 5; 6; 7; 8; 9]
∧ filter (λ i, matchesAt (dom (exec init (construct siteOptions true revealPage)))
                 [SelClass "visible"] i = true) (seq 0 10)
  = [2; 3; 4; 5; 6; 7; 8; 9]
∧ observedTargets (exec init (construct siteOptions false revealPage))
  = [3; 4; 5; 6; 7; 8; 9].
Proof. by vm_compute. Qed.

End ReducedMotion.

(** * Further properties of the scripts *)

(** ** What the reveal controller does to the document *)

Section DomInvariant.
Import Animations Frames.

Variable P : document → Prop.
Variable removable : string → Prop.
Hypothesis P_style : ∀ d i p v, P d → P (alter (withStyle p v) i d).
Hypothesis P_add : ∀ d i c, P d → P (alter (withClassList (addToken c)) i d).
Hypothesis P_remove : ∀ d i c,
  removable c → P d → P (alter (withClassList (removeToken c)) i d).
Hypothesis removable_up : removable "animate-fade-in-up".
Hypothesis removable_fade : removable "animate-fade-in".
Hypothesis removable_custom : ∀ t, removable ("animate-" +:+ t).

Lemma pdoc_ret {A} (a : A) : preservesDoc P (ret a).
Proof using Type. by intros d. Qed.

Lemma pdoc_bind {A B} (m : M document A) (k : A → M document B) :
preservesDoc P m → (∀ a, preservesDoc P (k a)) → preservesDoc P (bind m k).
Proof using Type.
intros Hm Hk d HP. unfold bind. specialize (Hm d HP).
destruct (m d) as [d1 [a|e]]; simpl in *; [|done]. by apply Hk.
Qed.

Lemma pdoc_deref (r : ref) : preservesDoc P (deref r).
Proof using Type.
intros d HP. unfold deref. destruct r as [i|]; [|done]. by destruct (d !! i).
Qed.

Lemma pdoc_checkToken (c : string) : preservesDoc P (checkToken c).
Proof using Type.
intros d HP. unfold checkToken. case_bool_decide; [done|].
by destruct (hasAsciiWhitespace c).
Qed.

Lemma pdoc_style_set (r : ref) (p v : string) : preservesDoc P (style_set r p v).
Proof using P_style.
apply pdoc_bind; [apply pdoc_deref|]. intros [i e] d HP. by apply P_style.
Qed.

Lemma pdoc_classList_add (r : ref) (c : string) : preservesDoc P (classList_add r c).
Proof using P_add.
apply pdoc_bind; [apply pdoc_deref|]. intros [i e].
apply pdoc_bind; [apply pdoc_checkToken|]. intros _ d HP. by apply P_add.
Qed.

Lemma pdoc_classList_remove (r : ref) (c : string) :
removable c → preservesDoc P (classList_remove r c).
Proof using P_remove.
intros Hc. apply pdoc_bind; [apply pdoc_deref|]. intros [i e].
apply pdoc_bind; [apply pdoc_checkToken|]. intros _ d HP. by apply P_remove.
Qed.

Lemma pdoc_classList_contains (r : ref) (c : string) :
preservesDoc P (classList_contains r c).
Proof using Type.
apply pdoc_bind; [apply pdoc_deref|]. intros [i e]. apply pdoc_ret.
Qed.

Lemma pdoc_getAttribute (r : ref) (a : string) : preservesDoc P (getAttribute r a).
Proof using Type.
apply pdoc_bind; [apply pdoc_deref|]. intros [i e]. apply pdoc_ret.
Qed.

Lemma pdoc_triggerAnimation (element : nat) : preservesDoc P (triggerAnimation element).
Proof using P_add.
apply pdoc_bind; [apply pdoc_classList_contains|]. intros up.
apply pdoc_bind; [destruct up; [apply pdoc_classList_add|apply pdoc_ret]|].
intros _. apply pdoc_bind; [apply pdoc_getAttribute|]. intros animationType.
destruct (truthy animationType); [|apply pdoc_ret].
apply pdoc_bind; [apply pdoc_classList_add|]. intros _. apply pdoc_classList_add.
Qed.

Lemma pdoc_animationEndBlock (element : nat) (c : string) :
removable c →
preservesDoc P
  (style_set (Some element) "opacity" "1" >>
   style_set (Some element) "transform" "translateY(0)" >>
   classList_remove (Some element) c >>
   classList_add (Some element) "animation-complete").
Proof using P_style P_add P_remove.
intros Hc. apply pdoc_bind; [apply pdoc_style_set|]. intros _.
apply pdoc_bind; [apply pdoc_style_set|]. intros _.
apply pdoc_bind; [by apply pdoc_classList_remove|]. intros _.
apply pdoc_classList_add.
Qed.

Lemma pdoc_handleAnimationEnd (element : nat) :
preservesDoc P (handleAnimationEnd element).
Proof using P_style P_add P_remove removable_up removable_fade removable_custom.
apply pdoc_bind; [apply pdoc_classList_contains|]. intros up.
apply pdoc_bind;
  [destruct up; [by apply pdoc_animationEndBlock|apply pdoc_ret]|].
intros _. apply pdoc_bind; [apply pdoc_classList_contains|]. intros fade.
apply pdoc_bind;
  [destruct fade; [by apply pdoc_animationEndBlock|apply pdoc_ret]|].
intros _. apply pdoc_bind; [apply pdoc_getAttribute|]. intros animationType.
destruct (truthy animationType); [|apply pdoc_ret].
apply pdoc_bind; [by apply pdoc_classList_remove|]. intros _.
apply pdoc_classList_add.
Qed.

Lemma pdoc_showImmediately (element : nat) : preservesDoc P (showImmediately element).
Proof using P_style P_add.
apply pdoc_bind; [apply pdoc_style_set|]. intros _.
apply pdoc_bind; [apply pdoc_style_set|]. intros _. apply pdoc_classList_add.
Qed.

Lemma pdom_ret {A} (a : A) : preservesDom P (ret a).
Proof using Type. by intros w. Qed.

Lemma pdom_bind {A B} (m : M world A) (k : A → M world B) :
preservesDom P m → (∀ a, preservesDom P (k a)) → preservesDom P (bind m k).
Proof using Type.
intros Hm Hk w HP. unfold bind. specialize (Hm w HP).
destruct (m w) as [w1 [a|e]]; simpl in *; [|done]. by apply Hk.
Qed.

Lemma pdom_get : preservesDom P get.
Proof using Type. by intros w. Qed.

Lemma pdom_liftDom {A} (m : M document A) : preservesDoc P m → preservesDom P (liftDom m).
Proof using Type.
intros Hm w HP. unfold liftDom. specialize (Hm (dom w) HP).
by destruct (m (dom w)).
Qed.

Lemma pdom_setThis (f : scrollAnimations → scrollAnimations) : preservesDom P (setThis f).
Proof using Type. by intros w. Qed.

Lemma pdom_forEach {A} (l : list A) (f : A → M world unit) :
(∀ a, preservesDom P (f a)) → preservesDom P (forEach l f).
Proof using Type.
intros Hf. induction l as [|a l IH]; [apply pdom_ret|].
apply pdom_bind; [apply Hf|]. intros _. exact IH.
Qed.

Lemma pdom_forEachIndexed {A} (l : list A) (k : nat) (f : A → nat → M world unit) :
(∀ a i, preservesDom P (f a i)) → preservesDom P (forEachIndexed l k f).
Proof using Type.
intros Hf. revert k. induction l as [|a l IH]; intros k; [apply pdom_ret|].
apply pdom_bind; [apply Hf|]. intros _. apply IH.
Qed.

Lemma pdom_handleIntersection (entries : list intersectionObserverEntry) :
preservesDom P (handleIntersection entries).
Proof using P_add.
apply pdom_forEach. intros entry. apply pdom_bind; [apply pdom_get|]. intros w.
destruct (_ && _); [|apply pdom_ret].
apply pdom_bind; [apply pdom_liftDom, pdoc_triggerAnimation|].
intros _. apply pdom_setThis.
Qed.

Lemma pdom_observeElements : preservesDom P observeElements.
Proof using Type.
apply pdom_bind; [apply pdom_get|]. intros w. apply pdom_forEach. intros element.
apply pdom_bind; [apply pdom_get|]. intros w'.
destruct (closest _ _ _); [apply pdom_ret|].
apply pdom_bind; [apply pdom_get|]. intros w''.
destruct (observer (this w'')); [apply pdom_setThis|by intros ?].
Qed.

Lemma pdom_disableAnimations : preservesDom P disableAnimations.
Proof using P_style P_add.
apply pdom_bind; [apply pdom_get|]. intros w. apply pdom_forEach. intros element.
apply pdom_liftDom, pdoc_showImmediately.
Qed.

Lemma pdom_run (op : operation) : preservesDom P (run op).
Proof using P_style P_add P_remove removable_up removable_fade removable_custom.
destruct op; simpl.
- apply pdom_bind; [apply pdom_get|]. intros w.
  destruct (prefersReducedMotion (this w)); [apply pdom_disableAnimations|].
  apply pdom_bind; [apply pdom_setThis|]. intros _.
  apply pdom_bind; [apply pdom_observeElements|]. intros _. by intros w'.
- apply pdom_observeElements.
- apply pdom_handleIntersection.
- apply pdom_liftDom, pdoc_triggerAnimation.
- apply pdom_liftDom, pdoc_handleAnimationEnd.
- apply pdom_disableAnimations.
- apply pdom_forEachIndexed. intros element index.
  apply pdom_bind; [apply pdom_get|]. intros w.
  apply pdom_liftDom, pdoc_style_set.
- apply pdom_setThis.
- apply pdom_bind; [apply pdom_get|]. intros w.
  destruct (observer (this w)); [apply pdom_handleIntersection|apply pdom_ret].
Qed.

Lemma pdom_runAll (ops : list operation) (w : world) :
P (dom w) → P (dom (runAll ops w)).
Proof using P_style P_add P_remove removable_up removable_fade removable_custom.
revert w. induction ops as [|op ops IH]; intros w HP; [done|].
simpl. apply IH. by apply pdom_run.
Qed.

End DomInvariant.

Section RevealDocument.
Import Animations Frames Samples.

Lemma matchesAt_class_alter_mono (d : document) (f : list string → list string)
  (c : string) (i j : nat) :
(∀ l, c ∈ l → c ∈ f l) →
matchesAt d [SelClass c] j = true →
matchesAt (alter (withClassList f) i d) [SelClass c] j = true.
Proof.
intros Hf. unfold matchesAt. destruct (decide (i = j)) as [->|Hne].
- rewrite list_lookup_alter_eq. destruct (d !! j) as [e|]; [|done]. simpl.
  rewrite !orb_false_r. unfold hasClass. simpl.
  intros H%bool_decide_eq_true. apply bool_decide_eq_true_2. by apply Hf.
- by rewrite list_lookup_alter_ne.
Qed.

(** X1. The class [visible] is never taken away: an element that has it
    keeps it under every sequence of operations of the controller,
    [handleAnimationEnd] and [destroy] included. *)
Theorem visible_is_never_removed (ops : list operation) (w : world) (j : nat) :
isVisible (dom w) j → isVisible (dom (runAll ops w)) j.
Proof.
apply (pdom_runAll (λ d, isVisible d j) (λ c, c ≠ "visible")); try done.
- intros d i p v. unfold isVisible. by rewrite matchesAt_alter_style.
- intros d i c. apply matchesAt_class_alter_mono. intros l Hl.
  unfold addToken. case_bool_decide; [done|]. apply elem_of_app. by left.
- intros d i c Hc. apply matchesAt_class_alter_mono. intros l Hl.
  unfold removeToken. apply list_elem_of_filter. by split.
Qed.

Lemma visible_is_never_removed_witness :
let w := exec (handleIntersection [{| target := 3; isIntersecting := true |}])
           (exec init (construct siteOptions false revealPage)) in
isVisible (dom w) 3
∧ isVisible (dom (runAll [HandleAnimationEnd 3; Destroy; Init;
                          ApplyStaggeredDelays [3; 4] None] w)) 3.
Proof.
intros w. assert (isVisible (dom w) 3) as H by reflexivity.
split; [exact H|].
exact (visible_is_never_removed
  [HandleAnimationEnd 3; Destroy; Init; ApplyStaggeredDelays [3; 4] None] w 3 H).
Defined.

Lemma markupOf_alter (d : document) (f : element → element) (i : nat) :
(∀ e, parentElement (f e) = parentElement e ∧ attributes (f e) = attributes e) →
markupOf (alter f i d) = markupOf d.
Proof.
intros Hf. unfold markupOf.
apply list_eq. intros k. rewrite !list_lookup_fmap.
destruct (decide (i = k)) as [->|Hne].
- rewrite list_lookup_alter_eq.
  destruct (d !! k) as [e|]; [|done]. simpl.
  by destruct (Hf e) as [-> ->].
- by rewrite list_lookup_alter_ne.
Qed.

(** X2. The controller only writes class lists and inline styles: no
    sequence of its operations changes the number of elements, the parent
    or any attribute of an element. *)
Theorem controller_keeps_markup (ops : list operation) (w : world) :
markupOf (dom (runAll ops w)) = markupOf (dom w).
Proof.
apply (pdom_runAll (λ d, markupOf d = markupOf (dom w)) (λ _, True)); try done.
- intros d i p v <-. by apply markupOf_alter.
- intros d i c <-. by apply markupOf_alter.
- intros d i c _ <-. by apply markupOf_alter.
Qed.

End RevealDocument.

Section RevealEdges.
Import Animations Frames Samples.

Lemma world_eta (w : world) :
{| this := this w; dom := dom w; documentListeners := documentListeners w |} = w.
Proof. by destruct w. Qed.

Lemma withObserver_same (t : scrollAnimations) (ob : intersectionObserver) :
observer t = Some ob →
withObserver
  (Some {| observerThreshold := observerThreshold ob;
           observerRootMargin := observerRootMargin ob;
           observed := observed ob |}) t = t.
Proof. destruct t as [c o a p], ob. simpl. by intros ->. Qed.

(** The loop of [observeElements], started with an observer that observes
    none of the elements of the list. *)
Lemma observeLoop_spec (l : list nat) (w : world) (ob : intersectionObserver) :
observer (this w) = Some ob → NoDup l → (∀ e, e ∈ l → e ∉ observed ob) →
forEach l (λ element,
  let* w' := get in
  match closest (dom w') element heroSel with
  | Some _ => ret tt
  | None => observe element
  end) w
= ({| this := withObserver
         (Some {| observerThreshold := observerThreshold ob;
                  observerRootMargin := observerRootMargin ob;
                  observed := observed ob
                    ++ filter (λ i, closest (dom w) i heroSel = None) l |})
         (this w);
      dom := dom w;
      documentListeners := documentListeners w |}, Normal tt).
Proof.
revert w ob. induction l as [|e l IH]; intros w ob Hob Hnd Hfresh.
- simpl. rewrite app_nil_r, (withObserver_same _ _ Hob). by rewrite world_eta.
- apply NoDup_cons in Hnd as [Hnotin Hnd]. cbn [forEach]. unfold bind at 1.
  unfold bind at 1, get at 1. rewrite filter_cons.
  destruct (closest (dom w) e heroSel) as [hero|] eqn:Ec.
  + rewrite decide_False by done. unfold ret at 1.
    apply IH; [done|done|]. intros e' He'. apply Hfresh. by right.
  + rewrite decide_True by done. unfold observe, bind, get. rewrite Hob.
    unfold setThis, modify.
    rewrite (IH _ (observing e ob)); [| |done|].
    * simpl. rewrite bool_decide_eq_false_2 by (apply Hfresh; by left).
      by rewrite <- app_assoc.
    * reflexivity.
    * intros e' He'. simpl.
      rewrite bool_decide_eq_false_2 by (apply Hfresh; by left).
      rewrite not_elem_of_app. split; [apply Hfresh; by right|].
      rewrite list_elem_of_singleton. intros ->. done.
Qed.

(** X3. Without the reduced-motion preference, and with a threshold in
    [0, 1] and a root margin of pixel or percentage components, which the
    constructor of the observer accepts, [init] creates an observer
    with the configured threshold and root margin and puts under observation
    exactly the elements that match the animation selector and have no
    [.hero-section] ancestor-or-self, in document order; it adds one
    [animationend] listener and leaves the document untouched. *)
Theorem init_observes_tracked_elements (o : options) (d : document) :
observerAccepts (this_config (constructor o false)) →
init (construct o false d)
= ({| this := withObserver
         (Some {| observerThreshold := threshold (this_config (constructor o false));
                  observerRootMargin := rootMargin (this_config (constructor o false));
                  observed := trackedElements d |})
         (constructor o false);
      dom := d;
      documentListeners := ["animationend"] |}, Normal tt).
Proof.
intros _. unfold init, bind at 1, get at 1. simpl.
erewrite bind_Normal; [|reflexivity].
unfold observeElements. erewrite bind_Normal.
2:{ erewrite bind_Normal; [|reflexivity].
    eapply (observeLoop_spec _ _
      {| observerThreshold := _; observerRootMargin := _; observed := [] |});
      [reflexivity|apply querySelectorAll_NoDup|].
    intros e _. apply not_elem_of_nil. }
reflexivity.
Qed.

Lemma init_observes_tracked_elements_witness :
observedTargets (exec init (construct siteOptions false revealPage))
= trackedElements revealPage
∧ snd (init (construct siteOptions false revealPage)) = Normal tt.
Proof.
assert (observerAccepts (this_config (constructor siteOptions false))) as H.
{ split; [|split]; [vm_compute; discriminate|vm_compute; discriminate|reflexivity]. }
unfold exec. by rewrite (init_observes_tracked_elements siteOptions revealPage H).
Defined.

Lemma triggerAnimation_noop (d : document) (i : nat) (e : element) :
d !! i = Some e → hasClass e "animate-fade-in-up" = false →
truthy (attributes e !! "data-animate") = None →
triggerAnimation i d = (d, Normal tt).
Proof.
intros He Hup Hattr. unfold triggerAnimation.
erewrite bind_Normal; [|by apply classList_contains_valid]. rewrite Hup.
erewrite bind_Normal; [|reflexivity].
erewrite bind_Normal; [|by apply getAttribute_valid]. by rewrite Hattr.
Qed.

(** X4. An element that matches the animation selector only through the
    class [animate-fade-in] (it has neither [animate-fade-in-up] nor a
    non-empty [data-animate]) is recorded as revealed by its first
    intersecting entry, but [triggerAnimation] changes nothing in the
    document: the element does not get the class [visible]. *)
Theorem fade_in_only_is_revealed_without_change (w : world) (i : nat) (e : element) :
dom w !! i = Some e → hasClass e "animate-fade-in-up" = false →
truthy (attributes e !! "data-animate") = None →
revealed w i = false →
handleIntersection [{| target := i; isIntersecting := true |}] w
= ({| this := withRevealed i (this w); dom := dom w;
      documentListeners := documentListeners w |}, Normal tt).
Proof.
intros He Hup Hattr Hrev. apply handleIntersection_first; [done|].
by eapply triggerAnimation_noop.
Qed.

Lemma fade_in_only_is_revealed_without_change_witness :
let w := exec init (construct siteOptions false revealPage) in
let w' := exec (handleIntersection [{| target := 9; isIntersecting := true |}]) w in
9 ∈ observedTargets w ∧ revealed w' 9 = true ∧ dom w' = revealPage.
Proof.
intros w w'. split; [apply (bool_decide_unpack _); vm_compute; exact I|].
subst w'. unfold exec.
rewrite (fade_in_only_is_revealed_without_change w 9
  (el (Some 0) ["footer"; "animate-fade-in"] []) eq_refl eq_refl eq_refl eq_refl).
split; reflexivity.
Defined.

Lemma classList_add_whitespace (d : document) (i : nat) (e : element) (c : string) :
d !! i = Some e → c ≠ "" → hasAsciiWhitespace c = true →
classList_add (Some i) c d = (d, Throw (DOMException "InvalidCharacterError")).
Proof.
intros He Hne Hws. unfold classList_add, bind, deref, checkToken. rewrite He.
by rewrite bool_decide_eq_false_2, Hws.
Qed.

Lemma triggerAnimation_whitespace (d : document) (i : nat) (e : element) (t : string) :
d !! i = Some e → attributes e !! "data-animate" = Some t →
t ≠ "" → hasAsciiWhitespace t = true →
snd (triggerAnimation i d) = Throw (DOMException "InvalidCharacterError").
Proof.
intros He Ht Hne Hws. unfold triggerAnimation.
erewrite bind_Normal; [|by apply classList_contains_valid].
assert (∀ d1 e1, d1 !! i = Some e1 → attributes e1 = attributes e →
  snd ((let* animationType := getAttribute (Some i) "data-animate" in
        match truthy animationType with
        | Some t =>
            classList_add (Some i) ("animate-" +:+ t) >>
            classList_add (Some i) "visible"
        | None => ret tt
        end) d1) = Throw (DOMException "InvalidCharacterError")) as Hrest.
{ intros d1 e1 He1 Hattr.
  erewrite bind_Normal; [|by apply getAttribute_valid]. rewrite Hattr, Ht.
  assert (truthy (Some t) = Some t) as -> by (destruct t; [done|reflexivity]).
  erewrite bind_Throw; [done|].
  by apply (classList_add_whitespace _ _ _ _ He1). }
destruct (hasClass e "animate-fade-in-up").
- erewrite bind_Normal; [|by apply (classList_add_valid _ _ _ _ He)].
  eapply Hrest; [by rewrite list_lookup_alter_eq, He|done].
- erewrite bind_Normal; [|reflexivity]. by eapply Hrest.
Qed.

(** X5. A [data-animate] value that contains white space makes
    [classList.add] throw: the intersection callback ends with an
    [InvalidCharacterError], the target is not recorded as revealed, and
    the entries after it in the same notification are not handled. *)
Theorem whitespace_in_data_animate_aborts (w : world) (i : nat) (e : element)
  (t : string) (rest : list intersectionObserverEntry) :
dom w !! i = Some e → attributes e !! "data-animate" = Some t →
t ≠ "" → hasAsciiWhitespace t = true → revealed w i = false →
let r := handleIntersection ({| target := i; isIntersecting := true |} :: rest) w in
snd r = Throw (DOMException "InvalidCharacterError")
∧ animatedElements (this (fst r)) = animatedElements (this w).
Proof.
intros He Ht Hne Hws Hrev.
pose proof (triggerAnimation_whitespace _ _ _ _ He Ht Hne Hws) as Hthrow.
destruct (triggerAnimation i (dom w)) as [d' c] eqn:Etrig.
simpl in Hthrow. subst c.
assert (handleIntersection ({| target := i; isIntersecting := true |} :: rest) w
        = ({| this := this w; dom := d'; documentListeners := documentListeners w |},
           Throw (DOMException "InvalidCharacterError"))) as Heq.
{ unfold handleIntersection. cbn [forEach]. apply bind_Throw.
  unfold bind, get, liftDom. simpl. unfold revealed in Hrev. rewrite Hrev.
  simpl. by rewrite Etrig. }
cbv zeta. by rewrite Heq.
Qed.

Lemma whitespace_in_data_animate_aborts_witness :
let d := [el None ["card"] [("data-animate", "fade in")];
          el None ["card"; "animate-fade-in-up"] []] in
let w := exec init (construct siteOptions false d) in
let r := handleIntersection [{| target := 0; isIntersecting := true |};
                             {| target := 1; isIntersecting := true |}] w in
snd r = Throw (DOMException "InvalidCharacterError")
∧ revealed (fst r) 0 = false ∧ revealed (fst r) 1 = false.
Proof.
intros d w r.
destruct (whitespace_in_data_animate_aborts w 0
  (el None ["card"] [("data-animate", "fade in")]) "fade in"
  [{| target := 1; isIntersecting := true |}]) as [Hthrow Hsame];
  [reflexivity|reflexivity|done|reflexivity|reflexivity|].
split; [exact Hthrow|]. unfold revealed. subst r. rewrite Hsame.
split; reflexivity.
Defined.

Lemma destroy_effect (w : world) (entries : list intersectionObserverEntry) :
let w' := exec destroy w in
observedTargets w' = []
∧ deliver entries w' = (w', Normal tt)
∧ exec destroy w' = w'
∧ animatedElements (this w') = animatedElements (this w)
∧ dom w' = dom w
∧ documentListeners w' = documentListeners w.
Proof.
destruct w as [[cfg ob revealedSet rm] d ls]. unfold exec, destroy, setThis, modify.
simpl. unfold observedTargets, deliver, bind, get. simpl.
destruct ob as [o|]; simpl; repeat split; try done.
assert (filter (λ entry, target entry ∈ @nil nat) entries = []) as ->; [|done].
induction entries as [|entry entries IH]; [done|].
rewrite filter_cons, decide_False; [exact IH|apply not_elem_of_nil].
Qed.

(** X6. On a page where [init] has run at most once, with options the
    constructor of the observer accepts, so that the instance holds the
    only observer there is: [destroy] empties the set of observed targets,
    so that the platform delivers nothing afterwards; it keeps the revealed
    set and the document, leaves the [animationend] listener in place (the
    function it passes to [removeEventListener] was never added), and
    calling it again changes nothing. *)
Theorem destroy_stops_delivery (o : options) (matchesReducedMotion : bool)
  (d : document) (ops : list operation)
  (entries : list intersectionObserverEntry) :
observerAccepts (this_config (constructor o matchesReducedMotion)) →
length (filter (λ op, isInit op = true) ops) ≤ 1 →
let w := runAll ops (construct o matchesReducedMotion d) in
let w' := exec destroy w in
observedTargets w' = []
∧ deliver entries w' = (w', Normal tt)
∧ exec destroy w' = w'
∧ animatedElements (this w') = animatedElements (this w)
∧ dom w' = dom w
∧ documentListeners w' = documentListeners w.
Proof. intros _ _. apply destroy_effect. Qed.

Lemma destroy_stops_delivery_witness :
let w := runAll [Init; Deliver [{| target := 3; isIntersecting := true |}]]
           (construct siteOptions false revealPage) in
observedTargets w ≠ []
∧ observedTargets (exec destroy w) = []
∧ deliver [{| target := 4; isIntersecting := true |}] (exec destroy w)
  = (exec destroy w, Normal tt).
Proof.
intros w. split; [vm_compute; discriminate|].
destruct (destroy_stops_delivery siteOptions false revealPage
  [Init; Deliver [{| target := 3; isIntersecting := true |}]]
  [{| target := 4; isIntersecting := true |}]) as (H1 & H2 & _).
- split; [|split]; [vm_compute; discriminate|vm_compute; discriminate|reflexivity].
- vm_compute. lia.
- split; [exact H1|exact H2].
Defined.

(** X7. The constructor keeps every value the caller passes, falsy ones
    included, because the spread of the argument comes after the defaults:
    the stagger step is the [animationDelay] that was passed (0 too) and 100
    only when the key is absent, and [applyStaggeredDelays] uses it.  The
    delays are non-negative whole milliseconds that stay below [2 ^ 53]. *)
Theorem configured_step_is_used (o : options) (matchesReducedMotion : bool)
  (d : document) (elements : list nat) (baseDelay : option Z) (i element : nat) :
(0 ≤ default 0 baseDelay)%Z →
(0 ≤ default 100 (opt_animationDelay o))%Z →
(default 0 baseDelay
 + Z.of_nat (length elements) * default 100 (opt_animationDelay o) < 2 ^ 53)%Z →
NoDup elements → Forall (λ e, e < length d) elements →
elements !! i = Some element →
animationDelay (this_config (constructor o matchesReducedMotion))
  = default 100%Z (opt_animationDelay o)
∧ (0 ≤ default 0 baseDelay
        + Z.of_nat i * default 100 (opt_animationDelay o) < 2 ^ 53)%Z
∧ styleAt (dom (exec (applyStaggeredDelays elements baseDelay)
                  (construct o matchesReducedMotion d))) element "animationDelay"
  = Some (numberToString
            (default 0%Z baseDelay
             + Z.of_nat i * default 100%Z (opt_animationDelay o)) +:+ "ms").
Proof.
intros Hbase Hnonneg Hbound Hnd Hvalid Hi.
assert (animationDelay (this_config (constructor o matchesReducedMotion))
        = default 100%Z (opt_animationDelay o)) as Hstep
  by (unfold constructor, orDefault; simpl; by destruct (opt_animationDelay o)).
split; [exact Hstep|]. split.
{ apply lookup_lt_Some in Hi. nia. }
unfold exec, applyStaggeredDelays.
destruct (staggerLoop_spec (default 0%Z baseDelay) elements 0
  (construct o matchesReducedMotion d) Hnd Hvalid) as (_ & _ & _ & Hin & _).
rewrite (Hin i element Hi). unfold delayText.
change (this (construct o matchesReducedMotion d))
  with (constructor o matchesReducedMotion).
by rewrite Hstep.
Qed.

Lemma configured_step_is_used_witness :
styleAt (dom (exec (applyStaggeredDelays [3; 4; 5] (Some 250%Z))
                (construct {| opt_threshold := None; opt_rootMargin := None;
                              opt_animationDelay := Some 0%Z;
                              opt_animationDuration := None |} false revealPage)))
  5 "animationDelay"
= Some "250ms".
Proof.
refine (proj2 (proj2 (configured_step_is_used
  {| opt_threshold := None; opt_rootMargin := None;
     opt_animationDelay := Some 0%Z; opt_animationDuration := None |}
  false revealPage [3; 4; 5] (Some 250%Z) 2 5 _ _ _ _ _ _))).
- vm_compute. discriminate.
- vm_compute. discriminate.
- vm_compute. reflexivity.
- apply (bool_decide_unpack _). vm_compute. exact I.
- apply (bool_decide_unpack _). vm_compute. exact I.
- reflexivity.
Defined.

End RevealEdges.

(** ** The contact form: validation in one pass *)

Section FormValidation.
Import Forms FormsMore.

Lemma handleSubmit_unfold (resolves : bool) :
handleSubmit resolves
= (preventDefault >>
   let* ok := validateAllFields in
   if negb ok then ret tt else submitValidated resolves).
Proof. reflexivity. Qed.

Lemma elem_of_addToken (c : string) (l : list string) : c ∈ addToken c l.
Proof.
unfold addToken. case_bool_decide; [done|]. apply elem_of_app. right. by left.
Qed.

Lemma not_elem_of_removeToken (c : string) (l : list string) : c ∉ removeToken c l.
Proof. unfold removeToken. rewrite list_elem_of_filter. naive_solver. Qed.

(** One call of [validateField] when the error element exists. *)
Lemma validateField_effect (k : fieldName) (f : contactForm) :
is_Some (errorText f k) →
∃ f', validateField k f = (f', Normal (fieldValid f k))
  ∧ (∀ k', k' ≠ k → fields f' k' = fields f k' ∧ errorText f' k' = errorText f k')
  ∧ value (fields f' k) = value (fields f k)
  ∧ (if fieldValid f k then unflagged f' k
     else flagged f' k (validationMessage f k))
  ∧ submitButton f' = submitButton f
  ∧ statusElement f' = statusElement f
  ∧ submissions f' = submissions f.
Proof.
intros [txt Htxt]. rewrite validateField_eq.
unfold fieldValid, validationMessage. cbv zeta.
assert (∀ g msg (b : bool),
  ((setField k g >> setErrorText k msg) >> ret b) f
  = ({| fields := λ k', if decide (k' = k) then g (fields f k') else fields f k';
        errorText := λ k', if decide (k' = k) then Some msg else errorText f k';
        submitButton := submitButton f; statusElement := statusElement f;
        submissions := submissions f; defaultPrevented := defaultPrevented f |},
     Normal b)) as Hrun.
{ intros g msg b. unfold setField, setErrorText, modify, get, ret, bind. simpl.
  by rewrite Htxt. }
destruct (bool_decide (trim (value (fields f k)) = [])); simpl;
  [|destruct (bool_decide (k = email) && negb (validateEmail _)); simpl;
    [|destruct (bool_decide (k = message) && (length _ <? 10)); simpl]].
all: unfold showFieldError, clearFieldError; rewrite Hrun; eexists; split; [done|].
all: simpl; rewrite !decide_True by done; simpl.
all: split; [intros k' Hk'; by rewrite !decide_False by done|].
all: split; [done|].
all: split; [|done].
all: unfold flagged, unflagged; simpl; rewrite !decide_True by done; simpl.
all: split; [first [apply elem_of_addToken|apply not_elem_of_removeToken]|done].
Qed.

Lemma fieldValid_value (f f' : contactForm) (k : fieldName) :
value (fields f' k) = value (fields f k) → fieldValid f' k = fieldValid f k.
Proof. intros H. unfold fieldValid. by rewrite H. Qed.

Lemma validationMessage_value (f f' : contactForm) (k : fieldName) :
value (fields f' k) = value (fields f k) →
validationMessage f' k = validationMessage f k.
Proof. intros H. unfold validationMessage. by rewrite H. Qed.

Lemma validateAllFields_effect (f : contactForm) :
hasErrorElements f →
∃ f', validateAllFields f = (f', Normal (forallb (fieldValid f) fieldNames))
  ∧ (∀ k, value (fields f' k) = value (fields f k)
          ∧ if fieldValid f k then unflagged f' k
            else flagged f' k (validationMessage f k))
  ∧ submitButton f' = submitButton f
  ∧ statusElement f' = statusElement f
  ∧ submissions f' = submissions f.
Proof.
intros Herr. unfold validateAllFields, fieldNames. cbn [validateEach].
destruct (validateField_effect name f (Herr name))
  as (f1 & E1 & Ho1 & Hv1 & Hf1 & Hb1 & Hs1 & Hsub1).
destruct (validateField_effect email f1) as (f2 & E2 & Ho2 & Hv2 & Hf2 & Hb2 & Hs2 & Hsub2).
{ destruct (Ho1 email) as [_ ->]; [done|apply Herr]. }
destruct (validateField_effect message f2)
  as (f3 & E3 & Ho3 & Hv3 & Hf3 & Hb3 & Hs3 & Hsub3).
{ destruct (Ho2 message) as [_ ->]; [done|].
  destruct (Ho1 message) as [_ ->]; [done|apply Herr]. }
destruct (Ho1 email) as [Hfe1 _]; [done|].
destruct (Ho1 message) as [Hfm1 _]; [done|].
destruct (Ho2 message) as [Hfm2 _]; [done|].
destruct (Ho2 name) as [Hfn2 Hen2]; [done|].
destruct (Ho3 name) as [Hfn3 Hen3]; [done|].
destruct (Ho3 email) as [Hfe3 Hee3]; [done|].
assert (fieldValid f1 email = fieldValid f email) as Hve
  by (apply fieldValid_value; by rewrite Hfe1).
assert (fieldValid f2 message = fieldValid f message) as Hvm
  by (apply fieldValid_value; by rewrite Hfm2, Hfm1).
assert (validationMessage f1 email = validationMessage f email) as Hme
  by (apply validationMessage_value; by rewrite Hfe1).
assert (validationMessage f2 message = validationMessage f message) as Hmm
  by (apply validationMessage_value; by rewrite Hfm2, Hfm1).
rewrite Hve, Hme in *. rewrite Hvm, Hmm in *.
exists f3. split.
- erewrite bind_Normal; [|exact E1]. erewrite bind_Normal; [|exact E2].
  erewrite bind_Normal; [|exact E3]. simpl. f_equal. f_equal.
  by destruct (fieldValid f name), (fieldValid f email), (fieldValid f message).
- split; [|repeat split; congruence]. intros [].
  + split; [by rewrite Hfn3, Hfn2|].
    unfold unflagged, flagged in *. rewrite Hfn3, Hfn2, Hen3, Hen2. exact Hf1.
  + split; [by rewrite Hfe3, Hv2, Hfe1|].
    unfold unflagged, flagged in *. rewrite Hfe3, Hee3. exact Hf2.
  + split; [by rewrite Hv3, Hfm2, Hfm1|]. exact Hf3.
Qed.

(** X8. [validateAllFields] does not stop at the first invalid field.  When
    the form has its three error elements, one call checks every field:
    each invalid field ends flagged (class [error], [aria-invalid="true"],
    its message, where "required" comes before the e-mail and length
    messages), each valid field ends with no error state, and the result is
    [true] exactly when all three are valid.  Values, submit button and
    status element are not touched. *)
Theorem validateAllFields_flags_every_field (f : contactForm) :
hasErrorElements f →
∃ f', validateAllFields f = (f', Normal (forallb (fieldValid f) fieldNames))
  ∧ (∀ k, value (fields f' k) = value (fields f k)
          ∧ if fieldValid f k then unflagged f' k
            else flagged f' k (validationMessage f k))
  ∧ submitButton f' = submitButton f
  ∧ statusElement f' = statusElement f
  ∧ submissions f' = submissions f.
Proof. apply validateAllFields_effect. Qed.

Lemma validateAllFields_flags_every_field_witness :
let f := exec validateAllFields (formWith "" "not-an-address" "short") in
flagged f name "This field is required"
∧ flagged f email "Please enter a valid email address"
∧ flagged f message "Message must be at least 10 characters".
Proof.
destruct (validateAllFields_flags_every_field (formWith "" "not-an-address" "short"))
  as (f' & E & Hk & _).
{ intros k. by eexists. }
unfold exec. rewrite E. simpl.
split; [exact (proj2 (Hk name))|]. split; [exact (proj2 (Hk email))|].
exact (proj2 (Hk message)).
Defined.

(** Validation never changes a default value. *)
Lemma validateEach_default (ks : list fieldName) (isValid : bool) (f : contactForm) :
∀ k, defaultValue (fields (fst (validateEach ks isValid f)) k)
     = defaultValue (fields f k).
Proof.
revert isValid f. induction ks as [|k0 ks IH]; intros isValid f k; [done|].
cbn [validateEach]. unfold bind.
assert (∀ k', defaultValue (fields (fst (validateField k0 f)) k')
              = defaultValue (fields f k')) as Hstep.
{ intros k'. rewrite validateField_eq. cbv zeta.
  assert (∀ g msg (b : bool),
    (∀ fd, defaultValue (g fd) = defaultValue fd) →
    defaultValue (fields (fst (((setField k0 g >> setErrorText k0 msg) >> ret b) f)) k')
    = defaultValue (fields f k')) as Hrun.
  { intros g msg b Hg. unfold setField, setErrorText, modify, get, ret, bind. simpl.
    destruct (errorText f k0); simpl; destruct (decide (k' = k0)); by rewrite ?Hg. }
  destruct (bool_decide (trim (value (fields f k0)) = [])); simpl;
    [by apply Hrun|].
  destruct (bool_decide (k0 = email) && negb (validateEmail _)); simpl;
    [by apply Hrun|].
  destruct (bool_decide (k0 = message) && (length _ <? 10)); simpl;
    by apply Hrun. }
specialize (Hstep k).
destruct (validateField k0 f) as [f1 [ok|e]]; simpl in *; [|done].
by rewrite IH.
Qed.

End FormValidation.

(** ** The contact form: what a submission leaves behind *)

Section FormSubmission.
Import Forms FormsMore.

Ltac run_form :=
  unfold submitValidated, setLoadingState, clearStatus, showSuccess, showError,
    reset, submitForm, finally, catch, fieldNames;
  cbn [forEach];
  unfold clearFieldError, setButton, setStatus, setField, setErrorText,
    modify, get, ret, throw, bind;
  cbn.

(** The data [handleSubmit] collects from form [f]. *)
Lemma submitValidated_resolved (f : contactForm) (b : button) (st : status) :
submitButton f = Some b → statusElement f = Some st → hasErrorElements f →
∃ f', submitValidated true f = (f', Normal tt)
  ∧ submissions f'
    = submissions f ++ [{| data_name := trim (value (fields f name));
                           data_email := trim (value (fields f email));
                           data_message := trim (value (fields f message)) |}]
  ∧ statusElement f'
    = Some {| textContent := "Thank you! Your message has been sent successfully.";
              className := "form-status success"; role := Some "status" |}
  ∧ (∀ k, value (fields f' k) = defaultValue (fields f k) ∧ unflagged f' k)
  ∧ buttonReady f'.
Proof.
intros Hb Hs Herr.
destruct (Herr name) as [tn Hn], (Herr email) as [te He], (Herr message) as [tm Hm].
destruct f as [flds errs btn sts subs dp]. simpl in *. subst btn sts.
run_form. rewrite Hn. simpl. rewrite He. simpl. rewrite Hm. simpl.
eexists. split; [reflexivity|]. cbn.
split; [done|]. split; [done|]. split.
- intros []; cbn; (split; [done|]); unfold unflagged; cbn;
    (split; [apply not_elem_of_removeToken|done]).
- eexists. split; [done|]. split; [done|]. apply not_elem_of_removeToken.
Qed.

Lemma submitValidated_rejected (f : contactForm) (b : button) (st : status) :
submitButton f = Some b → statusElement f = Some st →
∃ f', submitValidated false f = (f', Normal tt)
  ∧ submissions f'
    = submissions f ++ [{| data_name := trim (value (fields f name));
                           data_email := trim (value (fields f email));
                           data_message := trim (value (fields f message)) |}]
  ∧ statusElement f'
    = Some {| textContent := "Unable to send message. Please try again later.";
              className := "form-status error"; role := Some "alert" |}
  ∧ fields f' = fields f ∧ errorText f' = errorText f
  ∧ buttonReady f'.
Proof.
intros Hb Hs.
destruct f as [flds errs btn sts subs dp]. simpl in *. subst btn sts.
run_form. eexists. split; [reflexivity|]. cbn.
split; [done|]. split; [done|]. split; [done|]. split; [done|].
eexists. split; [done|]. split; [done|]. apply not_elem_of_removeToken.
Qed.

Lemma submitValidated_no_status (f : contactForm) (b : button) :
submitButton f = Some b → statusElement f = None →
submitValidated true f
= ({| fields := fields f; errorText := errorText f;
      submitButton := Some {| buttonClassList := addToken "loading" (buttonClassList b);
                              disabled := true |};
      statusElement := None; submissions := submissions f;
      defaultPrevented := defaultPrevented f |}, Throw nullError)
∧ submitValidated false f = submitValidated true f.
Proof.
intros Hb Hs. destruct f as [flds errs btn sts subs dp]. simpl in *. subst btn sts.
by split.
Qed.

(** A form that passes validation, seen after [validateAllFields]. *)
Lemma handleSubmit_valid (resolves : bool) (f : contactForm) :
hasErrorElements f → forallb (fieldValid f) fieldNames = true →
∃ f1, handleSubmit resolves f = submitValidated resolves f1
  ∧ (∀ k, value (fields f1 k) = value (fields f k)
          ∧ defaultValue (fields f1 k) = defaultValue (fields f k))
  ∧ hasErrorElements f1
  ∧ submitButton f1 = submitButton f
  ∧ statusElement f1 = statusElement f
  ∧ submissions f1 = submissions f.
Proof.
intros Herr Hvalid. rewrite handleSubmit_unfold.
erewrite bind_Normal; [|reflexivity].
set (f0 := {| fields := fields f; errorText := errorText f;
              submitButton := submitButton f; statusElement := statusElement f;
              submissions := submissions f; defaultPrevented := true |}).
pose proof (validateEach_default fieldNames true f0) as Hdef.
destruct (validateAllFields_effect f0) as (f1 & E & Hk & Hb & Hs & Hsub); [exact Herr|].
change (forallb (fieldValid f0) fieldNames) with (forallb (fieldValid f) fieldNames) in E.
rewrite Hvalid in E. unfold validateAllFields in *. rewrite E in Hdef. simpl in Hdef.
exists f1. split; [by erewrite bind_Normal; [|exact E]|].
split; [intros k; split; [apply Hk|apply Hdef]|].
split; [|done]. intros k. destruct (Hk k) as [_ Hflag].
apply forallb_fieldNames in Hvalid.
assert (fieldValid f0 k = true) as Hv.
{ change (fieldValid f0 k) with (fieldValid f k).
  assert (forallb (fieldValid f) fieldNames = true) as Hall
    by (by apply forallb_fieldNames).
  unfold fieldNames in Hall. simpl in Hall.
  apply andb_true_iff in Hall as [H1 Hall].
  apply andb_true_iff in Hall as [H2 Hall].
  apply andb_true_iff in Hall as [H3 _]. by destruct k. }
rewrite Hv in Hflag. destruct Hflag as (_ & _ & ->). by eexists.
Qed.

(** X9. A form that passes validation and whose simulated call succeeds:
    one submission is recorded, with the trimmed values of the three
    fields; the status element shows the success message with role
    [status]; every field is back at its default value with no error
    state; the submit button is enabled again and no longer marked
    loading. *)
Theorem successful_submission_resets_form (f : contactForm) (b : button) (st : status) :
hasErrorElements f → submitButton f = Some b → statusElement f = Some st →
forallb (fieldValid f) fieldNames = true →
let f' := exec (handleSubmit true) f in
snd (handleSubmit true f) = Normal tt
∧ submissions f'
  = submissions f ++ [{| data_name := trim (value (fields f name));
                         data_email := trim (value (fields f email));
                         data_message := trim (value (fields f message)) |}]
∧ statusElement f'
  = Some {| textContent := "Thank you! Your message has been sent successfully.";
            className := "form-status success"; role := Some "status" |}
∧ (∀ k, value (fields f' k) = defaultValue (fields f k) ∧ unflagged f' k)
∧ buttonReady f'.
Proof.
intros Herr Hb Hs Hvalid.
destruct (handleSubmit_valid true f Herr Hvalid)
  as (f1 & E & Hv & Herr1 & Hb1 & Hs1 & Hsub1).
destruct (submitValidated_resolved f1 b st) as (f' & E' & Hsub & Hst & Hk & Hready);
  [congruence|congruence|done|].
cbv zeta. unfold exec. rewrite E, E'. simpl.
split; [done|]. split.
- rewrite Hsub, Hsub1. by rewrite !(proj1 (Hv _)).
- split; [done|]. split; [|done]. intros k. destruct (Hk k) as [-> Hun].
  split; [apply Hv|done].
Qed.

Lemma successful_submission_resets_form_witness :
let f := exec (handleSubmit true)
           (formWith "  Asha " "guest@example.org" "We will be there, see you soon") in
(data_name <$> submissions f) = [codeUnits "Asha"]
∧ value (fields f name) = [] ∧ buttonReady f.
Proof.
destruct (successful_submission_resets_form
  (formWith "  Asha " "guest@example.org" "We will be there, see you soon")
  {| buttonClassList := ["submit-button"]; disabled := false |}
  {| textContent := ""; className := "form-status"; role := None |})
  as (_ & Hsub & _ & Hk & Hready); try reflexivity.
{ intros k. by eexists. }
cbv zeta. rewrite Hsub. split; [reflexivity|].
split; [exact (proj1 (Hk name))|exact Hready].
Defined.

(** X10. A form that passes validation and whose simulated call fails: the
    submission was still made once; the status element shows the failure
    message with role [alert]; what the user typed is kept in every field;
    and the [finally] block has enabled the submit button again. *)
Theorem failed_submission_keeps_input (f : contactForm) (b : button) (st : status) :
hasErrorElements f → submitButton f = Some b → statusElement f = Some st →
forallb (fieldValid f) fieldNames = true →
let f' := exec (handleSubmit false) f in
snd (handleSubmit false f) = Normal tt
∧ length (submissions f') = S (length (submissions f))
∧ statusElement f'
  = Some {| textContent := "Unable to send message. Please try again later.";
            className := "form-status error"; role := Some "alert" |}
∧ (∀ k, value (fields f' k) = value (fields f k))
∧ buttonReady f'.
Proof.
intros Herr Hb Hs Hvalid.
destruct (handleSubmit_valid false f Herr Hvalid)
  as (f1 & E & Hv & Herr1 & Hb1 & Hs1 & Hsub1).
destruct (submitValidated_rejected f1 b st)
  as (f' & E' & Hsub & Hst & Hflds & _ & Hready); [congruence|congruence|].
cbv zeta. unfold exec. rewrite E, E'. simpl.
split; [done|]. split; [by rewrite Hsub, length_app, Hsub1, Nat.add_1_r|].
split; [done|]. split; [|done]. intros k. rewrite Hflds. apply Hv.
Qed.

Lemma failed_submission_keeps_input_witness :
let f := exec (handleSubmit false)
           (formWith "Asha" "guest@example.org" "We will be there, see you soon") in
value (fields f email) = codeUnits "guest@example.org" ∧ buttonReady f.
Proof.
destruct (failed_submission_keeps_input
  (formWith "Asha" "guest@example.org" "We will be there, see you soon")
  {| buttonClassList := ["submit-button"]; disabled := false |}
  {| textContent := ""; className := "form-status"; role := None |})
  as (_ & _ & _ & Hk & Hready); try reflexivity.
{ intros k. by eexists. }
cbv zeta. split; [exact (Hk email)|exact Hready].
Defined.

(** X11. A form that passes validation but has no status element: the
    submit button is put in the loading state, then [clearStatus] throws a
    [TypeError] outside the [try] block.  Nothing is submitted and the
    button is left disabled and marked loading. *)
Theorem missing_status_leaves_button_loading (resolves : bool) (f : contactForm)
  (b : button) :
hasErrorElements f → submitButton f = Some b → statusElement f = None →
forallb (fieldValid f) fieldNames = true →
let f' := exec (handleSubmit resolves) f in
snd (handleSubmit resolves f) = Throw nullError
∧ submissions f' = submissions f
∧ submitButton f'
  = Some {| buttonClassList := addToken "loading" (buttonClassList b);
            disabled := true |}.
Proof.
intros Herr Hb Hs Hvalid.
destruct (handleSubmit_valid resolves f Herr Hvalid)
  as (f1 & E & Hv & Herr1 & Hb1 & Hs1 & Hsub1).
destruct (submitValidated_no_status f1 b) as [Etrue Efalse]; [congruence|congruence|].
cbv zeta. unfold exec. rewrite E.
assert (submitValidated resolves f1 = submitValidated true f1) as ->
  by (by destruct resolves).
rewrite Etrue. simpl. by rewrite Hsub1.
Qed.

Lemma missing_status_leaves_button_loading_witness :
let f0 := formWith "Asha" "guest@example.org" "We will be there, see you soon" in
let f := {| fields := fields f0; errorText := errorText f0;
            submitButton := submitButton f0; statusElement := None;
            submissions := []; defaultPrevented := false |} in
(disabled <$> submitButton (exec (handleSubmit true) f)) = Some true
∧ submissions (exec (handleSubmit true) f) = [].
Proof.
intros f0 f.
destruct (missing_status_leaves_button_loading true f
  {| buttonClassList := ["submit-button"]; disabled := false |})
  as (_ & Hsub & Hbtn); try reflexivity.
{ intros k. by eexists. }
cbv zeta in Hsub, Hbtn. rewrite Hsub, Hbtn. by split.
Defined.

End FormSubmission.

(** ** The e-mail pattern *)

Section RegexFacts.
Import Forms FormsMore.

Lemma nullable_spec (r : regex) : nullable r = true ↔ matchesRegex r [].
Proof.
induction r as [| |p|r1 IH1 r2 IH2|r1 IH1 r2 IH2|r IH]; simpl.
- split; [done|]. inversion 1.
- split; [constructor|done].
- split; [done|]. inversion 1.
- rewrite andb_true_iff, IH1, IH2. split.
  + intros [H1 H2]. by apply (MatchSeq r1 r2 [] []).
  + intros H. remember [] as s eqn:Es. remember (Seq r1 r2) as r eqn:Er.
    destruct H as [| | ra rb s1 s2 Ha Hb| | | |]; try done.
    injection Er as -> ->.
    apply app_eq_nil in Es as [-> ->]. by split.
- rewrite orb_true_iff, IH1, IH2. split.
  + intros [H|H]; [by apply MatchAltL|by apply MatchAltR].
  + inversion 1; subst; [by left|by right].
- split; [constructor|done].
Qed.

Lemma matches_seq_inv (r1 r2 : regex) (s : jsstring) :
matchesRegex (Seq r1 r2) s ↔
∃ s1 s2, s = s1 ++ s2 ∧ matchesRegex r1 s1 ∧ matchesRegex r2 s2.
Proof.
split.
- inversion 1; subst. by eexists _, _.
- intros (s1 & s2 & -> & H1 & H2). by constructor.
Qed.

Lemma matches_star_cons (r : regex) (c : N) (s : jsstring) :
matchesRegex (Star r) (c :: s) →
∃ s1 s2, s = s1 ++ s2 ∧ matchesRegex r (c :: s1) ∧ matchesRegex (Star r) s2.
Proof.
intros H. remember (Star r) as r' eqn:Er. remember (c :: s) as s' eqn:Es.
induction H as [| | | | | |r0 s1 s2 H1 _ H2 IH2]; try done.
injection Er as ->. destruct s1 as [|c1 s1].
- simpl in Es. by apply IH2.
- simpl in Es. injection Es as -> <-. by exists s1, s2.
Qed.

Lemma derive_spec (r : regex) (c : N) (s : jsstring) :
matchesRegex (derive c r) s ↔ matchesRegex r (c :: s).
Proof.
revert s. induction r as [| |p|r1 IH1 r2 IH2|r1 IH1 r2 IH2|r IH]; intros s; simpl.
- split; inversion 1.
- split; inversion 1.
- destruct (p c) eqn:Ep.
  + split.
    * inversion 1; subst. by constructor.
    * inversion 1; subst. constructor.
  + split; [inversion 1|]. inversion 1; subst. congruence.
- assert (matchesRegex (Seq (derive c r1) r2) s
          ↔ ∃ s1 s2, s = s1 ++ s2 ∧ matchesRegex r1 (c :: s1) ∧ matchesRegex r2 s2)
    as Hfirst.
  { rewrite matches_seq_inv. by setoid_rewrite IH1. }
  assert (matchesRegex (Seq r1 r2) (c :: s)
          ↔ (∃ s1 s2, s = s1 ++ s2 ∧ matchesRegex r1 (c :: s1) ∧ matchesRegex r2 s2)
            ∨ (matchesRegex r1 [] ∧ matchesRegex r2 (c :: s))) as Hsplit.
  { rewrite matches_seq_inv. split.
    - intros ([|c1 s1] & s2 & Hs & H1 & H2); simpl in Hs.
      + subst s2. by right.
      + injection Hs as <- ->. left. by exists s1, s2.
    - intros [(s1 & s2 & -> & H1 & H2)|[H1 H2]].
      + by exists (c :: s1), s2.
      + by exists [], (c :: s). }
  rewrite Hsplit. destruct (nullable r1) eqn:En.
  + apply nullable_spec in En. split.
    * inversion 1; subst; [left; by apply Hfirst|right; split; [done|by apply IH2]].
    * intros [H|[_ H]]; [apply MatchAltL; by apply Hfirst|apply MatchAltR; by apply IH2].
  + rewrite Hfirst. split; [by left|]. intros [H|[H _]]; [done|].
    apply nullable_spec in H. congruence.
- split.
  + inversion 1; subst; [apply MatchAltL; by apply IH1|apply MatchAltR; by apply IH2].
  + inversion 1; subst; [apply MatchAltL; by apply IH1|apply MatchAltR; by apply IH2].
- rewrite matches_seq_inv. split.
  + intros (s1 & s2 & -> & H1 & H2). apply IH in H1.
    by apply (MatchStarCons r (c :: s1) s2).
  + intros (s1 & s2 & -> & H1 & H2)%matches_star_cons.
    exists s1, s2. split; [done|]. split; [by apply IH|done].
Qed.

(** The matcher decides membership of the language of the expression. *)
Lemma test_spec (r : regex) (s : jsstring) : test r s = true ↔ matchesRegex r s.
Proof.
unfold test. revert r. induction s as [|c s IH]; intros r; simpl.
- apply nullable_spec.
- rewrite IH. apply derive_spec.
Qed.

Lemma matches_class_inv (p : N → bool) (s : jsstring) :
matchesRegex (Class p) s ↔ ∃ c, s = [c] ∧ p c = true.
Proof.
split.
- inversion 1; subst. by eexists.
- intros (c & -> & Hc). by constructor.
Qed.

Lemma matches_star_class (p : N → bool) (s : jsstring) :
matchesRegex (Star (Class p)) s ↔ Forall (λ c, p c = true) s.
Proof.
split.
- intros H. remember (Star (Class p)) as r eqn:Er.
  induction H as [| | | | | |r0 s1 s2 H1 _ H2 IH2]; try done.
  injection Er as ->. apply matches_class_inv in H1 as (c & -> & Hc).
  constructor; [done|by apply IH2].
- induction 1 as [|c s Hc _ IH]; [constructor|].
  apply (MatchStarCons (Class p) [c] s); [by constructor|done].
Qed.

Lemma matches_plus_class (p : N → bool) (s : jsstring) :
matchesRegex (Plus (Class p)) s ↔ s ≠ [] ∧ Forall (λ c, p c = true) s.
Proof.
unfold Plus. rewrite matches_seq_inv. split.
- intros (s1 & s2 & -> & (c & -> & Hc)%matches_class_inv & H2%matches_star_class).
  split; [done|by constructor].
- intros [Hne H]. destruct H as [|c s Hc H]; [done|].
  exists [c], s. split; [done|]. split; [by constructor|by apply matches_star_class].
Qed.

Lemma matches_char (a : ascii) (s : jsstring) :
matchesRegex (Char a) s ↔ s = [N_of_ascii a].
Proof.
unfold Char. rewrite matches_class_inv. split.
- intros (c & -> & Hc%N.eqb_eq). by subst.
- intros ->. eexists. split; [done|]. apply N.eqb_refl.
Qed.

Lemma matches_addressPart (s : jsstring) :
matchesRegex (Plus notSpaceNorAt) s ↔ addressPart s.
Proof.
unfold notSpaceNorAt, addressPart. rewrite matches_plus_class.
apply and_iff_compat_l. apply Forall_iff. intros c.
rewrite negb_true_iff, orb_false_iff, N.eqb_neq. done.
Qed.

(** X12. [validateEmail] accepts exactly the strings of the form
    [local@domain.tld] in which each of the three parts is non-empty and
    holds neither white space nor [@]; the domain and the last part may
    themselves contain dots.  An accepted address therefore contains
    exactly one [@]. *)
Theorem validateEmail_accepts_local_at_domain_dot_tld (s : jsstring) :
(validateEmail s = true ↔
 ∃ localPart domain tld,
   s = localPart ++ [N_of_ascii "@"] ++ domain ++ [N_of_ascii "."] ++ tld
   ∧ addressPart localPart ∧ addressPart domain ∧ addressPart tld)
∧ (validateEmail s = true →
   length (filter (λ c, c = N_of_ascii "@") s) = 1).
Proof.
assert (validateEmail s = true ↔
 ∃ localPart domain tld,
   s = localPart ++ [N_of_ascii "@"] ++ domain ++ [N_of_ascii "."] ++ tld
   ∧ addressPart localPart ∧ addressPart domain ∧ addressPart tld) as Hiff.
{ unfold validateEmail. rewrite test_spec. unfold emailRegex.
  rewrite matches_seq_inv. split.
  - intros (l & s1 & -> & Hl%matches_addressPart & H1).
    apply matches_seq_inv in H1 as (at_ & s2 & -> & ->%matches_char & H2).
    apply matches_seq_inv in H2 as (dm & s3 & -> & Hd%matches_addressPart & H3).
    apply matches_seq_inv in H3 as (dot & t & -> & ->%matches_char & Ht%matches_addressPart).
    by exists l, dm, t.
  - intros (l & dm & t & -> & Hl & Hd & Ht).
    exists l, ([N_of_ascii "@"] ++ dm ++ [N_of_ascii "."] ++ t).
    split; [done|]. split; [by apply matches_addressPart|].
    apply matches_seq_inv. exists [N_of_ascii "@"], (dm ++ [N_of_ascii "."] ++ t).
    split; [done|]. split; [by apply matches_char|].
    apply matches_seq_inv. exists dm, ([N_of_ascii "."] ++ t).
    split; [done|]. split; [by apply matches_addressPart|].
    apply matches_seq_inv. exists [N_of_ascii "."], t.
    split; [done|]. split; [by apply matches_char|by apply matches_addressPart]. }
split; [exact Hiff|].
intros (l & dm & t & -> & [_ Hl] & [_ Hd] & [_ Ht])%Hiff.
assert (∀ p, Forall (λ c, isWhiteSpace c = false ∧ c ≠ N_of_ascii "@") p →
             filter (λ c, c = N_of_ascii "@") p = []) as Hnone.
{ induction 1 as [|c p [_ Hc] _ IH]; [done|].
  by rewrite filter_cons, decide_False. }
rewrite !filter_app, (Hnone l Hl), (Hnone dm Hd), (Hnone t Ht). reflexivity.
Qed.

End RegexFacts.

(** ** [trim] *)

Section TrimFacts.
Import Forms FormsMore.

Lemma trimStart_spec (s : jsstring) :
∃ pre, s = pre ++ trimStart s ∧ blank pre
       ∧ ∀ c, head (trimStart s) = Some c → isWhiteSpace c = false.
Proof.
induction s as [|c s (pre & Hs & Hpre & Hhead)].
- exists []. split; [done|]. split; [constructor|done].
- simpl. destruct (isWhiteSpace c) eqn:Ec.
  + exists (c :: pre). split; [simpl; by rewrite <- Hs|].
    split; [by constructor|done].
  + exists []. split; [done|]. split; [constructor|]. by intros c' [= <-].
Qed.

Lemma trimStart_fixed (s : jsstring) :
(∀ c, head s = Some c → isWhiteSpace c = false) → trimStart s = s.
Proof.
destruct s as [|c s]; [done|]. intros H. simpl. by rewrite (H c eq_refl).
Qed.

Lemma head_app_nonempty {A} (l k : list A) : l ≠ [] → head (l ++ k) = head l.
Proof. by destruct l. Qed.

Lemma rev_is_reverse {A} (l : list A) : rev l = reverse l.
Proof. apply rev_alt. Qed.

Lemma trim_unfold (s : jsstring) :
trim s = reverse (trimStart (reverse (trimStart s))).
Proof. unfold trim. by rewrite !rev_is_reverse. Qed.

Lemma trim_fixed (s : jsstring) : trimmed s → trim s = s.
Proof.
intros [Hhead Hlast]. rewrite trim_unfold, (trimStart_fixed s Hhead).
rewrite trimStart_fixed; [apply reverse_involutive|].
intros c. rewrite head_reverse. apply Hlast.
Qed.

(** X13. [trim] removes a white-space prefix and a white-space suffix and
    nothing else: the input is [pre ++ trim s ++ post] with [pre] and
    [post] made of white space only, and the result neither starts nor ends
    with white space.  So [trim] is idempotent, and the result is empty
    exactly when the input is white space only, which is when a field
    counts as empty. *)
Theorem trim_strips_exactly_the_blank_ends (s : jsstring) :
(∃ pre post, s = pre ++ trim s ++ post ∧ blank pre ∧ blank post)
∧ trimmed (trim s)
∧ trim (trim s) = trim s
∧ (trim s = [] ↔ blank s).
Proof.
destruct (trimStart_spec s) as (pre & Hs & Hpre & Hhead1).
destruct (trimStart_spec (reverse (trimStart s))) as (tsop & Hrev & Htsop & Hhead2).
rewrite trim_unfold.
set (t := trimStart (reverse (trimStart s))) in *.
assert (trimStart s = reverse t ++ reverse tsop) as Hmid.
{ rewrite <- (reverse_involutive (trimStart s)), Hrev. apply reverse_app. }
assert (blank (reverse tsop)) as Hpost by (by apply Forall_reverse).
assert (trimmed (reverse t)) as Htrimmed.
{ split.
  - intros c Hc. apply Hhead1. rewrite Hmid.
    destruct (reverse t); [done|exact Hc].
  - intros c. rewrite last_reverse. apply Hhead2. }
assert (s = pre ++ reverse t ++ reverse tsop) as Hsplit by (by rewrite <- Hmid).
split; [by exists pre, (reverse tsop)|]. split; [exact Htrimmed|].
split; [by apply trim_fixed|]. split.
- intros Hnil. rewrite Hsplit, Hnil. simpl. by apply Forall_app.
- intros Hblank. destruct (reverse t) as [|c u] eqn:Eu; [done|].
  exfalso. destruct Htrimmed as [Hhead _].
  specialize (Hhead c eq_refl).
  rewrite Hsplit in Hblank. unfold blank in Hblank.
  rewrite !Forall_app, Forall_cons in Hblank.
  destruct Hblank as (_ & (Hc & _) & _). congruence.
Qed.

End TrimFacts.

(** ** The blur and input listeners of a field *)

Section FieldListeners.
Import Forms FormsMore.

Lemma clearFieldError_eq (k : fieldName) (f : contactForm) (txt : string) :
errorText f k = Some txt →
clearFieldError k f
= ({| fields := λ k', if decide (k' = k)
                      then {| value := value (fields f k');
                              defaultValue := defaultValue (fields f k');
                              fieldClassList :=
                                removeToken "error" (fieldClassList (fields f k'));
                              ariaInvalid := None |}
                      else fields f k';
      errorText := λ k', if decide (k' = k) then Some "" else errorText f k';
      submitButton := submitButton f; statusElement := statusElement f;
      submissions := submissions f; defaultPrevented := defaultPrevented f |},
   Normal tt).
Proof.
intros Htxt. unfold clearFieldError, setField, setErrorText, modify, get, ret, bind.
simpl. by rewrite Htxt.
Qed.

(** X14. The listeners of a field.  A [blur] on an invalid field flags it
    with its message; the next [input] event clears the error state
    without validating again, so the field shows no error although its
    value is still invalid.  An [input] event on a field without the class
    [error] changes nothing. *)
Theorem input_clears_the_flag_without_validating (k : fieldName) (f : contactForm) :
is_Some (errorText f k) →
(fieldValid f k = false →
 let f1 := exec (onBlur k) f in
 let f2 := exec (onInput k) f1 in
 flagged f1 k (validationMessage f k)
 ∧ unflagged f2 k
 ∧ value (fields f2 k) = value (fields f k)
 ∧ fieldValid f2 k = false)
∧ ("error" ∉ fieldClassList (fields f k) → onInput k f = (f, Normal tt)).
Proof.
intros Herr. split.
- intros Hinvalid.
  destruct (validateField_effect k f Herr) as (f1 & E & _ & Hv & Hflag & _).
  rewrite Hinvalid in Hflag. destruct Hflag as (Hclass & Haria & Htxt).
  cbv zeta. unfold onBlur, exec. rewrite E. cbn [fst].
  split; [done|]. unfold exec, onInput, bind, get.
  rewrite bool_decide_eq_true_2 by done.
  rewrite (clearFieldError_eq _ _ _ Htxt). simpl.
  unfold unflagged, fieldValid. simpl. rewrite !decide_True by done. simpl.
  split; [split; [apply not_elem_of_removeToken|done]|]. split; [done|].
  rewrite Hv. exact Hinvalid.
- intros Hclass. unfold onInput, bind, get.
  by rewrite bool_decide_eq_false_2.
Qed.

Lemma input_clears_the_flag_without_validating_witness :
let f := formWith "Asha" "guest@example" "We will be there, see you soon" in
flagged (exec (onBlur email) f) email "Please enter a valid email address"
∧ unflagged (exec (onInput email) (exec (onBlur email) f)) email.
Proof.
intros f.
destruct (proj1 (input_clears_the_flag_without_validating email f
  (ex_intro _ "" eq_refl)) eq_refl) as (H1 & H2 & _).
by split.
Defined.

End FieldListeners.

(** ** The audio element over a page session *)

Section AudioSession.
Import Audio Autoplay.

Lemma consistent_initial : consistent initial.
Proof.
split; [split; [done|by intros [? ?]]|]. by intros a.
Qed.

Lemma consistent_log (msg : string) (s : state) : consistent s → consistent (log msg s).
Proof. by intros H. Qed.

Lemma consistent_init (pf : platform) (s : state) :
consistent s → consistent (initBackgroundAudio pf s).
Proof.
intros H. unfold initBackgroundAudio.
destruct (audioInitialized s) eqn:Ei; [done|].
destruct (audioConstructible pf); [|by apply consistent_log].
apply consistent_log. split; simpl; [by split; [eexists|]|].
by intros a [= <-].
Qed.

Lemma consistent_play (pf : platform) (a : audioElement) (s : state) :
consistent s → backgroundAudio s = Some a → consistent (play pf a s).
Proof.
intros H Ha. unfold play. pose proof H as [Hflag Hset].
destruct (playAllowed pf); apply consistent_log; [|done].
split; simpl; [rewrite Hflag, Ha; by split; intros _; eexists|].
intros a' [= <-]. simpl. by apply Hset.
Qed.

Lemma consistent_playBackgroundAudio (pf : platform) (s : state) :
consistent s → consistent (playBackgroundAudio pf s).
Proof.
intros H. unfold playBackgroundAudio. cbv zeta.
match goal with |- context [if ?c then _ else _] => destruct c end.
- pose proof (consistent_init pf s H) as H1.
  destruct (backgroundAudio (initBackgroundAudio pf s)) as [a|] eqn:Ea;
    [by apply consistent_play|done].
- destruct (backgroundAudio s) as [a|] eqn:Ea; [by apply consistent_play|done].
Qed.

Lemma consistent_pause (s : state) : consistent s → consistent (pauseBackgroundAudio s).
Proof.
intros H. unfold pauseBackgroundAudio.
pose proof H as [Hflag Hset].
destruct (backgroundAudio s) as [a|] eqn:Ea; [|done].
destruct (paused a); simpl; [done|]. apply consistent_log.
split; simpl; [rewrite Hflag; by split; intros _; eexists|].
intros a' [= <-]. simpl. by apply Hset.
Qed.

Lemma consistent_onVisibilityChange (pf : platform) (hidden : bool) (s : state) :
consistent s → consistent (onVisibilityChange pf hidden s).
Proof.
intros H. unfold onVisibilityChange. destruct hidden; [by apply consistent_pause|].
destruct (_ && _); [by apply consistent_playBackgroundAudio|done].
Qed.

Lemma consistent_onVisibilityChangePopup (pf : platform) (d : document)
  (hidden : bool) (s : state) :
consistent s → consistent (onVisibilityChangePopup pf d hidden s).
Proof.
intros H. unfold onVisibilityChangePopup.
destruct hidden; [by apply consistent_pause|].
destruct (_ && _); [|done].
destruct (popupClosed d); [by apply consistent_playBackgroundAudio|done].
Qed.

Lemma consistent_step (pg : page) (e : platform * event) :
consistent (audio pg) → consistent (audio (step pg e)).
Proof.
intros H. unfold step. destruct (snd e) as [|hidden|].
- destruct (playTimer pg); [by apply consistent_playBackgroundAudio|done].
- by apply consistent_onVisibilityChange.
- destruct (interactionListener pg); [|done]. unfold enableAudioOnInteraction. simpl.
  destruct (backgroundAudio (audio pg)) as [a|]; [|done].
  destruct (paused a); [by apply consistent_playBackgroundAudio|done].
Qed.

Lemma popup_consistent_step (pg : Popup.page) (e : platform * Popup.event) :
consistent (Popup.audio pg) → consistent (Popup.audio (Popup.step pg e)).
Proof.
intros H. unfold Popup.step.
destruct (snd e) as [|key| |hidden| |];
  try (destruct (Popup.wired pg) as [[p b]|]; [|done]); simpl; try done.
- by destruct (_ && _).
- destruct (bool_decide _); [|done]. simpl. by apply consistent_playBackgroundAudio.
- by apply consistent_onVisibilityChangePopup.
Qed.

(** X15. In both versions of the page, whatever events arrive and whatever
    the platform allows at each of them, there is at most the one audio
    element [initBackgroundAudio] creates: its source, [loop], volume and
    [preload] never change, and [audioInitialized] is set exactly when the
    element exists. *)
Theorem audio_element_stays_as_created (pf : platform) (d : document)
  (events : list (platform * event))
  (popupEvents : list (platform * Popup.event)) :
consistent (audio (run events (setupAutoplayAudio pf initial)))
∧ consistent (Popup.audio (Popup.run popupEvents (Popup.initApp pf d))).
Proof.
split.
- assert (∀ pg, consistent (audio pg) → consistent (audio (run events pg))) as Hrun.
  { unfold run. induction events as [|e events IH]; intros pg H; [done|].
    simpl. apply IH. by apply consistent_step. }
  apply Hrun. simpl. apply consistent_init, consistent_initial.
- assert (∀ pg, consistent (Popup.audio pg)
                → consistent (Popup.audio (Popup.run popupEvents pg))) as Hrun.
  { unfold Popup.run. induction popupEvents as [|e evs IH]; intros pg H; [done|].
    simpl. apply IH. by apply popup_consistent_step. }
  apply Hrun. unfold Popup.initApp. simpl. apply consistent_init.
  unfold Popup.initWelcomePopup. simpl.
  destruct (getElementById d "popup-overlay"), (getElementById d "popup-enter");
    apply consistent_initial.
Qed.

Lemma playBackgroundAudio_playing (pf : platform) (s : state) :
playAllowed pf = true → is_Some (backgroundAudio s) →
playing (playBackgroundAudio pf s).
Proof.
intros Hallowed Hsome.
assert (∀ s1, is_Some (backgroundAudio s1) →
  playing (match backgroundAudio s1 with Some a => play pf a s1 | None => s1 end))
  as Hplay.
{ intros s1 [a Ha]. rewrite Ha. unfold play. rewrite Hallowed. simpl. by eexists. }
unfold playBackgroundAudio. cbv zeta.
match goal with |- context [if ?c then _ else _] => destruct c end;
  apply Hplay; [|done].
unfold initBackgroundAudio. destruct (audioInitialized s); [done|].
destruct (audioConstructible pf); simpl; [by eexists|done].
Qed.

Lemma run_interactionListener (events : list (platform * event)) (pg : page) :
interactionListener pg = false → interactionListener (run events pg) = false.
Proof.
unfold run. revert pg. induction events as [|e events IH]; intros pg H; [done|].
simpl. apply IH. unfold step. destruct (snd e); simpl.
- by destruct (playTimer pg).
- done.
- by rewrite H.
Qed.

(** X16. The fallback for blocked autoplay works once.  The first click or
    touch on the page starts the audio when it exists, is paused and the
    platform now allows playback, and it removes both listeners; from then
    on, whatever events follow, a click or touch changes nothing. *)
Theorem first_interaction_starts_audio_once (pf : platform) (pg : page)
  (events : list (platform * event)) (pf' : platform) :
interactionListener pg = true →
(∃ a, backgroundAudio (audio pg) = Some a ∧ paused a = true) →
playAllowed pf = true →
let pg1 := step pg (pf, Interaction) in
playing (audio pg1)
∧ interactionListener (run events pg1) = false
∧ step (run events pg1) (pf', Interaction) = run events pg1.
Proof.
intros Hl (a & Ha & Hp) Hallowed. cbv zeta.
assert (interactionListener (step pg (pf, Interaction)) = false) as Hoff
  by (unfold step; simpl; by rewrite Hl).
split.
- unfold step. simpl. rewrite Hl. unfold enableAudioOnInteraction. simpl.
  rewrite Ha, Hp. apply playBackgroundAudio_playing; [done|by rewrite Ha].
- pose proof (run_interactionListener events _ Hoff) as Hrun.
  split; [exact Hrun|]. unfold step at 1. simpl. by rewrite Hrun.
Qed.

Lemma first_interaction_starts_audio_once_witness :
let blocked := {| audioConstructible := true; playAllowed := false |} in
let allowed := {| audioConstructible := true; playAllowed := true |} in
let pg := run [(blocked, TimerFires)] (setupAutoplayAudio blocked initial) in
¬ playing (audio pg) ∧ playing (audio (step pg (allowed, Interaction))).
Proof.
intros blocked allowed pg. split.
- intros (a & Ha & Hp). vm_compute in Ha. injection Ha as <-. discriminate.
- refine (proj1 (first_interaction_starts_audio_once allowed pg [] allowed
    eq_refl _ eq_refl)).
  eexists. split; reflexivity.
Defined.

End AudioSession.

(** ** The welcome popup *)

Section PopupFacts.
Import Audio Autoplay Popup.

Lemma alter_invalid {A} (f : A → A) (l : list A) (i : nat) :
l !! i = None → alter f i l = l.
Proof.
intros H. apply list_eq. intros k. destruct (decide (i = k)) as [->|Hne].
- rewrite list_lookup_alter_eq. by rewrite H.
- by rewrite list_lookup_alter_ne.
Qed.

Lemma style_set_exec (d : document) (i : nat) (p v : string) :
exec (style_set (Some i) p v) d = alter (withStyle p v) i d.
Proof.
unfold exec, style_set. destruct (d !! i) as [e|] eqn:E.
- by rewrite (update_Some _ _ e).
- rewrite update_invalid by done. simpl. by rewrite alter_invalid.
Qed.

Lemma style_set_twice_exec (d : document) (i : nat) (p v q w : string) :
exec (style_set (Some i) p v >> style_set (Some i) q w) d
= alter (withStyle q w) i (alter (withStyle p v) i d).
Proof.
unfold exec, style_set. destruct (d !! i) as [e|] eqn:E.
- erewrite bind_Normal by (by apply (update_Some _ _ e)).
  erewrite update_Some; [done|]. by rewrite list_lookup_alter_eq, E.
- erewrite bind_Throw by (by apply update_invalid). simpl.
  by rewrite !alter_invalid by (by rewrite ?alter_invalid).
Qed.

Lemma getElementById_alter_style (d : document) (i : nat) (p v name : string) :
getElementById (alter (withStyle p v) i d) name = getElementById d name.
Proof.
unfold getElementById. rewrite length_alter. f_equal.
apply list_filter_iff. intros k. unfold hasId.
destruct (decide (i = k)) as [->|Hne]; [|by rewrite list_lookup_alter_ne].
rewrite list_lookup_alter_eq. by destruct (d !! k).
Qed.

Lemma popupClosed_showing (pg : page) : showing pg → popupClosed (dom pg) = false.
Proof.
intros (p & b & _ & Hp & Hflex). unfold popupClosed. rewrite Hp, Hflex.
by apply bool_decide_eq_false_2.
Qed.

Lemma silent_pause (s : state) : Play ∉ calls s → Play ∉ calls (pauseBackgroundAudio s).
Proof.
intros H. unfold pauseBackgroundAudio. destruct (backgroundAudio s) as [a|]; [|done].
destruct (paused a); simpl; [done|]. rewrite elem_of_app, list_elem_of_singleton.
naive_solver.
Qed.

Lemma silent_onVisibilityChangePopup (pf : platform) (d : document) (hidden : bool)
  (s : state) :
popupClosed d = false → Play ∉ calls s →
Play ∉ calls (onVisibilityChangePopup pf d hidden s).
Proof.
intros Hd H. unfold onVisibilityChangePopup. rewrite Hd.
destruct hidden; [by apply silent_pause|]. by destruct (_ && _).
Qed.

Lemma showing_enterClick (p : nat) (pg : page) :
showing pg → showing (enterClick p pg).
Proof.
intros (p' & b & Hw & Hp & Hflex). exists p', b. unfold enterClick. simpl.
rewrite style_set_twice_exec, !getElementById_alter_style, !styleAt_alter_style.
rewrite !bool_decide_eq_false_2 by naive_solver. done.
Qed.

Lemma showing_hover (b : nat) (p1 v1 p2 v2 : string) (pg : page) :
p1 ≠ "display" → p2 ≠ "display" → showing pg →
showing (withDom (exec (style_set (Some b) p1 v1 >> style_set (Some b) p2 v2)
                    (dom pg)) pg).
Proof.
intros H1 H2 (p' & b' & Hw & Hp & Hflex). exists p', b'. unfold withDom. simpl.
rewrite style_set_twice_exec, !getElementById_alter_style, !styleAt_alter_style.
rewrite !bool_decide_eq_false_2 by naive_solver. done.
Qed.

(** While the overlay is displayed, an event other than an effective close
    timer leaves it displayed and makes no call of [play()]. *)
Lemma showing_step (pg : page) (e : platform * event) :
snd e ≠ CloseTimerFires ∨ closeTimers pg = 0 →
showing pg → silent pg → showing (step pg e) ∧ silent (step pg e).
Proof.
intros He Hs Hsil. pose proof Hs as (p & b & Hw & Hp & Hflex).
unfold step, silent. destruct (snd e) as [|key| |hidden| |]; rewrite ?Hw.
- split; [by apply showing_enterClick|done].
- destruct (_ && _); [|done]. split; [by apply showing_enterClick|done].
- destruct He as [He|He]; [done|]. rewrite He.
  by rewrite bool_decide_eq_false_2 by lia.
- split; [by exists p, b|]. simpl.
  apply silent_onVisibilityChangePopup; [by apply popupClosed_showing|done].
- split; [by apply showing_hover|done].
- split; [by apply showing_hover|done].
Qed.

Lemma closeTimers_step_le (pg : page) (e : platform * event) :
snd e ≠ CloseTimerFires → closeTimers pg ≤ closeTimers (step pg e).
Proof.
intros He. unfold step.
destruct (snd e) as [|key| |hidden| |]; try done; simpl; try lia;
  destruct (wired pg) as [[p b]|]; simpl; try lia.
destruct (_ && _); simpl; lia.
Qed.

Lemma closeTimers_step_0 (pg : page) (e : platform * event) :
snd e ≠ EnterClick → snd e ≠ Keydown "Escape" → closeTimers pg = 0 →
closeTimers (step pg e) = 0.
Proof.
intros H1 H2 H0. unfold step.
destruct (snd e) as [|key| |hidden| |]; try done;
  destruct (wired pg) as [[p b]|]; simpl; try done.
- case_bool_decide as Hk; [by subst key|done].
- rewrite H0. by rewrite bool_decide_eq_false_2 by lia.
Qed.

Lemma showing_run (events : list (platform * event)) (pg : page) :
Forall (λ e, snd e ≠ CloseTimerFires) events →
showing pg → silent pg →
showing (run events pg) ∧ silent (run events pg)
∧ closeTimers pg ≤ closeTimers (run events pg).
Proof.
unfold run. revert pg. induction events as [|e events IH]; intros pg Hev Hs Hsil.
- simpl. split_and!; [done|done|lia].
- apply Forall_cons in Hev as [He Hev]. simpl.
  destruct (showing_step pg e (or_introl He) Hs Hsil) as [Hs' Hsil'].
  destruct (IH _ Hev Hs' Hsil') as (?&?&?). split_and!; [done|done|].
  pose proof (closeTimers_step_le pg e He). lia.
Qed.

Lemma showing_run_unopened (events : list (platform * event)) (pg : page) :
Forall (λ e, snd e ≠ EnterClick ∧ snd e ≠ Keydown "Escape") events →
closeTimers pg = 0 → showing pg → silent pg →
showing (run events pg) ∧ silent (run events pg).
Proof.
unfold run. revert pg. induction events as [|e events IH]; intros pg Hev H0 Hs Hsil.
- done.
- apply Forall_cons in Hev as [[He1 He2] Hev]. simpl.
  destruct (showing_step pg e (or_intror H0) Hs Hsil) as [Hs' Hsil'].
  apply IH; [done|by apply closeTimers_step_0|done|done].
Qed.

Lemma initApp_showing (pf : platform) (d : document) (p b : nat) :
getElementById d "popup-overlay" = Some p →
getElementById d "popup-enter" = Some b →
showing (initApp pf d) ∧ silent (initApp pf d) ∧ closeTimers (initApp pf d) = 0
∧ consistent (audio (initApp pf d)).
Proof.
intros Hp Hb. unfold initApp, initWelcomePopup. simpl. rewrite Hp, Hb. simpl.
split_and!.
- exists p, b. simpl. rewrite style_set_exec, getElementById_alter_style.
  rewrite styleAt_alter_style, bool_decide_eq_true_2; [done|].
  split_and!; [done|done|by apply (getElementById_lt _ "popup-overlay")].
- unfold silent. simpl. unfold initBackgroundAudio. simpl.
  destruct (audioConstructible pf); simpl; apply not_elem_of_nil.
- done.
- apply consistent_init, consistent_initial.
Qed.

(** X17. With the overlay and its button on the page, [initApp] displays
    the overlay and no [play()] call is made while it is displayed: not
    before the 500 ms timer of the enter button has fired, and not at all
    as long as nobody clicks the button or presses Escape, whatever
    visibility changes, key presses, hovers and timers come. *)
Theorem popup_holds_audio_back (pf : platform) (d : document) (p b : nat)
  (events : list (platform * event)) :
getElementById d "popup-overlay" = Some p →
getElementById d "popup-enter" = Some b →
Forall (λ e, snd e ≠ CloseTimerFires) events
∨ Forall (λ e, snd e ≠ EnterClick ∧ snd e ≠ Keydown "Escape") events →
let pg := run events (initApp pf d) in
silent pg ∧ popupClosed (dom pg) = false.
Proof.
intros Hp Hb Hev. cbv zeta.
destruct (initApp_showing pf d p b Hp Hb) as (Hs & Hsil & H0 & _).
assert (showing (run events (initApp pf d)) ∧ silent (run events (initApp pf d)))
  as [Hs' Hsil'].
{ destruct Hev as [Hev|Hev].
  - by destruct (showing_run events _ Hev Hs Hsil) as (?&?&_).
  - by apply showing_run_unopened. }
split; [done|by apply popupClosed_showing].
Qed.

Lemma popup_holds_audio_back_witness :
let d := [el None [] [("id", "popup-overlay")]; el (Some 0) [] [("id", "popup-enter")]] in
let pf := {| audioConstructible := true; playAllowed := true |} in
let pg := run [(pf, VisibilityChange true); (pf, EnterClick); (pf, VisibilityChange false)]
            (initApp pf d) in
silent pg ∧ popupClosed (dom pg) = false.
Proof.
intros d pf pg.
apply (popup_holds_audio_back pf d 0 1
  [(pf, VisibilityChange true); (pf, EnterClick); (pf, VisibilityChange false)]).
- reflexivity.
- reflexivity.
- left. repeat constructor; discriminate.
Defined.

Lemma popup_consistent_run (events : list (platform * event)) (pg : page) :
consistent (audio pg) → consistent (audio (run events pg)).
Proof.
unfold run. revert pg. induction events as [|e events IH]; intros pg H; [done|].
simpl. apply IH. by apply popup_consistent_step.
Qed.

Lemma playBackgroundAudio_last_call (pf : platform) (s : state) :
consistent s → audioConstructible pf = true →
last (calls (playBackgroundAudio pf s)) = Some Play.
Proof.
intros [Hflag _] Hc.
assert (∀ s1, is_Some (backgroundAudio s1) →
  last (calls (match backgroundAudio s1 with Some a => play pf a s1 | None => s1 end))
  = Some Play) as Hplay.
{ intros s1 [a Ha]. rewrite Ha. unfold play.
  destruct (playAllowed pf); simpl; apply last_snoc. }
unfold playBackgroundAudio. cbv zeta.
destruct (backgroundAudio s) as [a|] eqn:Ea.
- match goal with |- context [if ?c then _ else _] => destruct c end;
    apply Hplay; [|by rewrite Ea].
  unfold initBackgroundAudio. destruct (audioInitialized s); [by rewrite Ea|].
  rewrite Hc. simpl. by eexists.
- assert (audioInitialized s = false) as Hi.
  { destruct (audioInitialized s); [|done]. by destruct (proj1 Hflag eq_refl). }
  rewrite Hi. simpl. apply Hplay.
  unfold initBackgroundAudio. rewrite Hi, Hc. simpl. by eexists.
Qed.

(** X18. The overlay is closed by the timer the enter button starts.  After
    a click on the button or an Escape key press, when the 500 ms timer
    fires the overlay gets [display: none], the script calls [play()] on the
    audio element (the last call made on it), and from then on Escape does
    nothing. *)
Theorem enter_then_timer_closes_popup (pf pf1 pf2 pf3 : platform) (d : document)
  (p b : nat) (opener : event) (before between : list (platform * event)) :
getElementById d "popup-overlay" = Some p →
getElementById d "popup-enter" = Some b →
Forall (λ e, snd e ≠ CloseTimerFires) before →
Forall (λ e, snd e ≠ CloseTimerFires) between →
opener = EnterClick ∨ opener = Keydown "Escape" →
audioConstructible pf2 = true →
let pg := run (before ++ [(pf1, opener)] ++ between ++ [(pf2, CloseTimerFires)])
            (initApp pf d) in
popupClosed (dom pg) = true
∧ last (calls (audio pg)) = Some Play
∧ step pg (pf3, Keydown "Escape") = pg.
Proof.
intros Hp Hb Hbefore Hbetween Hopener Hc. cbv zeta.
destruct (initApp_showing pf d p b Hp Hb) as (Hs & Hsil & _ & Hcons).
assert (run (before ++ [(pf1, opener)] ++ between ++ [(pf2, CloseTimerFires)])
          (initApp pf d)
        = step (run between (step (run before (initApp pf d)) (pf1, opener)))
            (pf2, CloseTimerFires)) as ->
  by (unfold run; by rewrite !foldl_app).
set (pg0 := run before (initApp pf d)).
destruct (showing_run before _ Hbefore Hs Hsil) as (Hs0 & Hsil0 & _).
fold pg0 in Hs0, Hsil0.
pose proof (popup_consistent_run before _ Hcons) as Hcons0. fold pg0 in Hcons0.
assert (∃ p0, step pg0 (pf1, opener) = enterClick p0 pg0) as (p0 & ->).
{ destruct Hs0 as (p' & b' & Hw & _ & Hflex). exists p'.
  unfold step. simpl. destruct Hopener as [->| ->]; rewrite Hw; [done|].
  by rewrite Hflex. }
set (pg1 := enterClick p0 pg0).
assert (showing pg1) as Hs1 by (by apply showing_enterClick).
assert (silent pg1) as Hsil1 by done.
assert (0 < closeTimers pg1) as Ht1 by (simpl; lia).
assert (consistent (audio pg1)) as Hcons1 by done.
destruct (showing_run between _ Hbetween Hs1 Hsil1) as (Hs2 & _ & Ht2).
pose proof (popup_consistent_run between _ Hcons1) as Hcons2.
set (pg2 := run between pg1) in *.
destruct Hs2 as (p' & b' & Hw2 & Hp2 & Hflex2).
assert (p' < length (dom pg2)) as Hlt by (by apply (getElementById_lt _ "popup-overlay")).
assert (step pg2 (pf2, CloseTimerFires) = closePopup pf2 p' pg2) as ->.
{ unfold step. simpl. rewrite Hw2. by rewrite bool_decide_eq_true_2 by lia. }
unfold closePopup. rewrite style_set_exec.
split_and!.
- unfold popupClosed. simpl. rewrite getElementById_alter_style, Hp2.
  rewrite styleAt_alter_style. rewrite (bool_decide_eq_true_2 (_ ∧ _)) by done.
  by apply bool_decide_eq_true_2.
- simpl. by apply playBackgroundAudio_last_call.
- unfold step. simpl. rewrite Hw2. rewrite styleAt_alter_style.
  rewrite (bool_decide_eq_true_2 (_ ∧ _)) by done.
  by rewrite (bool_decide_eq_false_2 (Some "none" = Some "flex")).
Qed.

Lemma enter_then_timer_closes_popup_witness :
let d := [el None [] [("id", "popup-overlay")]; el (Some 0) [] [("id", "popup-enter")]] in
let pf := {| audioConstructible := true; playAllowed := true |} in
let pg := run ([(pf, MouseEnter)] ++ [(pf, Keydown "Escape")]
               ++ [(pf, VisibilityChange true)] ++ [(pf, CloseTimerFires)])
            (initApp pf d) in
popupClosed (dom pg) = true
∧ last (calls (audio pg)) = Some Play
∧ step pg (pf, Keydown "Escape") = pg.
Proof.
intros d pf pg.
apply (enter_then_timer_closes_popup pf pf pf pf d 0 1 (Keydown "Escape")
  [(pf, MouseEnter)] [(pf, VisibilityChange true)]).
- reflexivity.
- reflexivity.
- repeat constructor; discriminate.
- repeat constructor; discriminate.
- by right.
- reflexivity.
Defined.

(** X19. When the overlay is on the page but its button is missing,
    [initWelcomePopup] only warns: the overlay is not displayed by the
    script, no listener is added, the document never changes, and, unless
    the overlay carries [display: none] inline, no event ever makes the
    script call [play()]. *)
Theorem popup_without_button_never_plays (pf : platform) (d : document) (p : nat)
  (events : list (platform * event)) :
getElementById d "popup-overlay" = Some p →
getElementById d "popup-enter" = None →
styleAt d p "display" ≠ Some "none" →
let pg := run events (initApp pf d) in
dom pg = d ∧ wired pg = None ∧ silent pg ∧ console pg = ["Popup elements not found"].
Proof.
intros Hp Hb Hdisplay. cbv zeta.
assert (popupClosed d = false) as Hclosed.
{ unfold popupClosed. rewrite Hp. by apply bool_decide_eq_false_2. }
assert (∀ pg, dom pg = d → wired pg = None → silent pg →
  dom (run events pg) = d ∧ wired (run events pg) = None ∧ silent (run events pg)
  ∧ console (run events pg) = console pg) as Hrun.
{ unfold run. induction events as [|e events IH]; intros pg Hd Hw Hsil; [done|].
  simpl.
  assert (dom (step pg e) = d ∧ wired (step pg e) = None ∧ silent (step pg e)
          ∧ console (step pg e) = console pg) as (Hd' & Hw' & Hsil' & Hcon).
  { unfold step. destruct (snd e) as [|key| |hidden| |]; rewrite ?Hw; try done.
    split_and!; try done. unfold silent. simpl. rewrite Hd.
    by apply silent_onVisibilityChangePopup. }
  destruct (IH _ Hd' Hw' Hsil') as (?&?&?&Hcon'). split_and!; try done.
  by rewrite Hcon'. }
unfold initApp, initWelcomePopup. simpl. rewrite Hp, Hb.
apply Hrun; [done|done|]. unfold silent. simpl. unfold initBackgroundAudio. simpl.
destruct (audioConstructible pf); simpl; apply not_elem_of_nil.
Qed.

Lemma popup_without_button_never_plays_witness :
let d := [el None [] [("id", "popup-overlay")]] in
let pf := {| audioConstructible := true; playAllowed := true |} in
let pg := run [(pf, EnterClick); (pf, CloseTimerFires); (pf, VisibilityChange false)]
            (initApp pf d) in
dom pg = d ∧ wired pg = None ∧ silent pg ∧ console pg = ["Popup elements not found"].
Proof.
intros d pf pg.
apply (popup_without_button_never_plays pf d 0
  [(pf, EnterClick); (pf, CloseTimerFires); (pf, VisibilityChange false)]).
- reflexivity.
- reflexivity.
- discriminate.
Defined.

End PopupFacts.

(** ** The scroll indicator *)

Section ScrollIndicatorFacts.
Import ScrollIndicator.

Lemma classList_add_exec (d : document) (i : nat) (c : string) :
c ≠ "" → hasAsciiWhitespace c = false → i < length d →
exec (classList_add (Some i) c) d = alter (withClassList (addToken c)) i d.
Proof.
intros Hc Hws Hlt. rewrite classList_add_token by done.
apply lookup_lt_is_Some_2 in Hlt as [e He]. unfold exec.
by rewrite (update_Some _ _ e).
Qed.

Lemma handleScroll_hides (y : Qc) (pg : page) (i : nat) :
indicator pg = Some i → i < length (dom pg) → hasScrolled pg = false →
(Q2Qc (50 # 1) < y)%Qc →
handleScroll y pg
= {| dom := alter (withClassList (addToken "hidden")) i (dom pg);
     indicator := Some i; hasScrolled := true; scrollListener := false;
     touchListener := touchListener pg; timers := timers pg |}.
Proof.
intros Hi Hlt Hs Hy. unfold handleScroll. rewrite Hi, Hs. simpl.
rewrite bool_decide_eq_true_2 by done. by rewrite classList_add_exec.
Qed.

Lemma coherent_handleScroll (y : Qc) (pg : page) :
coherent pg → coherent (handleScroll y pg).
Proof.
intros Hco. pose proof Hco as (H1 & H2 & H3). unfold handleScroll.
destruct (indicator pg) as [i|] eqn:Hi; [|done].
destruct (negb (hasScrolled pg) && _) eqn:Hc; [|done].
apply andb_true_iff in Hc as [Hs _]. apply negb_true_iff in Hs.
specialize (H3 i eq_refl).
rewrite classList_add_exec by done.
split_and!; simpl.
- done.
- intros _. split; [done|]. exists i. simpl. split; [done|].
  rewrite matchesAt_class_addToken. by rewrite bool_decide_eq_true_2.
- intros i' [= <-]. by rewrite length_alter.
Qed.

Lemma coherent_checkMobile (w : Z) (pg : page) :
coherent pg → coherent (checkMobile w pg).
Proof.
intros Hco. pose proof Hco as (H1 & H2 & H3). unfold checkMobile.
destruct (indicator pg) as [i|] eqn:Hi; [|done]. cbv zeta.
specialize (H3 i eq_refl).
destruct ((w <=? 767)%Z && negb (hasScrolled pg)) eqn:Hc;
  rewrite style_set_exec; split_and!; simpl.
- intros _. apply andb_true_iff in Hc as [_ Hs]. apply negb_true_iff in Hs.
  split; [done|]. exists i. split; [done|].
  rewrite styleAt_alter_style. by rewrite bool_decide_eq_true_2.
- intros Hs. apply andb_true_iff in Hc as [_ Hs']. by rewrite Hs in Hs'.
- intros i' [= <-]. by rewrite length_alter.
- done.
- intros Hs. split; [done|]. destruct (H2 Hs) as (_ & i' & Hi' & Hhid).
  exists i'. simpl. split; [by rewrite <- Hi'|]. by rewrite matchesAt_alter_style.
- intros i' [= <-]. by rewrite length_alter.
Qed.

Lemma coherent_ext (pg pg' : page) :
dom pg' = dom pg → indicator pg' = indicator pg → hasScrolled pg' = hasScrolled pg →
scrollListener pg' = scrollListener pg → coherent pg → coherent pg'.
Proof.
intros Hd Hi Hs Hl. unfold coherent, hiddenForGood. by rewrite Hd, Hi, Hs, Hl.
Qed.

Lemma coherent_step (pg : page) (e : event) : coherent pg → coherent (step pg e).
Proof.
intros Hco. unfold step. destruct (indicator pg) as [i|] eqn:Hi; [|done].
destruct e as [y|w| |y].
- destruct (scrollListener pg); [by apply coherent_handleScroll|done].
- by apply coherent_checkMobile.
- destruct (touchListener pg); [|done]. by apply (coherent_ext pg).
- case_bool_decide; [|done]. apply coherent_handleScroll. by apply (coherent_ext pg).
Qed.

Lemma coherent_run (events : list event) (pg : page) :
coherent pg → coherent (run events pg).
Proof.
unfold run. revert pg. induction events as [|e events IH]; intros pg H; [done|].
simpl. apply IH. by apply coherent_step.
Qed.

Lemma coherent_init (w : Z) (d : document) : coherent (initScrollIndicator w d).
Proof.
unfold initScrollIndicator.
destruct (getElementById d "scroll-indicator") as [i|] eqn:Hi.
- apply coherent_checkMobile. split_and!; simpl; try done.
  intros i' [= <-]. by apply (getElementById_lt _ "scroll-indicator").
- by split_and!.
Qed.

(** X20. Along every sequence of scroll, resize, touch and timer events
    after [initScrollIndicator], whenever [handleScroll] is registered as
    scroll listener the indicator is displayed as a block and the user has
    not scrolled yet; and once [hasScrolled] is set the listener is gone and
    the indicator carries the class [hidden]. *)
Theorem scroll_listener_only_while_indicator_shown (w : Z) (d : document)
  (events : list event) :
coherent (run events (initScrollIndicator w d)).
Proof. apply coherent_run, coherent_init. Qed.

Lemma hasScrolled_step (pg : page) (e : event) :
hasScrolled pg = true → hasScrolled (step pg e) = true.
Proof.
intros Hs. unfold step. destruct (indicator pg) as [i|] eqn:Hi; [|done].
destruct e as [y|w| |y].
- destruct (scrollListener pg); [|done]. unfold handleScroll. by rewrite Hi, Hs.
- unfold checkMobile. rewrite Hi, Hs. by rewrite andb_false_r.
- by destruct (touchListener pg).
- case_bool_decide; [|done]. unfold handleScroll. simpl. by rewrite Hs.
Qed.

Lemma hasScrolled_run (events : list event) (pg : page) :
hasScrolled pg = true → hasScrolled (run events pg) = true.
Proof.
unfold run. revert pg. induction events as [|e events IH]; intros pg H; [done|].
simpl. apply IH. by apply hasScrolled_step.
Qed.

(** X21. The first scroll past 50 px while the listener is registered hides
    the indicator for good: whatever events come afterwards (resizes to a
    narrow window included), [hasScrolled] stays set, no scroll listener is
    registered again, the class [hidden] stays, and the indicator is never
    offered again. *)
Theorem scroll_hides_indicator_for_good (w : Z) (d : document)
  (before after : list event) (y : Qc) :
let pg := run before (initScrollIndicator w d) in
scrollListener pg = true → (Q2Qc (50 # 1) < y)%Qc →
let pg' := run (Scroll y :: after) pg in
hasScrolled pg' = true ∧ scrollListener pg' = false
∧ hiddenForGood pg' ∧ ¬ offered pg'.
Proof.
intros pg Hl Hy pg'.
assert (coherent pg) as Hco by apply coherent_run, coherent_init.
pose proof Hco as (H1 & _ & H3). destruct (H1 Hl) as (Hs & i & Hi & _).
assert (hasScrolled (step pg (Scroll y)) = true) as Hs1.
{ unfold step. rewrite Hi, Hl. by rewrite (handleScroll_hides y pg i) by auto. }
assert (hasScrolled pg' = true) as Hs'
  by (unfold pg', run; simpl; by apply hasScrolled_run).
assert (coherent pg') as (_ & H2' & _)
  by (unfold pg', run; simpl; by apply coherent_run, coherent_step).
destruct (H2' Hs') as (Hl' & Hhid). split_and!; try done.
intros (j & Hj & _ & Hno). destruct Hhid as (j' & Hj' & Hyes).
rewrite Hj in Hj'. injection Hj' as <-. by rewrite Hyes in Hno.
Qed.

Lemma scroll_hides_indicator_for_good_witness :
let d := [el None [] []; el (Some 0) ["scroll-indicator"] [("id", "scroll-indicator")]] in
let pg' := run [TouchStart; Scroll (Q2Qc (60 # 1)); Resize 375; Scroll (Q2Qc (0 # 1))]
             (initScrollIndicator 375 d) in
hasScrolled pg' = true ∧ scrollListener pg' = false
∧ hiddenForGood pg' ∧ ¬ offered pg'.
Proof.
intros d pg'.
apply (scroll_hides_indicator_for_good 375 d [TouchStart]
  [Resize 375%Z; Scroll (Q2Qc (0 # 1))] (Q2Qc (60 # 1))).
- reflexivity.
- reflexivity.
Defined.

Lemma unscrolled_step (i : nat) (pg : page) (e : event) :
indicator pg = Some i → i < length (dom pg) →
(hasScrolled pg = false → matchesAt (dom pg) [SelClass "hidden"] i = false) →
indicator (step pg e) = Some i ∧ i < length (dom (step pg e))
∧ (hasScrolled (step pg e) = false →
   matchesAt (dom (step pg e)) [SelClass "hidden"] i = false).
Proof.
intros Hi Hlt Hno.
assert (∀ y pg0, indicator pg0 = Some i → dom pg0 = dom pg →
  hasScrolled pg0 = hasScrolled pg →
  indicator (handleScroll y pg0) = Some i ∧ i < length (dom (handleScroll y pg0))
  ∧ (hasScrolled (handleScroll y pg0) = false →
     matchesAt (dom (handleScroll y pg0)) [SelClass "hidden"] i = false)) as Hhs.
{ intros y pg0 Hi0 Hd0 Hs0. unfold handleScroll. rewrite Hi0.
  destruct (_ && _); simpl; [|by rewrite Hd0, Hs0].
  rewrite Hd0, classList_add_exec, length_alter by done. done. }
unfold step. rewrite Hi. destruct e as [y|w| |y].
- destruct (scrollListener pg); [by apply Hhs|done].
- unfold checkMobile. rewrite Hi. cbv zeta.
  destruct (_ && _); simpl; rewrite style_set_exec, length_alter, matchesAt_alter_style;
    done.
- by destruct (touchListener pg).
- case_bool_decide; [by apply Hhs|done].
Qed.

Lemma unscrolled_run (i : nat) (events : list event) (pg : page) :
indicator pg = Some i → i < length (dom pg) →
(hasScrolled pg = false → matchesAt (dom pg) [SelClass "hidden"] i = false) →
indicator (run events pg) = Some i ∧ i < length (dom (run events pg))
∧ (hasScrolled (run events pg) = false →
   matchesAt (dom (run events pg)) [SelClass "hidden"] i = false).
Proof.
unfold run. revert pg. induction events as [|e events IH]; intros pg Hi Hlt Hno; [done|].
simpl. destruct (unscrolled_step i pg e Hi Hlt Hno) as (?&?&?). by apply IH.
Qed.

(** X22. On a page whose indicator is not marked [hidden] in the markup, a
    resize to a width of at most 767 px offers the indicator exactly when
    the user has not scrolled past 50 px before, whatever else happened
    since the page was loaded and whatever the width was then. *)
Theorem narrow_resize_offers_until_scrolled (w w' : Z) (d : document) (i : nat)
  (events : list event) :
getElementById d "scroll-indicator" = Some i →
matchesAt d [SelClass "hidden"] i = false →
(w' ≤ 767)%Z →
let pg := run events (initScrollIndicator w d) in
offered (step pg (Resize w')) ↔ hasScrolled pg = false.
Proof.
intros Hi Hno Hw pg.
assert (i < length d) as Hlt by (by apply (getElementById_lt _ "scroll-indicator")).
assert (indicator pg = Some i ∧ i < length (dom pg)
        ∧ (hasScrolled pg = false → matchesAt (dom pg) [SelClass "hidden"] i = false))
  as (Hi' & Hlt' & Hno').
{ apply unscrolled_run; unfold initScrollIndicator, checkMobile; rewrite Hi; simpl;
    destruct (_ && _); simpl; rewrite ?style_set_exec, ?length_alter,
      ?matchesAt_alter_style; done. }
unfold step, checkMobile. rewrite Hi'. cbv zeta.
apply Z.leb_le in Hw. rewrite Hw. simpl.
destruct (hasScrolled pg) eqn:Hs; simpl; rewrite style_set_exec.
- split; [|done]. intros (j & Hj & Hblock & _). simpl in Hj, Hblock.
  injection Hj as <-.
  rewrite styleAt_alter_style in Hblock.
  by rewrite bool_decide_eq_true_2 in Hblock.
- split; [done|]. intros _. exists i. simpl. split; [done|].
  rewrite styleAt_alter_style, matchesAt_alter_style.
  rewrite bool_decide_eq_true_2 by done. split; [done|]. by apply Hno'.
Qed.

Lemma narrow_resize_offers_until_scrolled_witness :
let d := [el None [] []; el (Some 0) ["scroll-indicator"] [("id", "scroll-indicator")]] in
let pg := run [TouchStart; TimerFires (Q2Qc (80 # 1))] (initScrollIndicator 1280 d) in
hasScrolled pg = true ∧ ¬ offered (step pg (Resize 375)).
Proof.
intros d pg. split; [reflexivity|].
intros H.
apply (narrow_resize_offers_until_scrolled 1280 375 d 1
  [TouchStart; TimerFires (Q2Qc (80 # 1))]) in H; [discriminate H|reflexivity|reflexivity|].
by apply Z.leb_le.
Defined.

End ScrollIndicatorFacts.

(** ** The accordion and [aria-expanded] *)

Section AriaFacts.
Import Main Samples.

(** X23. After a click on a header, [aria-expanded] tells of every
    accordion item whether it is open.  It holds for markup where every
    item has a header and the clicked header is the first header of its
    parent item and of no other item; the attribute is read at the first
    header of each item, the one [closeAllAccordionItems] writes. *)
Theorem aria_expanded_mirrors_open_state (header p : nat) (eh : element)
  (d : document) (item h : nat) :
d !! header = Some eh → parentElement eh = Some p → p < length d →
wellFormedAccordion d →
Forall (λ i, querySelectorIn d i accordionHeaderSel = Some header ↔ i = p)
  (accordionItems d) →
item ∈ accordionItems d →
querySelectorIn d item accordionHeaderSel = Some h →
attributeAt (activate header d) h "aria-expanded"
= Some (if isOpen (activate header d) item then "true" else "false").
Proof.
intros Hh Hp Hlt Hwf Hflat Hitem Hq.
unfold wellFormedAccordion in Hwf. rewrite Forall_forall in Hwf, Hflat.
destruct (activate_normal header p eh d Hh Hp Hlt Hwf) as [_ Hopen].
rewrite (Hopen item Hitem).
unfold activate, exec. rewrite accordionClick_eq, Hh, Hp.
apply lookup_lt_is_Some_2 in Hlt as Hep. destruct Hep as [ep Hep].
simpl. rewrite Hep. simpl.
destruct (closeAll_spec d) as (Hsame & _ & Hclosed & Htotal).
destruct (closeAllAccordionItems d) as [d1 c]; simpl in *.
rewrite (Htotal Hwf) in *.
destruct (Hclosed eq_refl item Hitem) as [_ (h' & Hq' & Haria)].
rewrite Hq in Hq'. injection Hq' as <-.
rewrite (isOpen_lookup _ _ _ Hep).
destruct (hasClass ep "active"); simpl.
- by rewrite andb_false_r.
- rewrite andb_true_r, attributeAt_alter_attribute, attributeAt_alter_classList.
  case_bool_decide as Hc.
  + destruct Hc as (<- & _ & _). rewrite bool_decide_eq_true_2; [done|].
    by apply (Hflat item).
  + rewrite Haria, bool_decide_eq_false_2; [done|]. intros ->. apply Hc.
    assert (h = header) as ->.
    { pose proof (proj2 (Hflat p Hitem) eq_refl) as Hq'. rewrite Hq in Hq'.
      by injection Hq'. }
    split_and!; [done|done|]. rewrite !length_alter, <- (sameMarkup_length _ _ Hsame).
    by eapply lookup_lt_Some.
Qed.

Lemma aria_expanded_mirrors_open_state_witness :
attributeAt (activate 5 threeItems) 5 "aria-expanded" = Some "true"
∧ attributeAt (activate 5 threeItems) 2 "aria-expanded"
  = Some (if isOpen (activate 5 threeItems) 1 then "true" else "false").
Proof.
split; [reflexivity|].
apply (aria_expanded_mirrors_open_state 5 4
  (el (Some 4) ["accordion-header"] [("aria-expanded", "false")]) threeItems 1 2).
- reflexivity.
- reflexivity.
- vm_compute. lia.
- apply (bool_decide_unpack _). vm_compute. exact I.
- apply (bool_decide_unpack _). vm_compute. exact I.
- apply (bool_decide_unpack _). vm_compute. exact I.
- reflexivity.
Defined.

End AriaFacts.
